(** * toucan: graph-to-prompt compiler, connection validator and
      control-after-generate engine

    A shallow embedding of
      - [src/lib/comfy/prompt.ts] (widget value resolver, request compiler),
      - [src/components/graph/execution-context.ts] (connection validator),
      - [src/lib/comfy/control-after-generate.ts] (control-field engine),
    followed by the properties of the specification that they satisfy.

    Conventions of the embedding.
      - A JavaScript number is a rational or one of NaN, +Infinity, -Infinity;
        arithmetic is exact (binary64 rounding and the sign of zero are not
        represented).
      - [undefined] is [None]; [null] is a value of its own where the source
        tells the two apart.
      - Plain objects used as dictionaries are finite maps; the prototype
        chain is not represented.
      - [Math.random] is an explicit stream of draws with a cursor. *)

From Stdlib Require Import ZArith QArith Qround Qabs String Ascii Lia Lqa.
From Stdlib Require DecimalString.
From stdpp Require Import gmap strings list fin_maps.

Local Open Scope string_scope.
Local Open Scope list_scope.

(** ** JavaScript values *)

Module Js.

Inductive number : Type :=
| Fin (q : Q)
| NaN
| PInf
| NInf.

Definition isFinite (n : number) : bool :=
  match n with Fin _ => true | _ => false end.

Definition Qltb (a b : Q) : bool := negb (Qle_bool b a).

(** [Math.trunc] on a rational: rounding toward zero. *)
Definition Qtrunc (q : Q) : Z := Z.quot (Qnum q) (Zpos (Qden q)).

Definition trunc (n : number) : number :=
  match n with Fin q => Fin (inject_Z (Qtrunc q)) | _ => n end.

Definition floor (n : number) : number :=
  match n with Fin q => Fin (inject_Z (Qfloor q)) | _ => n end.

Definition abs (n : number) : number :=
  match n with
  | Fin q => Fin (Qabs q)
  | NaN => NaN
  | PInf | NInf => PInf
  end.

Definition neg (n : number) : number :=
  match n with
  | Fin q => Fin (- q)
  | NaN => NaN
  | PInf => NInf
  | NInf => PInf
  end.

Definition add (a b : number) : number :=
  match a, b with
  | Fin x, Fin y => Fin (x + y)
  | NaN, _ | _, NaN => NaN
  | PInf, NInf | NInf, PInf => NaN
  | PInf, _ | _, PInf => PInf
  | NInf, _ | _, NInf => NInf
  end.

Definition sub (a b : number) : number := add a (neg b).

(** The infinity carrying the sign of [q], NaN for zero. *)
Definition signed_inf (q : Q) : number :=
  if Qltb 0 q then PInf else if Qltb q 0 then NInf else NaN.

Definition mul (a b : number) : number :=
  match a, b with
  | Fin x, Fin y => Fin (x * y)
  | NaN, _ | _, NaN => NaN
  | Fin x, PInf | PInf, Fin x => signed_inf x
  | Fin x, NInf | NInf, Fin x => signed_inf (- x)
  | PInf, PInf | NInf, NInf => PInf
  | PInf, NInf | NInf, PInf => NaN
  end.

Definition div (a b : number) : number :=
  match a, b with
  | Fin x, Fin y => if Qeq_bool y 0 then signed_inf x else Fin (x / y)
  | NaN, _ | _, NaN => NaN
  | Fin _, (PInf | NInf) => Fin 0
  | PInf, Fin y => if Qltb y 0 then NInf else PInf
  | NInf, Fin y => if Qltb y 0 then PInf else NInf
  | (PInf | NInf), (PInf | NInf) => NaN
  end.

(** [a < b]; every comparison with NaN is false. *)
Definition lt (a b : number) : bool :=
  match a, b with
  | Fin x, Fin y => Qltb x y
  | NaN, _ | _, NaN => false
  | NInf, (Fin _ | PInf) => true
  | Fin _, PInf => true
  | _, _ => false
  end.

Definition gt (a b : number) : bool := lt b a.

(** [Math.max] and [Math.min] of two arguments. *)
Definition max (a b : number) : number :=
  match a, b with
  | NaN, _ | _, NaN => NaN
  | _, _ => if lt a b then b else a
  end.

Definition min (a b : number) : number :=
  match a, b with
  | NaN, _ | _, NaN => NaN
  | _, _ => if lt b a then b else a
  end.

(** [a === b] on numbers. *)
Definition strict_eq (a b : number) : bool :=
  match a, b with
  | Fin x, Fin y => Qeq_bool x y
  | PInf, PInf | NInf, NInf => true
  | _, _ => false
  end.

(** [Object.is(a, b)] on numbers: as [===] but NaN is itself. *)
Definition same_value (a b : number) : bool :=
  match a, b with
  | NaN, NaN => true
  | _, _ => strict_eq a b
  end.

Definition of_Z (z : Z) : number := Fin (inject_Z z).

(** [String.prototype.startsWith] followed by [slice(prefix.length)]:
    the rest of [s] after [prefix], when [s] starts with it. *)
Fixpoint strip_prefix (prefix s : string) : option string :=
  match prefix, s with
  | EmptyString, _ => Some s
  | String a p, String b t =>
      if Ascii.eqb a b then strip_prefix p t else None
  | String _ _, EmptyString => None
  end.

Definition is_whitespace (c : ascii) : bool :=
  match nat_of_ascii c with
  | 9 | 10 | 11 | 12 | 13 | 32 => true
  | _ => false
  end%nat.

Fixpoint trim_start (s : string) : string :=
  match s with
  | String c t => if is_whitespace c then trim_start t else s
  | EmptyString => EmptyString
  end.

Fixpoint trim_end (s : string) : string :=
  match s with
  | EmptyString => EmptyString
  | String c t =>
      match trim_end t with
      | EmptyString => if is_whitespace c then EmptyString else String c EmptyString
      | t' => String c t'
      end
  end.

(** [String.prototype.trim] on the ASCII white space characters. *)
Definition trim (s : string) : string := trim_end (trim_start s).

Definition lower_ascii (c : ascii) : ascii :=
  let n := nat_of_ascii c in
  if ((65 <=? n) && (n <=? 90))%nat then ascii_of_nat (n + 32) else c.

(** [String.prototype.toLowerCase] on ASCII text. *)
Fixpoint toLowerCase (s : string) : string :=
  match s with
  | EmptyString => EmptyString
  | String c t => String (lower_ascii c) (toLowerCase t)
  end.

End Js.

Export Js(number, Fin, NaN, PInf, NInf).

(** ** Declarations of [lib/comfy/objectInfo] used by the three modules *)

(** [WidgetValue]: the literal a widget holds. *)
Inductive WidgetValue : Type :=
| VString (s : string)
| VNumber (n : number)
| VBool (b : bool)
| VNull.

Inductive SlotGroup : Type := Required | Optional | Hidden.

Inductive WidgetKind : Type := KString | KNumber | KBoolean | KSelect.

(** [InputSlot.config]: raw values from the backend, inspected with [typeof]. *)
Record SlotConfig : Type := mkSlotConfig {
  cfg_min : option WidgetValue;
  cfg_max : option WidgetValue;
  cfg_step : option WidgetValue;
  control_after_generate : option WidgetValue
}.

Record InputSlot : Type := mkInputSlot {
  slot_name : string;
  slot_group : SlotGroup;
  valueType : option string;
  supportsWidget : bool;
  forceInput : bool;
  slot_options : list string;
  slot_config : option SlotConfig
}.

Record OutputSlot : Type := mkOutputSlot {
  out_name : string;
  out_type : string
}.

Record NodeSchema : Type := mkNodeSchema {
  displayName : string;
  schema_inputs : list InputSlot;
  schema_outputs : list OutputSlot
}.

Record WidgetSpec : Type := mkWidgetSpec {
  widget_kind : WidgetKind;
  defaultValue : option WidgetValue;
  widget_options : option (list string)
}.

(** What the code takes from outside this repository's three modules:
    [getWidgetSpec] of objectInfo, and the built-in conversions [Number(s)]
    and [String(n)]. *)
Class Host : Type := mkHost {
  getWidgetSpec : InputSlot -> option WidgetSpec;
  Number_of_string : string -> number;
  String_of_number : number -> string
}.

(** Graph nodes and edges, as the compiler, the validator and the engine
    read them. *)
Record NodeData : Type := mkNodeData {
  nodeType : option string;
  widgetValues : option (gmap string WidgetValue);
  widgetControlValues : option (gmap string string)
}.

Record GraphNode : Type := mkGraphNode {
  node_id : string;
  node_data : option NodeData
}.

Record GraphEdge : Type := mkGraphEdge {
  edge_source : option string;
  edge_target : option string;
  sourceHandle : option string;
  targetHandle : option string
}.

(** Truthiness of an optional string: present and not empty. *)
Definition truthy_string (s : option string) : option string :=
  match s with
  | Some EmptyString => None
  | other => other
  end.

(** [node.data?.nodeType] when truthy. *)
Definition node_type_of (node : GraphNode) : option string :=
  truthy_string (node_data node ≫= nodeType).

(** [node.data?.widgetValues ?? {}]. *)
Definition widget_values_of (node : GraphNode) : gmap string WidgetValue :=
  default ∅ (node_data node ≫= widgetValues).

(** ** [lib/comfy/prompt.ts] *)

(** [PromptConnection = [string, number]]: source node id and the position
    of the output slot ([findIndex] result, never negative here). *)
Definition PromptConnection : Type := (string * nat)%type.

(** [PromptInputValue = WidgetValue | PromptConnection | PromptConnection[]]. *)
Inductive PromptInputValue : Type :=
| Literal (v : WidgetValue)
| Connection (c : PromptConnection)
| ConnectionList (cs : list PromptConnection).

Record PromptNode : Type := mkPromptNode {
  class_type : string;
  inputs : gmap string PromptInputValue
}.

(** The two kinds of diagnostics, kept structured; the text pushed by the
    source is [warning_message] and [error_message]. *)
Inductive Warning : Type :=
| MissingType (id : string)
| MissingSchema (type id : string)
| UnknownOutput (slot type id : string).

Inductive BuildError : Type :=
| MissingRequiredInput (slot display id : string).



Record PromptBuildResult : Type := mkPromptBuildResult {
  prompt : gmap string PromptNode;
  errors : list BuildError;
  warnings : list Warning
}.

Definition parseHandleSlotName (handleId : option string) (prefix : string)
  : option string :=
  match handleId with
  | None => None
  | Some h =>
      match Js.strip_prefix prefix h with
      | None => None
      | Some slotName => if decide (slotName = "") then None else Some slotName
      end
  end.

Section Resolver.
Context `{Host}.

Definition resolveNumberValue (value : WidgetValue) (isInteger : bool)
  : option number :=
  match value with
  | VNumber n =>
      if Js.isFinite n then Some (if isInteger then Js.trunc n else n)
      else None
  | VString s =>
      if decide (Js.trim s = "") then None
      else
        let parsed := Number_of_string s in
        if Js.isFinite parsed
        then Some (if isInteger then Js.trunc parsed else parsed)
        else None
  | _ => None
  end.

(** [rawValue ?? fallbackValue] *)
Definition nullish_or (rawValue fallbackValue : option WidgetValue)
  : option WidgetValue :=
  match rawValue with
  | None | Some VNull => fallbackValue
  | Some v => Some v
  end.

(** [String(value)] for a value that is not null. *)
Definition to_string (value : WidgetValue) : string :=
  match value with
  | VString s => s
  | VNumber n => String_of_number n
  | VBool true => "true"
  | VBool false => "false"
  | VNull => "null"
  end.

Definition resolveWidgetValue (slot : InputSlot)
    (rawValue fallbackValue : option WidgetValue) : option WidgetValue :=
  match nullish_or rawValue fallbackValue with
  | None | Some VNull => None
  | Some value =>
      if (0 <? length (slot_options slot))%nat
         || bool_decide (valueType slot = Some "STRING")
      then Some (VString (to_string value))
      else if bool_decide (valueType slot = Some "BOOLEAN") then
        match value with
        | VBool b => Some (VBool b)
        | VString s =>
            if decide (Js.toLowerCase s = "true") then Some (VBool true)
            else if decide (Js.toLowerCase s = "false") then Some (VBool false)
            else None
        | _ => None
        end
      else if bool_decide (valueType slot = Some "INT") then
        VNumber <$> resolveNumberValue value true
      else if bool_decide (valueType slot = Some "FLOAT") then
        VNumber <$> resolveNumberValue value false
      else Some value
  end.

End Resolver.

(** Truthiness of a widget literal: [""], [0], [NaN], [false] and [null]
    are falsy. *)
Definition truthy_value (v : WidgetValue) : bool :=
  match v with
  | VString s => negb (bool_decide (s = ""))
  | VNumber (Fin q) => negb (Qeq_bool q 0)
  | VNumber NaN => false
  | VNumber _ => true
  | VBool b => b
  | VNull => false
  end.

(** Truthiness of a stored input value: arrays are always truthy. *)
Definition truthy_input (v : PromptInputValue) : bool :=
  match v with
  | Literal l => truthy_value l
  | Connection _ | ConnectionList _ => true
  end.

(** An array of length two holding a string and a number. *)
Definition isPromptConnection (value : PromptInputValue) : bool :=
  match value with
  | Connection _ => true
  | Literal _ | ConnectionList _ => false
  end.

(** A non-empty array all of whose elements are connections. *)
Definition isPromptConnectionList (value : PromptInputValue) : bool :=
  match value with
  | ConnectionList cs => (0 <? length cs)%nat
  | Literal _ | Connection _ => false
  end.

Definition mergePromptConnection (existing : option PromptInputValue)
    (connection : PromptConnection) : PromptInputValue :=
  match existing with
  | None => Connection connection
  | Some e =>
      if negb (truthy_input e) then Connection connection
      else if isPromptConnection e then
        match e with
        | Connection c => ConnectionList [c; connection]
        | _ => Connection connection
        end
      else if isPromptConnectionList e then
        match e with
        | ConnectionList cs => ConnectionList (cs ++ [connection])
        | _ => Connection connection
        end
      else Connection connection
  end.

(** [Array.prototype.findIndex]; [None] stands for [-1]. *)
Fixpoint findIndex {A} (p : A -> bool) (l : list A) : option nat :=
  match l with
  | [] => None
  | x :: t => if p x then Some O else S <$> findIndex p t
  end.

(** The mutable locals of [buildPromptFromGraph]. *)
Record BuildState : Type := mkBuildState {
  st_errors : list BuildError;
  st_warnings : list Warning;
  st_prompt : gmap string PromptNode;
  st_nodeById : gmap string GraphNode;
  schemaWarningKeys : gset string
}.

Definition initial_state : BuildState :=
  mkBuildState [] [] ∅ ∅ ∅.

Definition pushWarning (st : BuildState) (message : Warning)
    (dedupeKey : option string) : BuildState :=
  match truthy_string dedupeKey with
  | Some key =>
      if decide (key ∈ schemaWarningKeys st) then st
      else mkBuildState (st_errors st) (st_warnings st ++ [message])
             (st_prompt st) (st_nodeById st) ({[key]} ∪ schemaWarningKeys st)
  | None =>
      mkBuildState (st_errors st) (st_warnings st ++ [message])
        (st_prompt st) (st_nodeById st) (schemaWarningKeys st)
  end.

Definition set_nodeById (st : BuildState) (node : GraphNode) : BuildState :=
  mkBuildState (st_errors st) (st_warnings st) (st_prompt st)
    (<[node_id node := node]> (st_nodeById st)) (schemaWarningKeys st).

Definition set_prompt (st : BuildState) (id : string) (p : PromptNode)
  : BuildState :=
  mkBuildState (st_errors st) (st_warnings st) (<[id := p]> (st_prompt st))
    (st_nodeById st) (schemaWarningKeys st).

Definition push_error (st : BuildState) (e : BuildError) : BuildState :=
  mkBuildState (st_errors st ++ [e]) (st_warnings st) (st_prompt st)
    (st_nodeById st) (schemaWarningKeys st).

Section Compiler.
Context `{Host}.
Variable nodeSchemas : gmap string NodeSchema.

(** One turn of the loop over [schema.inputs] in the first pass. *)
Definition resolve_slot (values : gmap string WidgetValue)
    (ins : gmap string PromptInputValue) (slot : InputSlot)
  : gmap string PromptInputValue :=
  match slot_group slot with
  | Hidden => ins
  | _ =>
      if negb (supportsWidget slot) || forceInput slot then ins
      else
        let rawValue := values !! slot_name slot in
        let fallbackValue :=
          match rawValue with
          | None => getWidgetSpec slot ≫= defaultValue
          | Some _ => None
          end in
        match resolveWidgetValue slot rawValue fallbackValue with
        | Some resolved => <[slot_name slot := Literal resolved]> ins
        | None => ins
        end
  end.

(** The branch without a schema: every stored value that is not null. *)
Definition passthrough_inputs (values : gmap string WidgetValue)
  : gmap string PromptInputValue :=
  omap (fun v => match v with VNull => None | _ => Some (Literal v) end) values.

(** First pass, one node. *)
Definition compile_node (st : BuildState) (node : GraphNode) : BuildState :=
  let st := set_nodeById st node in
  match node_type_of node with
  | None =>
      pushWarning st (MissingType (node_id node))
        (Some ("missing-type-" ++ node_id node)%string)
  | Some type =>
      let values := widget_values_of node in
      match nodeSchemas !! type with
      | Some schema =>
          set_prompt st (node_id node)
            (mkPromptNode type
               (foldl (resolve_slot values) ∅ (schema_inputs schema)))
      | None =>
          let st := pushWarning st (MissingSchema type (node_id node))
                      (Some ("missing-schema-" ++ node_id node)%string) in
          set_prompt st (node_id node)
            (mkPromptNode type (passthrough_inputs values))
      end
  end.

(** Second pass, one edge. *)
Definition wire_edge (st : BuildState) (edge : GraphEdge) : BuildState :=
  match truthy_string (edge_source edge), truthy_string (edge_target edge) with
  | Some source, Some target =>
      match parseHandleSlotName (sourceHandle edge) "out-",
            parseHandleSlotName (targetHandle edge) "in-" with
      | Some sourceSlotName, Some targetSlotName =>
          match st_nodeById st !! source, st_nodeById st !! target with
          | Some sourceNode, Some targetNode =>
              match node_type_of sourceNode with
              | None => st
              | Some sourceType =>
                  match nodeSchemas !! sourceType with
                  | None =>
                      pushWarning st
                        (MissingSchema sourceType (node_id sourceNode))
                        (Some ("missing-schema-" ++ node_id sourceNode)%string)
                  | Some sourceSchema =>
                      match findIndex
                              (fun slot => bool_decide (out_name slot = sourceSlotName))
                              (schema_outputs sourceSchema) with
                      | None =>
                          pushWarning st
                            (UnknownOutput sourceSlotName sourceType
                               (node_id sourceNode))
                            None
                      | Some outputIndex =>
                          match st_prompt st !! node_id targetNode with
                          | None => st
                          | Some targetPrompt =>
                              let connection := (node_id sourceNode, outputIndex) in
                              set_prompt st (node_id targetNode)
                                (mkPromptNode (class_type targetPrompt)
                                   (<[targetSlotName :=
                                        mergePromptConnection
                                          (inputs targetPrompt !! targetSlotName)
                                          connection]> (inputs targetPrompt)))
                          end
                      end
                  end
              end
          | _, _ => st
          end
      | _, _ => st
      end
  | _, _ => st
  end.

(** Third pass, one slot of one node. *)
Definition check_slot (node : GraphNode) (schema : NodeSchema)
    (promptNode : PromptNode) (st : BuildState) (slot : InputSlot)
  : BuildState :=
  match slot_group slot with
  | Required =>
      if decide (is_Some (inputs promptNode !! slot_name slot)) then st
      else push_error st
             (MissingRequiredInput (slot_name slot) (displayName schema)
                (node_id node))
  | _ => st
  end.

(** Third pass, one node. *)
Definition check_node (st : BuildState) (node : GraphNode) : BuildState :=
  match node_type_of node with
  | None => st
  | Some type =>
      match nodeSchemas !! type with
      | None => st
      | Some schema =>
          match st_prompt st !! node_id node with
          | None => st
          | Some promptNode =>
              foldl (check_slot node schema promptNode) st (schema_inputs schema)
          end
      end
  end.

Definition buildPromptFromGraph (nodes : list GraphNode)
    (edges : list GraphEdge) : PromptBuildResult :=
  let st1 := foldl compile_node initial_state nodes in
  let st2 := foldl wire_edge st1 edges in
  let st3 := foldl check_node st2 nodes in
  mkPromptBuildResult (st_prompt st3) (st_errors st3) (st_warnings st3).

End Compiler.

(** ** Connection validator ([components/graph/execution-context.ts]) *)

Record ResolvedConnectionSlots : Type := mkResolved {
  sourceNode : GraphNode;
  targetNode : GraphNode;
  sourceSchema : NodeSchema;
  targetSchema : NodeSchema;
  sourceSlot : OutputSlot;
  targetSlot : InputSlot
}.

Definition isTypeCompatible (resolved : ResolvedConnectionSlots) : bool :=
  match truthy_string (valueType (targetSlot resolved)) with
  | None => false
  | Some targetType => bool_decide (out_type (sourceSlot resolved) = targetType)
  end.

(** One turn of the loop that fills [adjacency]. *)
Definition add_neighbor (adjacency : gmap string (list string))
    (edge : GraphEdge) : gmap string (list string) :=
  match truthy_string (edge_source edge), truthy_string (edge_target edge) with
  | Some source, Some target =>
      match adjacency !! source with
      | Some neighbors => <[source := (neighbors ++ [target])]> adjacency
      | None => <[source := [target]]> adjacency
      end
  | _, _ => adjacency
  end.

Definition build_adjacency (edges : list GraphEdge) : gmap string (list string) :=
  foldl add_neighbor ∅ edges.

(** The [while (stack.length > 0)] loop. The stack is a list whose head is
    the end of the JavaScript array (what [pop] takes, where [push] adds);
    [fuel] bounds the number of turns and [None] means it ran out. *)
Fixpoint search (fuel : nat) (adjacency : gmap string (list string))
    (source : string) (stack : list string) (visited : gset string)
  : option bool :=
  match fuel with
  | O => None
  | S fuel =>
      match stack with
      | [] => Some false
      | nodeId :: stack =>
          if decide (nodeId = "") then search fuel adjacency source stack visited
          else if decide (nodeId = source) then Some true
          else if decide (nodeId ∈ visited)
          then search fuel adjacency source stack visited
          else
            let visited := {[nodeId]} ∪ visited in
            match adjacency !! nodeId with
            | None => search fuel adjacency source stack visited
            | Some neighbors =>
                let pushed :=
                  filter (fun neighbor => neighbor ∉ visited) neighbors in
                search fuel adjacency source (rev pushed ++ stack) visited
            end
      end
  end.

(** Number of turns granted to the loop for a given edge list. *)
Definition search_fuel (edges : list GraphEdge) : nat := S (S (length edges)).

Definition createsCycle (connection : GraphEdge) (edges : list GraphEdge)
  : option bool :=
  match truthy_string (edge_source connection),
        truthy_string (edge_target connection) with
  | Some source, Some target =>
      if decide (source = target) then Some true
      else search (search_fuel edges) (build_adjacency edges) source [target] ∅
  | _, _ => Some true
  end.

Section Validator.
Variable nodes : list GraphNode.
Variable nodeSchemas : gmap string NodeSchema.

(** [nodes.find((node) => node.id === id)] *)
Definition find_node (id : string) : option GraphNode :=
  List.find (fun node => bool_decide (node_id node = id)) nodes.

(** [nodeSchemas[node.data.nodeType]] *)
Definition schema_of (node : GraphNode) : option NodeSchema :=
  match node_data node ≫= nodeType with
  | Some type => nodeSchemas !! type
  | None => None
  end.

Definition resolveConnectionSlots (connection : GraphEdge)
  : option ResolvedConnectionSlots :=
  match truthy_string (edge_source connection),
        truthy_string (edge_target connection) with
  | Some source, Some target =>
      match parseHandleSlotName (sourceHandle connection) "out-",
            parseHandleSlotName (targetHandle connection) "in-" with
      | Some sourceSlotName, Some targetSlotName =>
          match find_node source, find_node target with
          | Some sourceNode, Some targetNode =>
              match schema_of sourceNode, schema_of targetNode with
              | Some sourceSchema, Some targetSchema =>
                  match List.find
                          (fun slot => bool_decide (out_name slot = sourceSlotName))
                          (schema_outputs sourceSchema),
                        List.find
                          (fun slot => bool_decide (slot_name slot = targetSlotName))
                          (schema_inputs targetSchema) with
                  | Some sourceSlot, Some targetSlot =>
                      Some (mkResolved sourceNode targetNode sourceSchema
                              targetSchema sourceSlot targetSlot)
                  | _, _ => None
                  end
              | _, _ => None
              end
          | _, _ => None
          end
      | _, _ => None
      end
  | _, _ => None
  end.

(** [None] only when the cycle search runs out of fuel. *)
Definition isConnectionValid (connection : GraphEdge)
    (edges : list GraphEdge) : option bool :=
  match resolveConnectionSlots connection with
  | None => Some false
  | Some resolved =>
      if negb (isTypeCompatible resolved) then Some false
      else
        match createsCycle connection edges with
        | None => None
        | Some true => Some false
        | Some false => Some true
        end
  end.

End Validator.

(** ** [lib/comfy/control-after-generate.ts] *)

Inductive WidgetControlValue : Type := Fixed | Increment | Decrement | Randomize.

Inductive ControlAfterGenerateMode : Type := Before | After.

Definition DEFAULT_CONTROL_VALUE : WidgetControlValue := Randomize.

Definition CONTROL_FALLBACK_NAMES : list string := ["seed"; "noise_seed"].

Definition MAX_RANDOM_RANGE : number := Fin 1125899906842624.

Definition normalizeControlValue (value : option string) : WidgetControlValue :=
  match value with
  | Some "fixed" => Fixed
  | Some "increment" => Increment
  | Some "decrement" => Decrement
  | Some "randomize" => Randomize
  | _ => DEFAULT_CONTROL_VALUE
  end.

Definition isSupportedControlWidget (widgetSpec : WidgetSpec) : bool :=
  match widget_kind widgetSpec with
  | KNumber | KSelect => true
  | _ => false
  end.

Definition isControlAfterGenerateEnabled (slot : InputSlot) : bool :=
  if negb (supportsWidget slot) || forceInput slot then false
  else
    match slot_config slot ≫= control_after_generate with
    | Some (VBool true) | Some (VString _) => true
    | _ => bool_decide (slot_name slot ∈ CONTROL_FALLBACK_NAMES)
    end.

(** [typeof v === "number" && Number.isFinite(v)] on an optional raw value. *)
Definition finite_number (v : option WidgetValue) : option number :=
  match v with
  | Some (VNumber n) => if Js.isFinite n then Some n else None
  | _ => None
  end.

Section Engine.
Context `{Host}.

Definition resolveNumericValue (value : option WidgetValue)
    (fallback : number) (isInteger : bool) : number :=
  let resolved :=
    match value with
    | Some (VNumber n) => if Js.isFinite n then n else fallback
    | Some (VString s) =>
        let parsed := Number_of_string s in
        if Js.isFinite parsed then parsed else fallback
    | _ => fallback
    end in
  if isInteger then Js.trunc resolved else resolved.

Definition resolveNumberBounds (slot : InputSlot) (fallback step : number)
  : number * number :=
  let min := default fallback (finite_number (slot_config slot ≫= cfg_min)) in
  let max :=
    default (Js.add min step) (finite_number (slot_config slot ≫= cfg_max)) in
  let '(min, max) := if Js.lt max min then (max, min) else (min, max) in
  let min := Js.max (Js.neg MAX_RANDOM_RANGE) min in
  let max := Js.min MAX_RANDOM_RANGE max in
  let max := if Js.lt max min then min else max in
  (min, max).

Definition resolveNumberStep (slot : InputSlot) : number :=
  let step := default (Fin 1) (finite_number (slot_config slot ≫= cfg_step)) in
  if Js.strict_eq step (Fin 0) then Fin 1 else Js.abs step.

(** [random] is the stream behind [Math.random] and [cursor] the number of
    draws made so far; the new cursor is returned with the result. *)
Definition applyNumberControl (random : nat -> Q) (cursor : nat)
    (controlValue : WidgetControlValue) (slot : InputSlot)
    (widgetSpec : WidgetSpec) (rawValue : option WidgetValue)
  : option number * nat :=
  match controlValue with
  | Fixed => (None, cursor)
  | _ =>
      let isInteger := bool_decide (valueType slot = Some "INT") in
      let defaultNumber :=
        match defaultValue widgetSpec with
        | Some (VNumber n) => n
        | _ => Fin 0
        end in
      let step := resolveNumberStep slot in
      let '(min, max) := resolveNumberBounds slot defaultNumber step in
      let current := resolveNumericValue rawValue defaultNumber isInteger in
      let '(next, cursor) :=
        match controlValue with
        | Increment => (Js.add current step, cursor)
        | Decrement => (Js.sub current step, cursor)
        | Randomize =>
            let range := Js.div (Js.sub max min) step in
            let '(roll, cursor) :=
              if Js.gt range (Fin 0)
              then (Js.floor (Js.mul (Fin (random cursor)) range), S cursor)
              else (Fin 0, cursor) in
            (Js.add (Js.mul roll step) min, cursor)
        | Fixed => (current, cursor)
        end in
      let next := if Js.lt next min then min else next in
      let next := if Js.gt next max then max else next in
      (Some (if isInteger then Js.trunc next else next), cursor)
  end.

(** [options.indexOf(current)], [-1] when absent. *)
Definition indexOf (options : list string) (current : string) : Z :=
  match findIndex (fun o => bool_decide (o = current)) options with
  | Some i => Z.of_nat i
  | None => (-1)%Z
  end.

Definition applySelectControl (random : nat -> Q) (cursor : nat)
    (controlValue : WidgetControlValue) (widgetSpec : WidgetSpec)
    (rawValue : option WidgetValue) : option string * nat :=
  match controlValue with
  | Fixed => (None, cursor)
  | _ =>
      let options := default [] (widget_options widgetSpec) in
      match options with
      | [] => (None, cursor)
      | first :: _ =>
          let fallback :=
            match defaultValue widgetSpec with
            | Some (VString s) => s
            | _ => first
            end in
          let current :=
            match rawValue with
            | Some (VString s) => s
            | _ => fallback
            end in
          let index := indexOf options current in
          let index := if (index <? 0)%Z then 0%Z else index in
          let '(index, cursor) :=
            match controlValue with
            | Increment => ((index + 1)%Z, cursor)
            | Decrement => ((index - 1)%Z, cursor)
            | Randomize =>
                (Qfloor (random cursor * inject_Z (Z.of_nat (length options))),
                 S cursor)
            | Fixed => (index, cursor)
            end in
          let index :=
            Z.max 0 (Z.min (Z.of_nat (length options) - 1) index) in
          (options !! Z.to_nat index, cursor)
      end
  end.

(** [Object.is(nextValue, rawValue)] *)
Definition object_is (nextValue : WidgetValue) (rawValue : option WidgetValue)
  : bool :=
  match nextValue, rawValue with
  | VNumber a, Some (VNumber b) => Js.same_value a b
  | VString a, Some (VString b) => bool_decide (a = b)
  | VBool a, Some (VBool b) => bool_decide (a = b)
  | VNull, Some VNull => true
  | _, _ => false
  end.

End Engine.

(** *** The object store

    [applyControlAfterGenerate] is specified up to the identity of the node
    objects and of the node array, so both live in a store of references.
    The records nested in a node ([data], [widgetValues]) are plain values:
    the engine reads them and builds copies, it never writes through them. *)

Record Heap : Type := mkHeap {
  heap_nodes : gmap nat GraphNode;
  heap_arrays : gmap nat (list nat);
  heap_next : nat
}.

(** A new object literal. *)
Definition alloc_node (h : Heap) (node : GraphNode) : nat * Heap :=
  (heap_next h,
   mkHeap (<[heap_next h := node]> (heap_nodes h)) (heap_arrays h)
     (S (heap_next h))).

(** A new array ([slice()] of an existing one). *)
Definition alloc_array (h : Heap) (elems : list nat) : nat * Heap :=
  (heap_next h,
   mkHeap (heap_nodes h) (<[heap_next h := elems]> (heap_arrays h))
     (S (heap_next h))).

(** [array[index] = value] for an index within the array, which is the only
    case the engine produces: the index comes from [forEach] over the array
    the copy was sliced from. *)
Definition array_write (h : Heap) (array index value : nat) : Heap :=
  mkHeap (heap_nodes h)
    (alter (fun elems => <[index := value]> elems) array (heap_arrays h))
    (heap_next h).

(** The locals of one [forEach] turn while it walks [schema.inputs], with
    the caller's [executedControls] set and the random cursor. *)
Record SlotLoop : Type := mkSlotLoop {
  nextWidgetValues : option (gmap string WidgetValue);
  sl_executed : option (gset string);
  sl_cursor : nat
}.

(** The state carried through [nodes.forEach]. *)
Record EngineState : Type := mkEngineState {
  es_heap : Heap;
  nextNodes : option nat;
  es_executed : option (gset string);
  es_cursor : nat
}.

Record ApplyResult : Type := mkApplyResult {
  res_nodes : nat;
  didMutate : bool;
  res_heap : Heap;
  res_executed : option (gset string);
  res_cursor : nat
}.

Definition controlKey (node : GraphNode) (slot : InputSlot) : string :=
  node_id node ++ ":" ++ slot_name slot.

Section Apply.
Context `{Host}.
Variable random : nat -> Q.
Variable nodeSchemas : gmap string NodeSchema.
Variable mode : ControlAfterGenerateMode.

(** The part of the loop body after the idempotency gate. *)
Definition mutate_slot (node : GraphNode)
    (values : gmap string WidgetValue) (controlValues : gmap string string)
    (st : SlotLoop) (slot : InputSlot) : SlotLoop :=
  match getWidgetSpec slot with
  | None => st
  | Some widgetSpec =>
      if negb (isSupportedControlWidget widgetSpec) then st
      else
        let controlValue :=
          normalizeControlValue (controlValues !! slot_name slot) in
        let rawValue := values !! slot_name slot in
        let '(nextValue, cursor) :=
          match widget_kind widgetSpec with
          | KNumber =>
              let '(v, c) :=
                applyNumberControl random (sl_cursor st) controlValue slot
                  widgetSpec rawValue in
              (VNumber <$> v, c)
          | KSelect =>
              let '(v, c) :=
                applySelectControl random (sl_cursor st) controlValue
                  widgetSpec rawValue in
              (VString <$> v, c)
          | _ => (None, sl_cursor st)
          end in
        match nextValue with
        | Some value =>
            if negb (object_is value rawValue)
            then mkSlotLoop
                   (Some (<[slot_name slot := value]>
                            (default values (nextWidgetValues st))))
                   (sl_executed st) cursor
            else mkSlotLoop (nextWidgetValues st) (sl_executed st) cursor
        | None => mkSlotLoop (nextWidgetValues st) (sl_executed st) cursor
        end
  end.

(** One turn of [for (const slot of schema.inputs)]. *)
Definition control_slot (node : GraphNode)
    (values : gmap string WidgetValue) (controlValues : gmap string string)
    (st : SlotLoop) (slot : InputSlot) : SlotLoop :=
  if negb (isControlAfterGenerateEnabled slot) then st
  else
    match mode, sl_executed st with
    | Before, Some executed =>
        if decide (controlKey node slot ∈ executed)
        then mutate_slot node values controlValues st slot
        else mkSlotLoop (nextWidgetValues st)
               (Some ({[controlKey node slot]} ∪ executed)) (sl_cursor st)
    | _, _ => mutate_slot node values controlValues st slot
    end.

(** [{ ...node, data: { ...node.data, widgetValues } }] *)
Definition with_widget_values (node : GraphNode)
    (values : gmap string WidgetValue) : GraphNode :=
  mkGraphNode (node_id node)
    (Some (mkNodeData (node_data node ≫= nodeType) (Some values)
             (node_data node ≫= widgetControlValues))).

(** One turn of [nodes.forEach((node, index) => ...)]; [nodes] is the
    reference of the array being walked. *)
Definition control_node (nodes : nat) (st : EngineState)
    (index : nat) (ref : nat) : EngineState :=
  match heap_nodes (es_heap st) !! ref with
  | None => st
  | Some node =>
      match node_type_of node with
      | None => st
      | Some type =>
          match nodeSchemas !! type with
          | None => st
          | Some schema =>
              let values := widget_values_of node in
              let controlValues :=
                default ∅ (node_data node ≫= widgetControlValues) in
              let loop :=
                foldl (control_slot node values controlValues)
                  (mkSlotLoop None (es_executed st) (es_cursor st))
                  (schema_inputs schema) in
              match nextWidgetValues loop with
              | None =>
                  mkEngineState (es_heap st) (nextNodes st)
                    (sl_executed loop) (sl_cursor loop)
              | Some values' =>
                  let '(nextNode, h) :=
                    alloc_node (es_heap st) (with_widget_values node values') in
                  let '(array, h) :=
                    match nextNodes st with
                    | Some array => (array, h)
                    | None =>
                        alloc_array h (default [] (heap_arrays h !! nodes))
                    end in
                  mkEngineState (array_write h array index nextNode)
                    (Some array) (sl_executed loop) (sl_cursor loop)
              end
          end
      end
  end.

Fixpoint forEach (f : EngineState -> nat -> nat -> EngineState)
    (st : EngineState) (index : nat) (elems : list nat) : EngineState :=
  match elems with
  | [] => st
  | ref :: rest => forEach f (f st index ref) (S index) rest
  end.

Definition applyControlAfterGenerate (heap : Heap) (cursor : nat)
    (nodes : nat) (executedControls : option (gset string)) : ApplyResult :=
  let st :=
    forEach (control_node nodes)
      (mkEngineState heap None executedControls cursor) O
      (default [] (heap_arrays heap !! nodes)) in
  mkApplyResult (default nodes (nextNodes st))
    (bool_decide (is_Some (nextNodes st)))
    (es_heap st) (es_executed st) (es_cursor st).

End Apply.

(** ** Views of the compiler passes used to state their properties *)

Section PassViews.
Context `{Host}.
Variable nodeSchemas : gmap string NodeSchema.

(** The connection an edge contributes, with the node and slot it lands
    on: both ends present, both handles decoded, both nodes known, the
    source typed with a known schema that has the named output, and the
    target compiled. *)
Definition edge_connection (nodeById : gmap string GraphNode)
    (compiled : gmap string PromptNode) (edge : GraphEdge)
  : option (string * string * PromptConnection) :=
  source ← truthy_string (edge_source edge);
  target ← truthy_string (edge_target edge);
  sourceSlotName ← parseHandleSlotName (sourceHandle edge) "out-";
  targetSlotName ← parseHandleSlotName (targetHandle edge) "in-";
  sourceNode ← nodeById !! source;
  targetNode ← nodeById !! target;
  sourceType ← node_type_of sourceNode;
  sourceSchema ← nodeSchemas !! sourceType;
  outputIndex ← findIndex
                  (fun slot => bool_decide (out_name slot = sourceSlotName))
                  (schema_outputs sourceSchema);
  _ ← compiled !! node_id targetNode;
  Some (node_id targetNode, targetSlotName, (node_id sourceNode, outputIndex)).

(** The warning an edge asks for, with its deduplication key. *)
Definition edge_warning (nodeById : gmap string GraphNode) (edge : GraphEdge)
  : option (Warning * option string) :=
  source ← truthy_string (edge_source edge);
  target ← truthy_string (edge_target edge);
  sourceSlotName ← parseHandleSlotName (sourceHandle edge) "out-";
  _ ← parseHandleSlotName (targetHandle edge) "in-";
  sourceNode ← nodeById !! source;
  _ ← nodeById !! target;
  sourceType ← node_type_of sourceNode;
  match nodeSchemas !! sourceType with
  | None =>
      Some (MissingSchema sourceType (node_id sourceNode),
            Some ("missing-schema-" ++ node_id sourceNode)%string)
  | Some sourceSchema =>
      match findIndex
              (fun slot => bool_decide (out_name slot = sourceSlotName))
              (schema_outputs sourceSchema) with
      | None =>
          Some (UnknownOutput sourceSlotName sourceType (node_id sourceNode),
                None)
      | Some _ => None
      end
  end.

(** The warning a node asks for in the first pass. *)
Definition node_warning (node : GraphNode) : option (Warning * option string) :=
  match node_type_of node with
  | None =>
      Some (MissingType (node_id node), Some ("missing-type-" ++ node_id node)%string)
  | Some type =>
      match nodeSchemas !! type with
      | Some _ => None
      | None =>
          Some (MissingSchema type (node_id node),
                Some ("missing-schema-" ++ node_id node)%string)
      end
  end.

(** [pushWarning] on the two locals it touches. *)
Definition emit (d : list Warning * gset string)
    (request : Warning * option string) : list Warning * gset string :=
  match truthy_string (snd request) with
  | Some key =>
      if decide (key ∈ snd d) then d
      else (fst d ++ [fst request], {[key]} ∪ snd d)
  | None => (fst d ++ [fst request], snd d)
  end.

Definition diagnostics (st : BuildState) : list Warning * gset string :=
  (st_warnings st, schemaWarningKeys st).

(** The value stored for slot [s] of compiled node [t]. *)
Definition slot_value (compiled : gmap string PromptNode) (t s : string)
  : option PromptInputValue :=
  compiled !! t ≫= (fun promptNode => inputs promptNode !! s).

Definition merge_at (s : string) (c : PromptConnection) (p : PromptNode)
  : PromptNode :=
  mkPromptNode (class_type p)
    (<[s := mergePromptConnection (inputs p !! s) c]> (inputs p)).

End PassViews.

Section WiringViews.
Variable nodeSchemas : gmap string NodeSchema.
Variable nodeById : gmap string GraphNode.
Variable compiled : gmap string PromptNode.

(** The connection that [edge] adds to slot [s] of node [t], if any. *)
Definition lands_on (t s : string) (edge : GraphEdge)
  : option PromptConnection :=
  match edge_connection nodeSchemas nodeById compiled edge with
  | Some (t', s', c) => if decide (t' = t /\ s' = s) then Some c else None
  | None => None
  end.

(** The connections that the edges add to slot [s] of node [t], in the
    order of the edge list. *)
Definition landed (t s : string) (edges : list GraphEdge)
  : list PromptConnection :=
  omap (lands_on t s) edges.

End WiringViews.

(** What a slot holds once the connections [cs] have arrived, in order, on
    top of [initial]. *)
Definition pack (initial : option PromptInputValue)
    (cs : list PromptConnection) : option PromptInputValue :=
  match cs with
  | [] => initial
  | [c] => Some (Connection c)
  | _ => Some (ConnectionList cs)
  end.

(** Every value stored in the compiled nodes is a widget literal. *)
Definition all_literal (compiled : gmap string PromptNode) : Prop :=
  forall t p s v,
    compiled !! t = Some p -> inputs p !! s = Some v -> exists l, v = Literal l.

Section ValidationViews.
Variable nodeSchemas : gmap string NodeSchema.
Variable compiled : gmap string PromptNode.

(** The error owed by one slot of a node: the slot is required and its
    name is not a key of the node's compiled inputs. *)
Definition slot_error (node : GraphNode) (schema : NodeSchema)
    (promptNode : PromptNode) (slot : InputSlot) : list BuildError :=
  match slot_group slot with
  | Required =>
      if decide (is_Some (inputs promptNode !! slot_name slot)) then []
      else [MissingRequiredInput (slot_name slot) (displayName schema)
              (node_id node)]
  | _ => []
  end.

(** The errors owed by one node: none unless its type has a schema. *)
Definition missing_required (node : GraphNode) : list BuildError :=
  match node_type_of node with
  | None => []
  | Some type =>
      match nodeSchemas !! type, compiled !! node_id node with
      | Some schema, Some promptNode =>
          schema_inputs schema ≫= slot_error node schema promptNode
      | _, _ => []
      end
  end.

End ValidationViews.







(** The spec's example: [A] has one output [IMAGE], [B] one required input
    [image] of type [IMAGE]. *)
Definition sample_schemas : gmap string NodeSchema :=
  {[ "A" := mkNodeSchema "A" [] [mkOutputSlot "IMAGE" "IMAGE"];
     "B" := mkNodeSchema "B"
              [mkInputSlot "image" Required (Some "IMAGE") false false [] None]
              [] ]}.

Definition sample_node (id type : string) : GraphNode :=
  mkGraphNode id (Some (mkNodeData (Some type) None None)).

Definition sample_edge (source output target input : string) : GraphEdge :=
  mkGraphEdge (Some source) (Some target)
    (Some ("out-" ++ output)%string) (Some ("in-" ++ input)%string).

(** Views of [applyNumberControl]'s locals. *)

(** [typeof widgetSpec.defaultValue === "number" ? widgetSpec.defaultValue : 0] *)
Definition default_number (widgetSpec : WidgetSpec) : number :=
  match defaultValue widgetSpec with
  | Some (VNumber n) => n
  | _ => Fin 0
  end.

(** [x] brought into [lo, hi]. *)
Definition clamp (lo hi x : Q) : Q :=
  if Js.Qltb x lo then lo else if Js.Qltb hi x then hi else x.

(** [isInteger ? Math.trunc(x) : x] *)
Definition truncate_if (isInteger : bool) (x : Q) : Q :=
  if isInteger then inject_Z (Js.Qtrunc x) else x.



(** A slot configuration with numeric bounds and step. *)
Definition numeric_config (min max step : option Q) : option SlotConfig :=
  Some (mkSlotConfig ((fun q => VNumber (Fin q)) <$> min)
          ((fun q => VNumber (Fin q)) <$> max)
          ((fun q => VNumber (Fin q)) <$> step) None).

(** Views of the connection validator. *)

(** A handle carries the marker followed by a slot name that is not empty. *)
Definition decodes (handle : option string) (marker name : string) : Prop :=
  handle = Some (marker ++ name)%string /\ name ≠ "".

(** An existing edge from [a] to [b], both ends present. *)
Definition link (edges : list GraphEdge) (a b : string) : Prop :=
  exists edge,
    edge ∈ edges
    /\ truthy_string (edge_source edge) = Some a
    /\ truthy_string (edge_target edge) = Some b.

(** A directed path over the existing edges. *)
Definition path (edges : list GraphEdge) : string -> string -> Prop :=
  rtc (link edges).

(** The targets of the edges that leave [x], in edge order. *)
Definition neighbors_of (edges : list GraphEdge) (x : string) : list string :=
  omap (fun edge =>
          match truthy_string (edge_source edge),
                truthy_string (edge_target edge) with
          | Some source, Some target =>
              if decide (source = x) then Some target else None
          | _, _ => None
          end) edges.

(** The number of edges whose source has not been visited. *)
Definition pending (edges : list GraphEdge) (visited : gset string) : nat :=
  length (omap (fun edge =>
                  match truthy_string (edge_source edge),
                        truthy_string (edge_target edge) with
                  | Some source, Some _ =>
                      if decide (source ∈ visited) then None else Some edge
                  | _, _ => None
                  end) edges).

(** What the specification asks of a candidate edge. *)
Definition connectable (nodes : list GraphNode)
    (nodeSchemas : gmap string NodeSchema) (connection : GraphEdge)
    (edges : list GraphEdge) : Prop :=
  exists source target sourceSlotName targetSlotName sourceNode targetNode
         sourceType targetType sourceSchema targetSchema sourceSlot targetSlot
         declared,
    truthy_string (edge_source connection) = Some source
    /\ truthy_string (edge_target connection) = Some target
    /\ decodes (sourceHandle connection) "out-" sourceSlotName
    /\ decodes (targetHandle connection) "in-" targetSlotName
    /\ List.find (fun node => bool_decide (node_id node = source)) nodes
       = Some sourceNode
    /\ List.find (fun node => bool_decide (node_id node = target)) nodes
       = Some targetNode
    /\ node_data sourceNode ≫= nodeType = Some sourceType
    /\ node_data targetNode ≫= nodeType = Some targetType
    /\ nodeSchemas !! sourceType = Some sourceSchema
    /\ nodeSchemas !! targetType = Some targetSchema
    /\ List.find (fun slot => bool_decide (out_name slot = sourceSlotName))
         (schema_outputs sourceSchema) = Some sourceSlot
    /\ List.find (fun slot => bool_decide (slot_name slot = targetSlotName))
         (schema_inputs targetSchema) = Some targetSlot
    /\ truthy_string (valueType targetSlot) = Some declared
    /\ out_type sourceSlot = declared
    /\ source ≠ target
    /\ ~ path edges target source.

(** Views of the control-field engine. *)

(** Every reference in use lies below the allocation pointer. *)
Definition heap_wf (h : Heap) : Prop :=
  map_Forall (fun r _ => (r < heap_next h)%nat) (heap_nodes h)
  /\ map_Forall (fun r _ => (r < heap_next h)%nat) (heap_arrays h).



(** The caller's set only grows. *)
Definition grows (before after : option (gset string)) : Prop :=
  match before, after with
  | Some a, Some b => a ⊆ b
  | None, None => True
  | _, _ => False
  end.

(** The copy [m] of the widget values holds, under some name, a value that
    is not the stored one. *)
Definition differs `{Host} (values m : gmap string WidgetValue) : Prop :=
  exists name value,
    m !! name = Some value /\ object_is value (values !! name) = false.

(** The reference found in the output array at a position where the input
    array holds [ref]: [ref] itself, or a node allocated by the call that
    copies the node at [ref] with other widget values. *)
Definition replaced_in (h h' : Heap) (ref ref' : nat) : Prop :=
  ref' = ref
  \/ ((heap_next h <= ref' < heap_next h')%nat
      /\ exists node values',
           heap_nodes h !! ref = Some node
           /\ heap_nodes h' !! ref' = Some (with_widget_values node values')
           /\ values' ≠ widget_values_of node).

(** The state of [nodes.forEach] before the turn of index [k], relative to
    the store [h] and the array contents [elems] the call started from. *)
Definition copy_inv (h : Heap) (elems : list nat) (k : nat) (st : EngineState)
  : Prop :=
  (heap_next h <= heap_next (es_heap st))%nat
  /\ (forall r, (r < heap_next h)%nat ->
        heap_nodes (es_heap st) !! r = heap_nodes h !! r
        /\ heap_arrays (es_heap st) !! r = heap_arrays h !! r)
  /\ match nextNodes st with
     | None => es_heap st = h
     | Some array =>
         (heap_next h <= array < heap_next (es_heap st))%nat
         /\ exists cur,
              heap_arrays (es_heap st) !! array = Some cur
              /\ length cur = length elems
              /\ (forall i, (k <= i)%nat -> cur !! i = elems !! i)
              /\ (forall i ref ref',
                    elems !! i = Some ref -> cur !! i = Some ref' ->
                    replaced_in h (es_heap st) ref ref')
              /\ (exists i ref ref',
                    elems !! i = Some ref /\ cur !! i = Some ref' /\ ref' ≠ ref)
     end.

(** ** [buildControlDefaults] ([lib/comfy/control-after-generate.ts]) *)

Section ControlDefaults.
Context `{Host}.

(** One turn of [for (const input of schema.inputs)]. *)
Definition default_control (values : gmap string WidgetControlValue)
    (input : InputSlot) : gmap string WidgetControlValue :=
  if negb (isControlAfterGenerateEnabled input) then values
  else
    match getWidgetSpec input with
    | None => values
    | Some spec =>
        if negb (isSupportedControlWidget spec) then values
        else <[slot_name input := DEFAULT_CONTROL_VALUE]> values
    end.

Definition buildControlDefaults (schema : option NodeSchema)
  : gmap string WidgetControlValue :=
  match schema with
  | None => ∅
  | Some schema => foldl default_control ∅ (schema_inputs schema)
  end.

End ControlDefaults.

(** ** Further views, for the further properties of the code *)


(** What the first pass stores for a node: nothing without a type, the
    resolved fields with a schema, the stored values without one. *)
Definition compiled_entry `{Host} (nodeSchemas : gmap string NodeSchema)
    (node : GraphNode) : option PromptNode :=
  match node_type_of node with
  | None => None
  | Some type =>
      Some (mkPromptNode type
              match nodeSchemas !! type with
              | Some schema =>
                  foldl (resolve_slot (widget_values_of node)) ∅
                    (schema_inputs schema)
              | None => passthrough_inputs (widget_values_of node)
              end)
  end.

(** An edge the second pass gets past its first three tests with: both
    ends present, both handles decoded, both ends among the nodes. *)
Definition usable (nodes : list GraphNode) (edge : GraphEdge) : bool :=
  match truthy_string (edge_source edge), truthy_string (edge_target edge),
        parseHandleSlotName (sourceHandle edge) "out-",
        parseHandleSlotName (targetHandle edge) "in-" with
  | Some source, Some target, Some _, Some _ =>
      bool_decide (source ∈ node_id <$> nodes)
      && bool_decide (target ∈ node_id <$> nodes)
  | _, _, _, _ => false
  end.

(** The edge ends at slot [s] of node [t]. *)
Definition targets (t s : string) (edge : GraphEdge) : bool :=
  bool_decide (truthy_string (edge_target edge) = Some t)
  && bool_decide (parseHandleSlotName (targetHandle edge) "in-" = Some s).

(** No directed cycle over the edges. *)
Definition acyclic (edges : list GraphEdge) : Prop :=
  forall x, ~ tc (link edges) x x.

(** The control a slot of a node is under, as the engine reads it. *)
Definition control_of (node : GraphNode) (slot : InputSlot)
  : WidgetControlValue :=
  normalizeControlValue
    (default ∅ (node_data node ≫= widgetControlValues) !! slot_name slot).

(** The slots the engine acts on: control enabled, with a number or a
    select widget. *)
Definition controlled `{Host} (slot : InputSlot) : bool :=
  isControlAfterGenerateEnabled slot
  && match getWidgetSpec slot with
     | Some spec => isSupportedControlWidget spec
     | None => false
     end.

Definition is_fixed (c : WidgetControlValue) : bool :=
  match c with Fixed => true | _ => false end.

(** Every field of the node that the engine would act on is under
    [fixed]. *)
Definition pinned `{Host} (nodeSchemas : gmap string NodeSchema)
    (node : GraphNode) : bool :=
  match node_type_of node with
  | None => true
  | Some type =>
      match nodeSchemas !! type with
      | None => true
      | Some schema =>
          forallb
            (fun slot => negb (controlled slot) || is_fixed (control_of node slot))
            (schema_inputs schema)
      end
  end.

(** [nodeById.get(id)] once the first pass is over: the last node listed
    under that id. *)
Definition last_with_id (nodes : list GraphNode) (id : string)
  : option GraphNode :=
  List.find (fun node => bool_decide (node_id node = id)) (rev nodes).

(** The node [prompt[id]] was written for: the last one listed under that
    id that has a type. *)
Definition last_typed_with_id (nodes : list GraphNode) (id : string)
  : option GraphNode :=
  List.find
    (fun node =>
       bool_decide (node_id node = id)
       && bool_decide (is_Some (node_type_of node)))
    (rev nodes).


(** The names under which the engine may write for a node: those of the
    slots of its schema that the engine acts on and whose control is not
    [fixed]. *)
Definition writable `{Host} (nodeSchemas : gmap string NodeSchema)
    (node : GraphNode) (name : string) : Prop :=
  exists type schema slot,
    node_type_of node = Some type
    /\ nodeSchemas !! type = Some schema
    /\ slot ∈ schema_inputs schema
    /\ slot_name slot = name
    /\ controlled slot = true
    /\ is_fixed (control_of node slot) = false.

(** The widget values [values'] differ from the node's only under names
    the engine may write. *)
Definition changes_only `{Host} (nodeSchemas : gmap string NodeSchema)
    (node : GraphNode) (values' : gmap string WidgetValue) : Prop :=
  forall name,
    values' !! name ≠ widget_values_of node !! name ->
    writable nodeSchemas node name.

(** The array copy of [nodes.forEach], if there is one, holds at every
    position the input's node or a copy of it that differs only under
    names the engine may write. *)
Definition touch_inv `{Host} (nodeSchemas : gmap string NodeSchema)
    (h : Heap) (elems : list nat) (st : EngineState) : Prop :=
  match nextNodes st with
  | None => True
  | Some array =>
      forall cur i ref ref',
        heap_arrays (es_heap st) !! array = Some cur ->
        elems !! i = Some ref -> cur !! i = Some ref' ->
        ref' = ref
        \/ exists node values',
             heap_nodes h !! ref = Some node
             /\ heap_nodes (es_heap st) !! ref'
                = Some (with_widget_values node values')
             /\ changes_only nodeSchemas node values'
  end.

(** The connections a stored input value holds. *)
Definition connections_of (v : PromptInputValue) : list PromptConnection :=
  match v with
  | Literal _ => []
  | Connection c => [c]
  | ConnectionList cs => cs
  end.

(** The text contains a colon, the separator of [controlKey]. *)
Fixpoint has_colon (s : string) : bool :=
  match s with
  | EmptyString => false
  | String c t => Ascii.eqb c ":" || has_colon t
  end.

(** ** A concrete host and sample data, for the worked examples *)

(** [Number(s)] restricted to optionally signed decimal integers. *)
Definition decimal_Number (s : string) : number :=
  if decide (Js.trim s = "") then Fin 0
  else
    match DecimalString.NilZero.int_of_string (Js.trim s) with
    | Some i => Js.of_Z (Z.of_int i)
    | None => NaN
    end.

(** [String(n)] on integers; other numbers are not needed by the examples. *)
Definition decimal_String (n : number) : string :=
  match n with
  | Fin q =>
      if decide (Qden q = 1%positive)
      then DecimalString.NilZero.string_of_int (Z.to_int (Qnum q))
      else "?"
  | NaN => "NaN"
  | PInf => "Infinity"
  | NInf => "-Infinity"
  end.

(** A widget spec read off the slot: a select for enumerated slots, a
    number widget for INT and FLOAT, with the given default. *)
Definition sample_getWidgetSpec (dflt : option WidgetValue) (slot : InputSlot)
  : option WidgetSpec :=
  match slot_options slot with
  | _ :: _ => Some (mkWidgetSpec KSelect dflt (Some (slot_options slot)))
  | [] =>
      match valueType slot with
      | Some "INT" | Some "FLOAT" => Some (mkWidgetSpec KNumber dflt None)
      | Some "STRING" => Some (mkWidgetSpec KString dflt None)
      | Some "BOOLEAN" => Some (mkWidgetSpec KBoolean dflt None)
      | _ => None
      end
  end.

Definition sample_host (dflt : option WidgetValue) : Host :=
  mkHost (sample_getWidgetSpec dflt) decimal_Number decimal_String.

Definition widget_slot (name type : string) (options : list string)
    (config : option SlotConfig) : InputSlot :=
  mkInputSlot name Required (Some type) true false options config.

(** A sampler node type with one control field, two nodes of that type in a
    store, and the array [[0; 1]] that lists them. *)
Definition seed_slot : InputSlot :=
  widget_slot "seed" "INT" [] (numeric_config (Some 0%Q) (Some 10%Q) (Some 1%Q)).

Definition sampler_schemas : gmap string NodeSchema :=
  {[ "KSampler" := mkNodeSchema "KSampler" [seed_slot] [] ]}.

Definition sampler_node (id : string) (seed : Q) (control : string) : GraphNode :=
  mkGraphNode id
    (Some (mkNodeData (Some "KSampler")
             (Some {[ "seed" := VNumber (Fin seed) ]})
             (Some {[ "seed" := control ]}))).

Definition sample_heap : Heap :=
  mkHeap {[ 0%nat := sampler_node "n0" 5 "increment";
            1%nat := sampler_node "n1" 7 "fixed" ]}
    {[ 2%nat := [0%nat; 1%nat] ]} 3.

(** * Properties *)

(** ** Numbers *)

Lemma Qtrunc_nonneg q : (0 <= q)%Q -> Js.Qtrunc q = Qfloor q.
Proof.
  destruct q as [n d]. unfold Qle, Js.Qtrunc, Qfloor. simpl. intros Hn.
  apply Z.quot_div_nonneg; lia.
Qed.

Lemma Qtrunc_nonpos q : (q <= 0)%Q -> Js.Qtrunc q = Qceiling q.
Proof.
  destruct q as [n d]. unfold Qle, Js.Qtrunc, Qceiling, Qfloor. simpl.
  intros Hn. rewrite <- (Z.opp_involutive n) at 1.
  rewrite Z.quot_opp_l by lia. f_equal. apply Z.quot_div_nonneg; lia.
Qed.




(** ** Widget value resolver *)

Section ResolverFacts.
Context `{Host}.


End ResolverFacts.

Section ResolverClaims.
Context `{Host}.



End ResolverClaims.



(** ** Request compiler: field resolution *)

Section FieldResolution.
Context `{Host}.

Lemma resolve_slot_null values ins slot :
  values !! slot_name slot = Some VNull -> resolve_slot values ins slot = ins.
Proof.
  intros Hnull. unfold resolve_slot. rewrite Hnull.
  destruct (slot_group slot), (negb (supportsWidget slot) || forceInput slot);
    done.
Qed.

(** A slot either leaves the inputs alone or writes a literal under its
    own name. *)
Lemma resolve_slot_cases values ins slot :
  resolve_slot values ins slot = ins
  \/ exists v, resolve_slot values ins slot = <[slot_name slot := Literal v]> ins.
Proof.
  unfold resolve_slot.
  destruct (slot_group slot), (negb (supportsWidget slot) || forceInput slot);
    try (by left);
    destruct (resolveWidgetValue _ _ _); eauto.
Qed.

Lemma resolve_slots_null values slots ins name :
  values !! name = Some VNull -> ins !! name = None ->
  foldl (resolve_slot values) ins slots !! name = None.
Proof.
  intros Hnull. revert ins. induction slots as [|slot slots IH]; intros ins Hins.
  - done.
  - simpl. apply IH.
    destruct (decide (slot_name slot = name)) as [<-|Hne].
    + by rewrite resolve_slot_null.
    + destruct (resolve_slot_cases values ins slot) as [->|[v ->]]; [done|].
      by rewrite lookup_insert_ne.
Qed.

End FieldResolution.

(** C10: a stored [null] leaves the slot unresolved and out of the compiled
    inputs, whatever default the widget spec declares; the default is read
    only when nothing is stored under the slot's name. *)
Theorem null_value_skips_default (H1 H2 : Host)
    (nodeSchemas : gmap string NodeSchema) :
  (forall slot values ins,
      values !! slot_name slot = Some VNull ->
      resolve_slot (H := H1) values ins slot = ins)
  /\ (forall node type schema st name,
        node_type_of node = Some type ->
        nodeSchemas !! type = Some schema ->
        widget_values_of node !! name = Some VNull ->
        exists promptNode,
          st_prompt (compile_node (H := H1) nodeSchemas st node) !! node_id node
          = Some promptNode
          /\ class_type promptNode = type
          /\ inputs promptNode !! name = None)
  /\ (forall slot values ins,
        @Number_of_string H1 = @Number_of_string H2 ->
        @String_of_number H1 = @String_of_number H2 ->
        is_Some (values !! slot_name slot) ->
        resolve_slot (H := H1) values ins slot
        = resolve_slot (H := H2) values ins slot)
  /\ (forall slot values ins,
        values !! slot_name slot = None ->
        slot_group slot ≠ Hidden -> supportsWidget slot = true ->
        forceInput slot = false ->
        resolve_slot (H := H1) values ins slot
        = match resolveWidgetValue (H := H1) slot None
                  (@getWidgetSpec H1 slot ≫= defaultValue) with
          | Some resolved => <[slot_name slot := Literal resolved]> ins
          | None => ins
          end).
Proof.
  split; [|split; [|split]].
  - intros. by apply resolve_slot_null.
  - intros node type schema st name Hty Hsch Hnull.
    unfold compile_node. rewrite Hty, Hsch. simpl.
    eexists. split; [apply lookup_insert_eq|]. split; [done|]. simpl.
    by apply resolve_slots_null.
  - intros slot values ins HN HS [v Hv]. unfold resolve_slot. rewrite Hv.
    unfold resolveWidgetValue, resolveNumberValue, to_string.
    by rewrite HN, HS.
  - intros slot values ins Hnone Hg Hw Hf. unfold resolve_slot.
    rewrite Hnone, Hw, Hf. by destruct (slot_group slot).
Qed.

(** C10, witness: a node storing [null] under an INT slot whose widget
    declares the default 20. *)
Lemma null_value_skips_default_witness :
  let host := sample_host (Some (VNumber (Fin 20))) in
  let slot := widget_slot "steps" "INT" [] None in
  let schemas : gmap string NodeSchema :=
    {[ "KSampler" := mkNodeSchema "KSampler" [slot] [] ]} in
  let node :=
    mkGraphNode "n1"
      (Some (mkNodeData (Some "KSampler") (Some {[ "steps" := VNull ]}) None)) in
  exists promptNode,
    st_prompt (compile_node (H := host) schemas initial_state node) !! "n1"
    = Some promptNode
    /\ class_type promptNode = "KSampler"
    /\ inputs promptNode !! "steps" = None.
Proof.
  intros host slot schemas node.
  destruct (null_value_skips_default host host schemas) as (_ & Hnode & _).
  apply (Hnode node "KSampler" (mkNodeSchema "KSampler" [slot] []) initial_state
           "steps"); reflexivity.
Defined.

(** ** Request compiler: what each pass does to the state *)

Section Passes.
Context `{Host}.
Variable nodeSchemas : gmap string NodeSchema.

Lemma diagnostics_pushWarning st w k :
  diagnostics (pushWarning st w k) = emit (diagnostics st) (w, k).
Proof.
  unfold pushWarning, emit, diagnostics. simpl.
  destruct (truthy_string k); [|done]. by case_decide.
Qed.

Lemma insert_as_alter {A} (f : A -> A) (m : gmap string A) i x :
  m !! i = Some x -> <[i := f x]> m = alter f i m.
Proof.
  intros Hx. apply map_eq. intros j. destruct (decide (i = j)) as [<-|Hne].
  - by rewrite lookup_insert_eq, lookup_alter_eq, Hx.
  - by rewrite lookup_insert_ne, lookup_alter_ne.
Qed.

Lemma pushWarning_frame st w k :
  st_prompt (pushWarning st w k) = st_prompt st
  /\ st_nodeById (pushWarning st w k) = st_nodeById st
  /\ st_errors (pushWarning st w k) = st_errors st.
Proof.
  unfold pushWarning. destruct (truthy_string k); [case_decide|]; done.
Qed.

Lemma wire_edge_prompt st edge :
  st_prompt (wire_edge nodeSchemas st edge)
  = match edge_connection nodeSchemas (st_nodeById st) (st_prompt st) edge with
    | Some (t, s, c) => alter (merge_at s c) t (st_prompt st)
    | None => st_prompt st
    end.
Proof.
  unfold wire_edge, edge_connection.
  repeat (case_match; simplify_option_eq; try done);
    try (by apply pushWarning_frame).
  simpl. by apply (insert_as_alter (merge_at _ _)).
Qed.

Lemma wire_edge_frame st edge :
  st_nodeById (wire_edge nodeSchemas st edge) = st_nodeById st
  /\ st_errors (wire_edge nodeSchemas st edge) = st_errors st.
Proof.
  unfold wire_edge.
  repeat (case_match; try done); by apply pushWarning_frame.
Qed.

Lemma wire_edge_diagnostics st edge :
  diagnostics (wire_edge nodeSchemas st edge)
  = match edge_warning nodeSchemas (st_nodeById st) edge with
    | Some request => emit (diagnostics st) request
    | None => diagnostics st
    end.
Proof.
  unfold wire_edge, edge_warning.
  repeat (case_match; simplify_option_eq; try done);
    by rewrite diagnostics_pushWarning.
Qed.

End Passes.

Section Wiring.
Context `{Host}.
Variable nodeSchemas : gmap string NodeSchema.

Lemma edge_connection_compiled nodeById compiled edge t s c :
  edge_connection nodeSchemas nodeById compiled edge = Some (t, s, c) ->
  is_Some (compiled !! t).
Proof.
  unfold edge_connection. intros Hc. simplify_option_eq. eauto.
Qed.

Lemma edge_connection_dom nodeById compiled compiled' edge :
  (forall i, is_Some (compiled' !! i) <-> is_Some (compiled !! i)) ->
  edge_connection nodeSchemas nodeById compiled' edge
  = edge_connection nodeSchemas nodeById compiled edge.
Proof.
  intros Hdom. unfold edge_connection.
  repeat match goal with
         | |- (?o ≫= _) = (?o ≫= _) => destruct o; simpl; [|done]
         end.
  match goal with
  | |- (_ !! ?i ≫= _) = _ =>
      destruct (Hdom i) as [H1 H2];
      destruct (compiled' !! i), (compiled !! i); try done
  end.
  - by destruct H1 as [? [=]].
  - by destruct H2 as [? [=]].
Qed.

Lemma wire_edge_dom st edge i :
  is_Some (st_prompt (wire_edge nodeSchemas st edge) !! i)
  <-> is_Some (st_prompt st !! i).
Proof.
  rewrite wire_edge_prompt.
  destruct (edge_connection _ _ _ _) as [[[t s] c]|]; [|done].
  rewrite lookup_alter. case_decide; [subst|done]. by rewrite fmap_is_Some.
Qed.

Lemma wire_edge_slot st edge t s :
  slot_value (st_prompt (wire_edge nodeSchemas st edge)) t s
  = match lands_on nodeSchemas (st_nodeById st) (st_prompt st) t s edge with
    | Some c =>
        Some (mergePromptConnection (slot_value (st_prompt st) t s) c)
    | None => slot_value (st_prompt st) t s
    end.
Proof.
  rewrite wire_edge_prompt. unfold lands_on.
  destruct (edge_connection _ _ _ _) as [[[t' s'] c]|] eqn:Hc; [|done].
  apply edge_connection_compiled in Hc as [p Hp].
  unfold slot_value. case_decide as Hts.
  - destruct Hts as [-> ->]. rewrite lookup_alter_eq, Hp. simpl.
    by rewrite lookup_insert_eq.
  - destruct (decide (t' = t)) as [->|Hne].
    + rewrite lookup_alter_eq, Hp. simpl.
      rewrite lookup_insert_ne; [done|]. intros ->. by apply Hts.
    + by rewrite lookup_alter_ne.
Qed.

Lemma wire_edges_frame edges st :
  st_nodeById (foldl (wire_edge nodeSchemas) st edges) = st_nodeById st
  /\ st_errors (foldl (wire_edge nodeSchemas) st edges) = st_errors st
  /\ (forall i, is_Some (st_prompt (foldl (wire_edge nodeSchemas) st edges) !! i)
                <-> is_Some (st_prompt st !! i)).
Proof.
  revert st. induction edges as [|edge edges IH]; intros st; [done|].
  simpl. destruct (IH (wire_edge nodeSchemas st edge)) as (Hn & He & Hd).
  destruct (wire_edge_frame nodeSchemas st edge) as [Hn' He'].
  split; [congruence|]. split; [congruence|].
  intros i. rewrite Hd. apply wire_edge_dom.
Qed.

Lemma landed_dom nodeById compiled compiled' t s edges :
  (forall i, is_Some (compiled' !! i) <-> is_Some (compiled !! i)) ->
  landed nodeSchemas nodeById compiled' t s edges
  = landed nodeSchemas nodeById compiled t s edges.
Proof.
  intros Hdom. unfold landed. apply list_omap_ext, Forall2_same_length_lookup.
  split; [done|]. intros i e e' He He'. simplify_eq. unfold lands_on.
  by rewrite (edge_connection_dom _ _ _ _ Hdom).
Qed.

Lemma wire_edges_slot edges st t s :
  slot_value (st_prompt (foldl (wire_edge nodeSchemas) st edges)) t s
  = foldl (fun v c => Some (mergePromptConnection v c))
      (slot_value (st_prompt st) t s)
      (landed nodeSchemas (st_nodeById st) (st_prompt st) t s edges).
Proof.
  revert st. induction edges as [|edge edges IH]; intros st; [done|].
  simpl. rewrite IH, wire_edge_slot.
  destruct (wire_edge_frame nodeSchemas st edge) as [-> _].
  rewrite (landed_dom _ _ _ _ _ _ (wire_edge_dom st edge)).
  by destruct (lands_on _ _ _ _ _ _).
Qed.

(** Merging connections one by one over an empty or literal slot. *)
Lemma merge_all initial cs :
  (forall v, initial = Some v -> exists l, v = Literal l) ->
  foldl (fun v c => Some (mergePromptConnection v c)) initial cs
  = pack initial cs.
Proof.
  intros Hinit. induction cs as [|c cs IH] using rev_ind; [done|].
  rewrite foldl_snoc, IH. destruct cs as [|c0 [|c1 cs]]; simpl.
  - destruct initial as [v|]; [|done].
    destruct (Hinit v eq_refl) as [l ->]. unfold mergePromptConnection.
    simpl. by destruct (truthy_value l).
  - done.
  - by destruct cs.
Qed.

End Wiring.

Section FirstAndThirdPass.
Context `{Host}.
Variable nodeSchemas : gmap string NodeSchema.

Lemma resolve_slots_literal values slots ins :
  (forall s v, ins !! s = Some v -> exists l, v = Literal l) ->
  forall s v, foldl (resolve_slot values) ins slots !! s = Some v ->
              exists l, v = Literal l.
Proof.
  revert ins. induction slots as [|slot slots IH]; intros ins Hins; [done|].
  simpl. apply IH.
  destruct (resolve_slot_cases values ins slot) as [->|[l ->]]; [done|].
  intros s v. rewrite lookup_insert. case_decide; [|by apply Hins].
  intros [= <-]. eauto.
Qed.

Lemma passthrough_literal values s v :
  passthrough_inputs values !! s = Some v -> exists l, v = Literal l.
Proof.
  unfold passthrough_inputs. rewrite lookup_omap.
  destruct (values !! s) as [[]|]; simpl; intros [= <-]; eauto.
Qed.

Lemma compile_node_literal st node :
  all_literal (st_prompt st) ->
  all_literal (st_prompt (compile_node nodeSchemas st node)).
Proof.
  intros Hst. unfold compile_node.
  destruct (node_type_of node) as [type|].
  - destruct (nodeSchemas !! type) as [schema|]; simpl;
      try (destruct (pushWarning_frame (set_nodeById st node)
                       (MissingSchema type (node_id node))
                       (Some ("missing-schema-" ++ node_id node)%string))
             as [-> _]; simpl);
      intros t p s v; rewrite lookup_insert; case_decide;
      try (by apply Hst); intros [= <-]; simpl.
    + apply resolve_slots_literal. intros ? ?. by rewrite lookup_empty.
    + apply passthrough_literal.
  - destruct (pushWarning_frame (set_nodeById st node)
                (MissingType (node_id node))
                (Some ("missing-type-" ++ node_id node)%string)) as [-> _].
    done.
Qed.

Lemma compile_nodes_literal nodes st :
  all_literal (st_prompt st) ->
  all_literal (st_prompt (foldl (compile_node nodeSchemas) st nodes)).
Proof.
  revert st. induction nodes as [|node nodes IH]; intros st Hst; [done|].
  simpl. by apply IH, compile_node_literal.
Qed.

Lemma check_slot_frame node schema promptNode st slot :
  st_prompt (check_slot node schema promptNode st slot) = st_prompt st
  /\ st_nodeById (check_slot node schema promptNode st slot) = st_nodeById st
  /\ diagnostics (check_slot node schema promptNode st slot) = diagnostics st.
Proof.
  unfold check_slot. destruct (slot_group slot); try done. by case_decide.
Qed.

Lemma check_slots_frame node schema promptNode slots st :
  st_prompt (foldl (check_slot node schema promptNode) st slots) = st_prompt st
  /\ st_nodeById (foldl (check_slot node schema promptNode) st slots)
     = st_nodeById st
  /\ diagnostics (foldl (check_slot node schema promptNode) st slots)
     = diagnostics st.
Proof.
  revert st. induction slots as [|slot slots IH]; intros st; [done|].
  simpl. destruct (IH (check_slot node schema promptNode st slot))
    as (-> & -> & ->).
  apply check_slot_frame.
Qed.

Lemma check_node_frame st node :
  st_prompt (check_node nodeSchemas st node) = st_prompt st
  /\ st_nodeById (check_node nodeSchemas st node) = st_nodeById st
  /\ diagnostics (check_node nodeSchemas st node) = diagnostics st.
Proof.
  unfold check_node. repeat (case_match; try done).
  apply check_slots_frame.
Qed.

Lemma check_nodes_frame nodes st :
  st_prompt (foldl (check_node nodeSchemas) st nodes) = st_prompt st
  /\ st_nodeById (foldl (check_node nodeSchemas) st nodes) = st_nodeById st
  /\ diagnostics (foldl (check_node nodeSchemas) st nodes) = diagnostics st.
Proof.
  revert st. induction nodes as [|node nodes IH]; intros st; [done|].
  simpl. destruct (IH (check_node nodeSchemas st node)) as (-> & -> & ->).
  apply check_node_frame.
Qed.

End FirstAndThirdPass.

(** C1: merging a connection into a slot sets it when the slot is empty,
    pairs it with a single connection already there, appends it to a list
    already there, and overwrites a literal; so the slot of a compiled node
    ends up holding the connections of the edges that land on it, in the
    order of the edge list: alone when there is one, as a list otherwise. *)
Theorem edge_wiring_keeps_arrival_order `{Host}
    (nodeSchemas : gmap string NodeSchema) :
  (forall c, mergePromptConnection None c = Connection c)
  /\ (forall c0 c,
        mergePromptConnection (Some (Connection c0)) c = ConnectionList [c0; c])
  /\ (forall c0 cs c,
        mergePromptConnection (Some (ConnectionList (c0 :: cs))) c
        = ConnectionList ((c0 :: cs) ++ [c]))
  /\ (forall v c, mergePromptConnection (Some (Literal v)) c = Connection c)
  /\ (forall nodes edges t s,
        let st1 := foldl (compile_node nodeSchemas) initial_state nodes in
        let cs :=
          landed nodeSchemas (st_nodeById st1) (st_prompt st1) t s edges in
        slot_value (prompt (buildPromptFromGraph nodeSchemas nodes edges)) t s
        = match cs with
          | [] => slot_value (st_prompt st1) t s
          | [c] => Some (Connection c)
          | _ => Some (ConnectionList cs)
          end).
Proof.
  repeat split.
  - intros v c. unfold mergePromptConnection. simpl. by destruct (truthy_value v).
  - intros nodes edges t s. cbv zeta. unfold buildPromptFromGraph.
    cbn [prompt].
    set (st1 := foldl (compile_node nodeSchemas) initial_state nodes).
    destruct (check_nodes_frame nodeSchemas nodes
                (foldl (wire_edge nodeSchemas) st1 edges)) as [-> _].
    rewrite wire_edges_slot, merge_all; [done|].
    intros v Hv. unfold slot_value in Hv.
    destruct (st_prompt st1 !! t) as [p|] eqn:Hp; [|done]. simpl in Hv.
    eapply (compile_nodes_literal nodeSchemas nodes initial_state); [|done..].
    intros ? ? ? ?. simpl. by rewrite lookup_empty.
Qed.

(** ** Request compiler: required inputs *)

Section RequiredInputs.
Context `{Host}.
Variable nodeSchemas : gmap string NodeSchema.

Lemma check_slots_errors node schema promptNode slots st :
  st_errors (foldl (check_slot node schema promptNode) st slots)
  = st_errors st ++ (slots ≫= slot_error node schema promptNode).
Proof.
  revert st. induction slots as [|slot slots IH]; intros st; simpl.
  - by rewrite app_nil_r.
  - rewrite IH. unfold check_slot, slot_error at 2.
    destruct (slot_group slot); simpl; try done.
    case_decide; simpl; [done|]. by rewrite <- app_assoc.
Qed.

Lemma check_nodes_errors nodes st :
  st_errors (foldl (check_node nodeSchemas) st nodes)
  = st_errors st ++ (nodes ≫= missing_required nodeSchemas (st_prompt st)).
Proof.
  revert st. induction nodes as [|node nodes IH]; intros st; simpl.
  - by rewrite app_nil_r.
  - rewrite IH. destruct (check_node_frame nodeSchemas st node) as [-> _].
    rewrite app_assoc. f_equal.
    unfold check_node, missing_required.
    destruct (node_type_of node) as [type|]; [|by rewrite app_nil_r].
    destruct (nodeSchemas !! type) as [schema|]; [|by rewrite app_nil_r].
    destruct (st_prompt st !! node_id node) as [p|]; [|by rewrite app_nil_r].
    apply check_slots_errors.
Qed.

Lemma compile_node_errors st node :
  st_errors (compile_node nodeSchemas st node) = st_errors st.
Proof.
  unfold compile_node. repeat case_match; simpl; try done;
    by rewrite (proj2 (proj2 (pushWarning_frame _ _ _))).
Qed.

Lemma compile_nodes_errors nodes st :
  st_errors (foldl (compile_node nodeSchemas) st nodes) = st_errors st.
Proof.
  revert st. induction nodes as [|node nodes IH]; intros st; [done|].
  simpl. by rewrite IH, compile_node_errors.
Qed.

Lemma compile_node_keeps st node i :
  is_Some (st_prompt st !! i) ->
  is_Some (st_prompt (compile_node nodeSchemas st node) !! i).
Proof.
  intros Hi. unfold compile_node. repeat case_match; simpl;
    rewrite ?(proj1 (pushWarning_frame _ _ _)); simpl; try done;
    rewrite lookup_insert; by case_decide.
Qed.

Lemma compile_node_typed st node type :
  node_type_of node = Some type ->
  is_Some (st_prompt (compile_node nodeSchemas st node) !! node_id node).
Proof.
  intros Hty. unfold compile_node. rewrite Hty.
  case_match; simpl; by rewrite lookup_insert_eq.
Qed.

Lemma compile_nodes_typed nodes st node type :
  node ∈ nodes -> node_type_of node = Some type ->
  is_Some (st_prompt (foldl (compile_node nodeSchemas) st nodes)
             !! node_id node).
Proof.
  intros Hin Hty. revert st.
  induction nodes as [|n nodes IH]; intros st; [by apply elem_of_nil in Hin|].
  simpl. apply elem_of_cons in Hin as [->|Hin]; [|by apply IH].
  clear IH. generalize (compile_node_typed st n type Hty).
  generalize (compile_node nodeSchemas st n). clear st.
  induction nodes as [|m nodes IH]; intros st Hst; [done|].
  simpl. by apply IH, compile_node_keeps.
Qed.

End RequiredInputs.


(** ** Request compiler: warnings *)

Section Warnings.
Context `{Host}.
Variable nodeSchemas : gmap string NodeSchema.

Lemma compile_node_diagnostics st node :
  diagnostics (compile_node nodeSchemas st node)
  = match node_warning nodeSchemas node with
    | Some request => emit (diagnostics st) request
    | None => diagnostics st
    end.
Proof.
  unfold compile_node, node_warning.
  repeat case_match; simplify_eq; try done;
    change (diagnostics (set_prompt ?s ?i ?p)) with (diagnostics s);
    by rewrite ?diagnostics_pushWarning.
Qed.

Lemma compile_node_nodeById st node :
  st_nodeById (compile_node nodeSchemas st node)
  = <[node_id node := node]> (st_nodeById st).
Proof.
  unfold compile_node. repeat case_match; simpl;
    by rewrite ?(proj1 (proj2 (pushWarning_frame _ _ _))).
Qed.

Lemma compile_nodes_diagnostics nodes st :
  diagnostics (foldl (compile_node nodeSchemas) st nodes)
  = foldl emit (diagnostics st) (omap (node_warning nodeSchemas) nodes).
Proof.
  revert st. induction nodes as [|node nodes IH]; intros st; [done|].
  csimpl. rewrite IH, compile_node_diagnostics.
  by destruct (node_warning nodeSchemas node).
Qed.

Lemma wire_edges_diagnostics edges st :
  diagnostics (foldl (wire_edge nodeSchemas) st edges)
  = foldl emit (diagnostics st)
      (omap (edge_warning nodeSchemas (st_nodeById st)) edges).
Proof.
  revert st. induction edges as [|edge edges IH]; intros st; [done|].
  csimpl. rewrite IH, wire_edge_diagnostics.
  destruct (wire_edge_frame nodeSchemas st edge) as [-> _].
  by destruct (edge_warning nodeSchemas (st_nodeById st) edge).
Qed.

(** All warnings of a build, as the requests made in order. *)
Lemma build_diagnostics nodes edges :
  let st1 := foldl (compile_node nodeSchemas) initial_state nodes in
  warnings (buildPromptFromGraph nodeSchemas nodes edges)
  = fst (foldl emit ([], ∅)
           (omap (node_warning nodeSchemas) nodes
            ++ omap (edge_warning nodeSchemas (st_nodeById st1)) edges)).
Proof.
  cbv zeta. unfold buildPromptFromGraph. cbn [warnings].
  set (st1 := foldl (compile_node nodeSchemas) initial_state nodes).
  set (st2 := foldl (wire_edge nodeSchemas) st1 edges).
  destruct (check_nodes_frame nodeSchemas nodes st2) as (_ & _ & Hd).
  change (st_warnings ?s) with (fst (diagnostics s)). rewrite Hd.
  unfold st2. rewrite wire_edges_diagnostics. unfold st1 at 1.
  rewrite compile_nodes_diagnostics, foldl_app. done.
Qed.



End Warnings.






Section WarningClaims.
Context `{Host}.
Variable nodeSchemas : gmap string NodeSchema.





End WarningClaims.



(** ** Control-field engine: numeric slots *)

Lemma Qltb_lt a b : Js.Qltb a b = true <-> (a < b)%Q.
Proof.
  unfold Js.Qltb. rewrite negb_true_iff, <- not_true_iff_false, Qle_bool_iff.
  split; [apply Qnot_le_lt|apply Qlt_not_le].
Qed.

Lemma Qltb_ge a b : Js.Qltb a b = false <-> (b <= a)%Q.
Proof.
  unfold Js.Qltb. by rewrite negb_false_iff, Qle_bool_iff.
Qed.

Ltac qltb :=
  repeat match goal with
         | Hlt : Js.Qltb _ _ = true |- _ => apply Qltb_lt in Hlt
         | Hge : Js.Qltb _ _ = false |- _ => apply Qltb_ge in Hge
         end.

Lemma finite_number_Fin v n : finite_number v = Some n -> exists q, n = Fin q.
Proof.
  destruct v as [[|[]| |]|]; simpl; try done; intros [= <-]; eauto.
Qed.

Lemma Qtrunc_comp q q' : (q == q')%Q -> Js.Qtrunc q = Js.Qtrunc q'.
Proof.
  intros Heq. destruct (Qlt_le_dec q 0).
  - rewrite !Qtrunc_nonpos by lra. unfold Qceiling. by rewrite Heq.
  - rewrite !Qtrunc_nonneg by lra. by rewrite Heq.
Qed.

Lemma Qtrunc_inject_Z z : Js.Qtrunc (inject_Z z) = z.
Proof. unfold Js.Qtrunc. simpl. apply Z.quot_1_r. Qed.

Section NumberControl.
Context `{Host}.

(** The step in use: the magnitude of a declared finite step that is not
    zero, and one otherwise. *)
Lemma resolveNumberStep_spec slot :
  resolveNumberStep slot
  = match finite_number (slot_config slot ≫= cfg_step) with
    | Some (Fin q) => if Qeq_bool q 0 then Fin 1 else Fin (Qabs q)
    | _ => Fin 1
    end.
Proof.
  unfold resolveNumberStep.
  destruct (finite_number _) as [n|] eqn:Hn; [|done].
  apply finite_number_Fin in Hn as [q ->]. done.
Qed.

Lemma resolveNumberStep_positive slot :
  exists s, resolveNumberStep slot = Fin s /\ (0 < s)%Q.
Proof.
  rewrite resolveNumberStep_spec.
  destruct (finite_number _) as [[q| | |]|]; try (by exists 1%Q).
  destruct (Qeq_bool q 0) eqn:Hq; [by exists 1%Q|].
  exists (Qabs q). split; [done|].
  apply Qeq_bool_neq in Hq.
  apply Qabs_case; intros Hs; apply Qle_lt_or_eq in Hs as [Hs|Hs];
    try lra; exfalso; apply Hq; lra.
Qed.



End NumberControl.


Local Arguments Qfloor : simpl never.
Local Arguments Qmult : simpl never.
Local Arguments Qplus : simpl never.
Local Arguments Qdiv : simpl never.
Local Arguments Qopp : simpl never.
Local Arguments Qminus : simpl never.

Section NumberControlClaims.
Context `{Host}.
Variable random : nat -> Q.

(** The value returned in increment and decrement mode. *)
Lemma applyNumberControl_step cursor slot widgetSpec raw s lo hi c :
  resolveNumberStep slot = Fin s ->
  resolveNumberBounds slot (default_number widgetSpec) (Fin s) = (Fin lo, Fin hi) ->
  (lo <= hi)%Q ->
  resolveNumericValue raw (default_number widgetSpec)
    (bool_decide (valueType slot = Some "INT")) = Fin c ->
  applyNumberControl random cursor Increment slot widgetSpec raw
  = (Some (Fin (truncate_if (bool_decide (valueType slot = Some "INT"))
                  (clamp lo hi (c + s)))), cursor)
  /\ applyNumberControl random cursor Decrement slot widgetSpec raw
     = (Some (Fin (truncate_if (bool_decide (valueType slot = Some "INT"))
                     (clamp lo hi (c - s)))), cursor).
Proof.
  intros Hs Hb Hle Hc. unfold applyNumberControl.
  fold (default_number widgetSpec). rewrite Hs, Hb, Hc.
  unfold clamp, truncate_if, Js.gt. simpl.
  split.
  - destruct (Js.Qltb (c + s) lo) eqn:Hlo; simpl.
    + assert (Js.Qltb hi lo = false) as -> by (apply Qltb_ge; lra).
      by destruct (bool_decide _).
    + destruct (Js.Qltb hi (c + s)); by destruct (bool_decide _).
  - change (c + - s)%Q with (c - s)%Q.
    destruct (Js.Qltb (c - s) lo) eqn:Hlo; simpl.
    + assert (Js.Qltb hi lo = false) as -> by (apply Qltb_ge; lra).
      by destruct (bool_decide _).
    + destruct (Js.Qltb hi (c - s)); by destruct (bool_decide _).
Qed.


End NumberControlClaims.


Lemma truncate_if_integer isInteger x (z : Z) :
  (x == inject_Z z)%Q -> (truncate_if isInteger x == x)%Q.
Proof.
  intros Hx. destruct isInteger; [|done]. simpl.
  by rewrite (Qtrunc_comp _ _ Hx), Qtrunc_inject_Z.
Qed.

Section NumberControlTheorems.
Context `{Host}.
Variable random : nat -> Q.


End NumberControlTheorems.


Section RandomizeClaims.
Context `{Host}.
Variable random : nat -> Q.


End RandomizeClaims.



(** ** Connection validator *)

Lemma strip_prefix_app prefix s rest :
  Js.strip_prefix prefix s = Some rest <-> s = (prefix ++ rest)%string.
Proof.
  revert s. induction prefix as [|a prefix IH]; intros s; simpl.
  - split; [by intros [= ->]|by intros ->].
  - destruct s as [|b s]; [done|].
    destruct (Ascii.eqb_spec a b) as [->|Hne].
    + rewrite IH. split; [by intros ->|by intros [= ->]].
    + split; [done|]. by intros [= <- ?].
Qed.

Lemma parseHandleSlotName_decodes handle marker name :
  parseHandleSlotName handle marker = Some name <-> decodes handle marker name.
Proof.
  unfold parseHandleSlotName, decodes. split.
  - destruct handle as [h|]; [|done].
    destruct (Js.strip_prefix marker h) as [rest|] eqn:Hs; [|done].
    apply strip_prefix_app in Hs as ->. case_decide; [done|].
    by intros [= ->].
  - intros [-> Hne].
    rewrite (proj2 (strip_prefix_app marker _ name) eq_refl).
    by rewrite decide_False.
Qed.

Lemma truthy_string_Some s x : truthy_string s = Some x -> s = Some x /\ x ≠ "".
Proof. destruct s as [[|]|]; simpl; intros [= <-]; done. Qed.

Section Adjacency.
Variable edges : list GraphEdge.

Lemma add_neighbor_lookup adjacency edge x :
  add_neighbor adjacency edge !! x
  = match truthy_string (edge_source edge), truthy_string (edge_target edge) with
    | Some source, Some target =>
        if decide (source = x)
        then Some (default [] (adjacency !! x) ++ [target])
        else adjacency !! x
    | _, _ => adjacency !! x
    end.
Proof.
  unfold add_neighbor.
  destruct (truthy_string (edge_source edge)) as [source|]; [|done].
  destruct (truthy_string (edge_target edge)) as [target|]; [|done].
  case_decide as Hx.
  - subst. destruct (adjacency !! x); by rewrite lookup_insert_eq.
  - destruct (adjacency !! source); by rewrite lookup_insert_ne.
Qed.

(** The adjacency map lists, for each source, the targets of its edges. *)
Lemma build_adjacency_lookup x :
  build_adjacency edges !! x
  = match neighbors_of edges x with
    | [] => None
    | neighbors => Some neighbors
    end.
Proof.
  unfold build_adjacency, neighbors_of.
  induction edges as [|edge es IH] using rev_ind; [done|].
  rewrite foldl_snoc, omap_app, add_neighbor_lookup, IH. csimpl.
  destruct (truthy_string (edge_source edge)) as [source|];
    [|by rewrite app_nil_r].
  destruct (truthy_string (edge_target edge)) as [target|];
    [|by rewrite app_nil_r].
  case_decide; [|by rewrite app_nil_r]. simpl.
  by destruct (omap _ es).
Qed.

Lemma neighbors_of_link x y : y ∈ neighbors_of edges x <-> link edges x y.
Proof.
  unfold neighbors_of, link. rewrite list_elem_of_omap.
  split; intros (edge & Hin & Hedge); exists edge; (split; [done|]).
  - destruct (truthy_string (edge_source edge)) as [source|]; [|done].
    destruct (truthy_string (edge_target edge)) as [target|]; [|done].
    case_decide; by simplify_eq.
  - destruct Hedge as [-> ->]. by rewrite decide_True.
Qed.

Lemma link_target x y : link edges x y -> y ≠ "".
Proof.
  intros (edge & _ & _ & Hy). by apply truthy_string_Some in Hy as [_ ?].
Qed.

Lemma pending_visit x visited :
  x ∉ visited ->
  pending edges visited
  = (pending edges ({[x]} ∪ visited) + length (neighbors_of edges x))%nat.
Proof.
  intros Hx. unfold pending, neighbors_of.
  induction edges as [|edge es IH]; [done|]. csimpl.
  destruct (truthy_string (edge_source edge)) as [source|]; [|done].
  destruct (truthy_string (edge_target edge)) as [target|]; [|done].
  destruct (decide (source = x)) as [->|Hne].
  - rewrite decide_False by done.
    rewrite decide_True by (by apply elem_of_union_l, elem_of_singleton).
    simpl. rewrite IH. lia.
  - destruct (decide (source ∈ visited)) as [Hin|Hin].
    + rewrite decide_True by (by apply elem_of_union_r). done.
    + rewrite decide_False; [simpl; by rewrite IH|].
      rewrite elem_of_union, elem_of_singleton. tauto.
Qed.

Lemma pending_le visited : (pending edges visited <= length edges)%nat.
Proof.
  unfold pending. induction edges as [|edge es IH]; [done|]. csimpl.
  repeat case_match; simpl; lia.
Qed.

End Adjacency.

Lemma elem_of_rev {A} (x : A) l : x ∈ rev l <-> x ∈ l.
Proof. rewrite !list_elem_of_In. symmetry. apply in_rev. Qed.

Lemma closed_path edges (visited : gset string) y z :
  (forall v w, v ∈ visited -> link edges v w -> w ∈ visited) ->
  path edges y z -> y ∈ visited -> z ∈ visited.
Proof.
  intros Hclosed Hpath. induction Hpath as [|y w z Hyw _ IH]; [done|].
  intros Hy. apply IH. by apply (Hclosed y w).
Qed.

Section Search.
Variable edges : list GraphEdge.
Variable source : string.

Let adjacency := build_adjacency edges.

Lemma adjacency_neighbors x neighbors :
  adjacency !! x = Some neighbors ->
  neighbors = neighbors_of edges x.
Proof.
  unfold adjacency. rewrite build_adjacency_lookup.
  by destruct (neighbors_of edges x); intros [= <-].
Qed.

Lemma adjacency_none x :
  adjacency !! x = None -> neighbors_of edges x = [].
Proof.
  unfold adjacency. rewrite build_adjacency_lookup.
  by destruct (neighbors_of edges x).
Qed.

(** The loop ends: every turn pops a node, and a node's neighbours are
    pushed at most once, when it is first visited. *)
Lemma search_terminates fuel stack visited :
  (length stack + pending edges visited < fuel)%nat ->
  is_Some (search fuel adjacency source stack visited).
Proof.
  revert stack visited.
  induction fuel as [|fuel IH]; intros stack visited Hfuel; [lia|].
  destruct stack as [|nodeId stack]; simpl; [eauto|].
  simpl in Hfuel.
  case_decide; [apply IH; lia|].
  case_decide; [eauto|].
  case_decide as Hvisited; [apply IH; lia|].
  rewrite (pending_visit edges nodeId visited Hvisited) in Hfuel.
  destruct (adjacency !! nodeId) as [neighbors|] eqn:Hadj.
  - apply adjacency_neighbors in Hadj as ->. apply IH.
    rewrite length_app, length_rev.
    pose proof (length_filter (fun neighbor => neighbor ∉ {[nodeId]} ∪ visited)
                  (neighbors_of edges nodeId)).
    lia.
  - apply IH. lia.
Qed.

(** A positive answer comes from a node on the stack. *)
Lemma search_true fuel stack visited start :
  (forall y, y ∈ stack -> path edges start y) ->
  search fuel adjacency source stack visited = Some true ->
  path edges start source.
Proof.
  revert stack visited.
  induction fuel as [|fuel IH]; intros stack visited Hstack; [done|].
  destruct stack as [|nodeId stack]; simpl; [done|].
  assert (Hrest : forall y, y ∈ stack -> path edges start y).
  { intros y Hy. apply Hstack. by right. }
  case_decide; [by apply IH|].
  case_decide as Hsource; [intros _; subst; apply Hstack; by left|].
  case_decide; [by apply IH|].
  destruct (adjacency !! nodeId) as [neighbors|] eqn:Hadj; [|by apply IH].
  apply adjacency_neighbors in Hadj as ->. apply IH.
  intros y Hy. apply elem_of_app in Hy as [Hy|Hy]; [|by apply Hrest].
  apply elem_of_rev, list_elem_of_filter in Hy as [_ Hy].
  apply neighbors_of_link in Hy.
  eapply rtc_r; [|done]. apply Hstack. by left.
Qed.

(** A negative answer means that nothing visited or stacked leads to the
    source. *)
Lemma search_false fuel stack visited :
  source ∉ visited ->
  (forall y, y ∈ stack -> y ≠ "") ->
  (forall v w, v ∈ visited -> link edges v w -> w ∈ visited \/ w ∈ stack) ->
  search fuel adjacency source stack visited = Some false ->
  forall y, y ∈ visited \/ y ∈ stack -> ~ path edges y source.
Proof.
  revert stack visited.
  induction fuel as [|fuel IH]; intros stack visited Hsource Hnames Hclosed;
    [done|].
  destruct stack as [|nodeId stack]; simpl.
  - intros _ y [Hy|Hy]; [|by apply elem_of_nil in Hy].
    intros Hpath. apply Hsource.
    apply (closed_path edges visited y source); try done.
    intros v w Hv Hvw. destruct (Hclosed v w Hv Hvw) as [|Hw]; [done|].
    by apply elem_of_nil in Hw.
  - case_decide as Hempty; [exfalso; apply (Hnames nodeId); [by left|done]|].
    case_decide; [done|].
    assert (Hrest : forall y, y ∈ stack -> y ≠ "").
    { intros y Hy. apply Hnames. by right. }
    case_decide as Hvisited.
    + intros Hrun y Hy. apply (IH stack visited); try done.
      * intros v w Hv Hvw. destruct (Hclosed v w Hv Hvw) as [|Hw]; [by left|].
        apply elem_of_cons in Hw as [->|]; [by left|by right].
      * destruct Hy as [|Hy]; [by left|].
        apply elem_of_cons in Hy as [->|]; [by left|by right].
    + set (visited' := {[nodeId]} ∪ visited).
      assert (Hsource' : source ∉ visited').
      { unfold visited'. rewrite elem_of_union, elem_of_singleton.
        intros [|]; done. }
      assert (Hy' : forall (stack' : list string) (y : string),
                 (forall z, z ∈ stack -> z ∈ stack') ->
                 y ∈ visited \/ y ∈ nodeId :: stack ->
                 y ∈ visited' \/ y ∈ stack').
      { intros stack' y Hsub [Hy|Hy].
        - left. by apply elem_of_union_r.
        - apply elem_of_cons in Hy as [->|Hy]; [|right; by apply Hsub].
          left. by apply elem_of_union_l, elem_of_singleton. }
      destruct (adjacency !! nodeId) as [neighbors|] eqn:Hadj.
      * apply adjacency_neighbors in Hadj as ->.
        set (pushed := filter (fun neighbor => neighbor ∉ visited')
                         (neighbors_of edges nodeId)).
        intros Hrun y Hy. apply (IH (rev pushed ++ stack) visited'); try done.
        -- intros z Hz. apply elem_of_app in Hz as [Hz|Hz]; [|by apply Hrest].
           apply elem_of_rev, list_elem_of_filter in Hz as [_ Hz].
           apply neighbors_of_link in Hz. by apply link_target in Hz.
        -- intros v w Hv Hvw.
           destruct (decide (w ∈ visited')) as [|Hw]; [by left|]. right.
           apply elem_of_union in Hv as [Hv|Hv].
           ++ apply elem_of_singleton in Hv as ->.
              apply elem_of_app. left.
              apply elem_of_rev, list_elem_of_filter. split; [done|].
              by apply neighbors_of_link.
           ++ destruct (Hclosed v w Hv Hvw) as [Hw'|Hw'].
              ** exfalso. apply Hw. by apply elem_of_union_r.
              ** apply elem_of_cons in Hw' as [->|Hw'].
                 --- exfalso. apply Hw.
                     by apply elem_of_union_l, elem_of_singleton.
                 --- apply elem_of_app. by right.
        -- apply Hy'; [|done]. intros z Hz. apply elem_of_app. by right.
      * apply adjacency_none in Hadj.
        intros Hrun y Hy. apply (IH stack visited'); try done.
        -- intros v w Hv Hvw.
           destruct (decide (w ∈ visited')) as [|Hw]; [by left|]. right.
           apply elem_of_union in Hv as [Hv|Hv].
           ++ apply elem_of_singleton in Hv as ->.
              apply neighbors_of_link in Hvw. rewrite Hadj in Hvw.
              by apply elem_of_nil in Hvw.
           ++ destruct (Hclosed v w Hv Hvw) as [Hw'|Hw'].
              ** exfalso. apply Hw. by apply elem_of_union_r.
              ** apply elem_of_cons in Hw' as [->|Hw']; [|done].
                 exfalso. apply Hw.
                 by apply elem_of_union_l, elem_of_singleton.
        -- by apply Hy'.
Qed.

End Search.

(** [createsCycle] always answers, and answers yes exactly for a missing
    end, a self-loop, or a path from the target back to the source. *)
Lemma createsCycle_spec connection edges :
  exists answer,
    createsCycle connection edges = Some answer
    /\ (answer = false <->
        exists source target,
          truthy_string (edge_source connection) = Some source
          /\ truthy_string (edge_target connection) = Some target
          /\ source ≠ target
          /\ ~ path edges target source).
Proof.
  unfold createsCycle.
  destruct (truthy_string (edge_source connection)) as [source|] eqn:Hs;
    [|exists true; split; [done|]; split; [done|by intros (? & ? & [=] & _)]].
  destruct (truthy_string (edge_target connection)) as [target|] eqn:Ht;
    [|exists true; split; [done|]; split; [done|by intros (? & ? & _ & [=] & _)]].
  case_decide as Hloop.
  - exists true. split; [done|]. split; [done|].
    intros (? & ? & [= <-] & [= <-] & Hne & _). done.
  - destruct (search_terminates edges source (search_fuel edges) [target] ∅)
      as [answer Hanswer].
    { unfold search_fuel. pose proof (pending_le edges ∅). simpl. lia. }
    exists answer. split; [done|]. destruct answer.
    + split; [done|]. intros (? & ? & [= <-] & [= <-] & _ & Hpath).
      exfalso. apply Hpath.
      apply (search_true edges source _ _ _ target) in Hanswer; [done|].
      intros y Hy. apply list_elem_of_singleton in Hy as ->. apply rtc_refl.
    + split; [|done]. intros _. exists source, target.
      repeat split; try done.
      apply (search_false edges source _ _ _) with (y := target) in Hanswer;
        try done.
      * intros y Hy. apply list_elem_of_singleton in Hy as ->.
        by apply truthy_string_Some in Ht as [_ ?].
      * right. apply list_elem_of_here.
Qed.

Section ValidatorClaims.
Variable nodes : list GraphNode.
Variable nodeSchemas : gmap string NodeSchema.

Lemma isTypeCompatible_spec resolved :
  isTypeCompatible resolved = true
  <-> exists declared,
        truthy_string (valueType (targetSlot resolved)) = Some declared
        /\ out_type (sourceSlot resolved) = declared.
Proof.
  unfold isTypeCompatible.
  destruct (truthy_string (valueType (targetSlot resolved))) as [declared|].
  - rewrite bool_decide_eq_true. split; [eauto|by intros (? & [= <-] & ?)].
  - split; [done|by intros (? & [=] & _)].
Qed.

(** The slots resolve exactly when both ends are present, both handles
    decode, and the nodes, their schemas and the named slots are found. *)
Lemma resolveConnectionSlots_spec connection resolved :
  resolveConnectionSlots nodes nodeSchemas connection = Some resolved
  <-> exists source target sourceSlotName targetSlotName sourceType targetType,
        truthy_string (edge_source connection) = Some source
        /\ truthy_string (edge_target connection) = Some target
        /\ decodes (sourceHandle connection) "out-" sourceSlotName
        /\ decodes (targetHandle connection) "in-" targetSlotName
        /\ List.find (fun node => bool_decide (node_id node = source)) nodes
           = Some (sourceNode resolved)
        /\ List.find (fun node => bool_decide (node_id node = target)) nodes
           = Some (targetNode resolved)
        /\ node_data (sourceNode resolved) ≫= nodeType = Some sourceType
        /\ node_data (targetNode resolved) ≫= nodeType = Some targetType
        /\ nodeSchemas !! sourceType = Some (sourceSchema resolved)
        /\ nodeSchemas !! targetType = Some (targetSchema resolved)
        /\ List.find (fun slot => bool_decide (out_name slot = sourceSlotName))
             (schema_outputs (sourceSchema resolved))
           = Some (sourceSlot resolved)
        /\ List.find (fun slot => bool_decide (slot_name slot = targetSlotName))
             (schema_inputs (targetSchema resolved))
           = Some (targetSlot resolved).
Proof.
  unfold resolveConnectionSlots, find_node, schema_of. split.
  - intros Hres.
    destruct (truthy_string (edge_source connection)) as [source|]; [|done].
    destruct (truthy_string (edge_target connection)) as [target|]; [|done].
    destruct (parseHandleSlotName (sourceHandle connection) "out-")
      as [sourceSlotName|] eqn:Hout; [|done].
    destruct (parseHandleSlotName (targetHandle connection) "in-")
      as [targetSlotName|] eqn:Hin; [|done].
    apply parseHandleSlotName_decodes in Hout, Hin.
    destruct (List.find _ nodes) as [sn|] eqn:Hsn; [|done].
    destruct (List.find (fun node => bool_decide (node_id node = target)) nodes)
      as [tn|] eqn:Htn; [|done].
    destruct (node_data sn ≫= nodeType) as [sty|] eqn:Hsty; [|done].
    destruct (nodeSchemas !! sty) as [ss|] eqn:Hss; [|done].
    destruct (node_data tn ≫= nodeType) as [tty|] eqn:Htty; [|done].
    destruct (nodeSchemas !! tty) as [ts|] eqn:Hts; [|done].
    destruct (List.find _ (schema_outputs ss)) as [so|] eqn:Hso; [|done].
    destruct (List.find _ (schema_inputs ts)) as [ti|] eqn:Hti; [|done].
    injection Hres as <-. simpl.
    exists source, target, sourceSlotName, targetSlotName, sty, tty.
    repeat split; try done; by destruct Hout, Hin.
  - intros (source & target & sourceSlotName & targetSlotName & sty & tty
            & -> & -> & Hout & Hin & -> & -> & -> & -> & Hss & Hts & Hso & Hti).
    apply parseHandleSlotName_decodes in Hout as ->.
    apply parseHandleSlotName_decodes in Hin as ->.
    rewrite Hss, Hts, Hso, Hti. by destruct resolved.
Qed.

(** C3: the validator always answers, and accepts a candidate edge exactly
    when both ends are present, both handles decode to a slot name that is
    not empty, the nodes, schemas and slots resolve, the target slot's
    declared type is present and equal to the source slot's, the ends
    differ, and no path of existing edges leads from the target back to
    the source. The validator is a function of the candidate, the nodes,
    the schemas and the edges: it has no state to change. *)
Theorem connection_valid_iff (connection : GraphEdge) (edges : list GraphEdge) :
  exists answer,
    isConnectionValid nodes nodeSchemas connection edges = Some answer
    /\ (answer = true <-> connectable nodes nodeSchemas connection edges).
Proof.
  destruct (createsCycle_spec connection edges) as (cycle & Hrun & Hcycle).
  unfold isConnectionValid. rewrite Hrun.
  destruct (resolveConnectionSlots nodes nodeSchemas connection)
    as [resolved|] eqn:Hres.
  - apply resolveConnectionSlots_spec in Hres
      as (source & target & sName & tName & sty & tty & Hs & Ht & Hout & Hin
          & Hsn & Htn & Hsty & Htty & Hss & Hts & Hso & Hti).
    destruct (isTypeCompatible resolved) eqn:Htype; simpl.
    + apply isTypeCompatible_spec in Htype as (declared & Hdecl & Heq).
      destruct cycle.
      * exists false. split; [done|]. split; [done|].
        intros (source' & target' & ? & ? & ? & ? & ? & ? & ? & ? & ? & ?
                & ? & Hs' & Ht' & _ & _ & _ & _ & _ & _ & _ & _ & _ & _ & _
                & _ & Hne & Hpath).
        assert (Hfalse : true = false); [|done].
        apply Hcycle. by exists source', target'.
      * exists true. split; [done|]. split; [|done]. intros _.
        destruct (proj1 Hcycle eq_refl)
          as (source' & target' & Hs' & Ht' & Hne & Hpath).
        rewrite Hs in Hs'. rewrite Ht in Ht'. simplify_eq.
        exists source', target', sName, tName, (sourceNode resolved),
          (targetNode resolved), sty, tty, (sourceSchema resolved),
          (targetSchema resolved), (sourceSlot resolved),
          (targetSlot resolved), (out_type (sourceSlot resolved)).
        repeat split; try done; by destruct Hout, Hin.
    + exists false. split; [done|]. split; [done|].
      intros (source' & target' & sName' & tName' & sn & tn & sty' & tty'
              & ss & ts & so & ti & declared & Hs' & Ht' & Hout' & Hin'
              & Hsn' & Htn' & Hsty' & Htty' & Hss' & Hts' & Hso' & Hti'
              & Hdecl & Heq & _).
      rewrite Hs in Hs'. rewrite Ht in Ht'. simplify_eq.
      destruct Hout as [Hout _], Hout' as [Hout' _].
      destruct Hin as [Hin _], Hin' as [Hin' _].
      rewrite Hout in Hout'. rewrite Hin in Hin'. simplify_eq/=.
      assert (Hcompatible : isTypeCompatible resolved = true); [|congruence].
      apply isTypeCompatible_spec. eauto.
  - exists false. split; [done|]. split; [done|].
    intros (source & target & sName & tName & sn & tn & sty & tty
            & ss & ts & so & ti & declared & Hs & Ht & Hout & Hin
            & Hsn & Htn & Hsty & Htty & Hss & Hts & Hso & Hti & _).
    assert (Hsome : resolveConnectionSlots nodes nodeSchemas connection
                    = Some (mkResolved sn tn ss ts so ti)); [|congruence].
    apply resolveConnectionSlots_spec.
    exists source, target, sName, tName, sty, tty. done.
Qed.

End ValidatorClaims.

(** ** Control-field engine: the idempotency set *)

Lemma grows_refl s : grows s s.
Proof. destruct s; simpl; [reflexivity|done]. Qed.

Lemma grows_trans a b c : grows a b -> grows b c -> grows a c.
Proof. destruct a, b, c; simpl; try done. intros ? ?. by etrans. Qed.

Section SlotLoopFacts.
Context `{Host}.
Variable random : nat -> Q.

Lemma mutate_slot_executed node values controlValues st slot :
  sl_executed (mutate_slot random node values controlValues st slot)
  = sl_executed st.
Proof.
  unfold mutate_slot. repeat case_match; done.
Qed.

Lemma control_slot_grows mode node values controlValues st slot :
  grows (sl_executed st)
    (sl_executed (control_slot random mode node values controlValues st slot)).
Proof.
  unfold control_slot.
  destruct (negb (isControlAfterGenerateEnabled slot)); [apply grows_refl|].
  destruct mode, (sl_executed st) as [executed|] eqn:He;
    try (rewrite mutate_slot_executed, He; apply grows_refl).
  case_decide.
  - rewrite mutate_slot_executed, He. apply grows_refl.
  - simpl. apply union_subseteq_r.
Qed.

Lemma control_slots_grows mode node values controlValues slots st :
  grows (sl_executed st)
    (sl_executed
       (foldl (control_slot random mode node values controlValues) st slots)).
Proof.
  revert st. induction slots as [|slot slots IH]; intros st;
    [apply grows_refl|].
  simpl. eapply grows_trans; [|apply IH]. apply control_slot_grows.
Qed.





End SlotLoopFacts.

(** ** Control-field engine: copy on write *)

Section CopyOnWrite.
Context `{Host}.
Variable random : nat -> Q.
Variable nodeSchemas : gmap string NodeSchema.
Variable mode : ControlAfterGenerateMode.

Lemma object_is_refl value : object_is value (Some value) = true.
Proof.
  destruct value as [s|[q| | |]|b|]; simpl; try done;
    try (by apply bool_decide_eq_true).
  by apply Qeq_bool_iff.
Qed.

Lemma differs_ne values m : differs values m -> m ≠ values.
Proof.
  intros (name & value & Hm & Hdiff) ->. rewrite Hm in Hdiff.
  by rewrite object_is_refl in Hdiff.
Qed.

Lemma mutate_slot_differs node values controlValues st slot m :
  (forall m0, nextWidgetValues st = Some m0 -> differs values m0) ->
  nextWidgetValues (mutate_slot random node values controlValues st slot)
  = Some m ->
  differs values m.
Proof.
  intros Hst. unfold mutate_slot.
  destruct (getWidgetSpec slot) as [widgetSpec|]; [|by apply Hst].
  destruct (negb (isSupportedControlWidget widgetSpec)); [by apply Hst|].
  destruct (match widget_kind widgetSpec with
            | KNumber => _ | KSelect => _ | _ => _ end) as [nextValue cursor].
  destruct nextValue as [value|]; [|by apply Hst].
  destruct (object_is value (values !! slot_name slot)) eqn:Hsame; simpl;
    [by apply Hst|].
  intros [= <-]. exists (slot_name slot), value.
  by rewrite lookup_insert_eq.
Qed.

Lemma control_slot_differs node values controlValues st slot m :
  (forall m0, nextWidgetValues st = Some m0 -> differs values m0) ->
  nextWidgetValues (control_slot random mode node values controlValues st slot)
  = Some m ->
  differs values m.
Proof.
  intros Hst. unfold control_slot.
  destruct (negb (isControlAfterGenerateEnabled slot)); [by apply Hst|].
  destruct mode, (sl_executed st);
    try (by apply mutate_slot_differs).
  case_decide; [by apply mutate_slot_differs|by apply Hst].
Qed.

Lemma control_slots_differs node values controlValues slots st m :
  (forall m0, nextWidgetValues st = Some m0 -> differs values m0) ->
  nextWidgetValues
    (foldl (control_slot random mode node values controlValues) st slots)
  = Some m ->
  differs values m.
Proof.
  revert st. induction slots as [|slot slots IH]; intros st Hst;
    [by apply Hst|].
  simpl. apply IH. intros m0. by apply control_slot_differs.
Qed.

(** One turn of [forEach] either leaves the store and [nextNodes] alone,
    or allocates a copy of the node with other widget values, allocates
    the array copy if there is none yet, and writes the node copy at the
    turn's index. *)
Lemma control_node_cases nodes st index ref :
  let st' := control_node random nodeSchemas mode nodes st index ref in
  grows (es_executed st) (es_executed st')
  /\ ((es_heap st' = es_heap st /\ nextNodes st' = nextNodes st)
      \/ exists node values',
           heap_nodes (es_heap st) !! ref = Some node
           /\ values' ≠ widget_values_of node
           /\ let fresh := heap_next (es_heap st) in
              let h1 :=
                snd (alloc_node (es_heap st) (with_widget_values node values')) in
              match nextNodes st with
              | Some array =>
                  es_heap st' = array_write h1 array index fresh
                  /\ nextNodes st' = Some array
              | None =>
                  es_heap st'
                  = array_write
                      (snd (alloc_array h1 (default [] (heap_arrays h1 !! nodes))))
                      (S fresh) index fresh
                  /\ nextNodes st' = Some (S fresh)
              end).
Proof.
  cbv zeta. unfold control_node.
  destruct (heap_nodes (es_heap st) !! ref) as [node|] eqn:Hnode;
    [|split; [apply grows_refl|by left]].
  destruct (node_type_of node) as [type|];
    [|split; [apply grows_refl|by left]].
  destruct (nodeSchemas !! type) as [schema|];
    [|split; [apply grows_refl|by left]].
  set (loop := foldl _ _ _).
  assert (Hgrow : grows (es_executed st) (sl_executed loop)).
  { apply (control_slots_grows random mode node _ _ (schema_inputs schema)
             (mkSlotLoop None (es_executed st) (es_cursor st))). }
  destruct (nextWidgetValues loop) as [values'|] eqn:Hloop;
    [|split; [done|by left]].
  split; [by destruct (nextNodes st)|]. right. exists node, values'.
  split; [done|]. split.
  - apply differs_ne. unfold loop in Hloop.
    eapply control_slots_differs; [|exact Hloop]. done.
  - by destruct (nextNodes st).
Qed.

End CopyOnWrite.

Section CopyInvariant.
Context `{Host}.
Variable random : nat -> Q.
Variable nodeSchemas : gmap string NodeSchema.
Variable mode : ControlAfterGenerateMode.
Variable h : Heap.
Variable nodes : nat.
Variable elems : list nat.
Hypothesis Hnodes : heap_arrays h !! nodes = Some elems.
Hypothesis Hnodes_old : (nodes < heap_next h)%nat.
Hypothesis Helems_old : forall ref, ref ∈ elems -> (ref < heap_next h)%nat.

Lemma copy_inv_step k st ref :
  copy_inv h elems k st ->
  elems !! k = Some ref ->
  copy_inv h elems (S k) (control_node random nodeSchemas mode nodes st k ref).
Proof.
  intros (Hnext & Hframe & Harray) Hk.
  assert (Href : (ref < heap_next h)%nat).
  { apply Helems_old. by apply list_elem_of_lookup_2 in Hk. }
  assert (Hklen : (k < length elems)%nat) by (by apply lookup_lt_Some in Hk).
  destruct (control_node_cases random nodeSchemas mode nodes st k ref)
    as [_ [[Hheap Hnn]|(node & values' & Hnode & Hne & Hcase)]].
  - unfold copy_inv. rewrite Hheap, Hnn. split; [done|]. split; [done|].
    destruct (nextNodes st) as [array|]; [|done].
    destruct Harray as (Hbound & cur & Hcur & Hlen & Hrest & Hrep & Hsome).
    split; [done|]. exists cur. repeat split; try done.
    intros i Hi. apply Hrest. lia.
  - cbv zeta in Hcase.
    assert (Hnode_h : heap_nodes h !! ref = Some node).
    { by rewrite <- (proj1 (Hframe ref Href)). }
    destruct (nextNodes st) as [array|] eqn:Hnn.
    + destruct Hcase as [Hheap Hnn'].
      destruct Harray as (Hbound & cur & Hcur & Hlen & Hrest & Hrep & Hsome).
      unfold copy_inv, replaced_in. rewrite Hheap, Hnn'. simpl.
      split; [lia|]. split; [|split; [lia|]].
      * intros r Hr. destruct (Hframe r Hr) as [Hn Ha]. split.
        -- rewrite lookup_insert_ne by lia. done.
        -- rewrite lookup_alter_ne by lia. done.
      * exists (<[k := heap_next (es_heap st)]> cur). repeat split.
        -- by rewrite lookup_alter_eq, Hcur.
        -- by rewrite length_insert.
        -- intros i Hi. rewrite list_lookup_insert_ne by lia.
           apply Hrest. lia.
        -- intros i ref0 ref' He Hc.
           destruct (decide (i = k)) as [->|Hik].
           ++ rewrite list_lookup_insert_eq in Hc by lia.
              injection Hc as <-. rewrite Hk in He. injection He as <-.
              right. split; [lia|]. exists node, values'.
              repeat split; try done. by rewrite lookup_insert_eq.
           ++ rewrite list_lookup_insert_ne in Hc by done.
              destruct (Hrep i ref0 ref' He Hc)
                as [->|[Hb (node0 & values0 & Hn0 & Hn0' & Hne0)]];
                [by left|].
              right. split; [lia|].
              exists node0, values0. repeat split; try done.
              rewrite lookup_insert_ne by lia. done.
        -- exists k, ref, (heap_next (es_heap st)). repeat split; try done.
           ++ rewrite list_lookup_insert_eq by lia. done.
           ++ lia.
    + destruct Hcase as [Hheap Hnn']. rewrite Harray in *.
      unfold copy_inv, replaced_in. rewrite Hheap, Hnn'. simpl.
      rewrite Hnodes. simpl.
      split; [lia|]. split; [|split; [lia|]].
      * intros r Hr. split.
        -- rewrite lookup_insert_ne by lia. done.
        -- rewrite lookup_alter_ne, lookup_insert_ne by lia. done.
      * exists (<[k := heap_next h]> elems). repeat split.
        -- by rewrite lookup_alter_eq, lookup_insert_eq.
        -- by rewrite length_insert.
        -- intros i Hi. by rewrite list_lookup_insert_ne by lia.
        -- intros i ref0 ref' He Hc.
           destruct (decide (i = k)) as [->|Hik].
           ++ rewrite list_lookup_insert_eq in Hc by lia.
              injection Hc as <-. rewrite Hk in He. injection He as <-.
              right. split; [lia|]. exists node, values'.
              repeat split; try done. by rewrite lookup_insert_eq.
           ++ rewrite list_lookup_insert_ne in Hc by done.
              left. congruence.
        -- exists k, ref, (heap_next h). repeat split; try done.
           ++ rewrite list_lookup_insert_eq by lia. done.
           ++ lia.
Qed.

Lemma copy_inv_forEach rest k st :
  copy_inv h elems k st ->
  (forall i, rest !! i = elems !! (k + i)%nat) ->
  copy_inv h elems (k + length rest)
    (forEach (control_node random nodeSchemas mode nodes) st k rest).
Proof.
  revert k st. induction rest as [|ref rest IH]; intros k st Hinv Hrest.
  - simpl. by rewrite Nat.add_0_r.
  - simpl. replace (k + S (length rest))%nat with (S k + length rest)%nat by lia.
    apply IH.
    + apply copy_inv_step; [done|]. specialize (Hrest 0%nat).
      rewrite Nat.add_0_r in Hrest. done.
    + intros i. specialize (Hrest (S i)). simpl in Hrest.
      by replace (S k + i)%nat with (k + S i)%nat by lia.
Qed.

End CopyInvariant.

Lemma widget_values_of_with node values :
  widget_values_of (with_widget_values node values) = values.
Proof. done. Qed.

(** C7: the call writes to no object that existed before it. When it
    reports no mutation it returns the very array it was given and the
    store is untouched. Otherwise the array returned is a new one of the
    same length, at least one position holds a new reference, and at every
    position the reference is either the input's or that of a new node that
    copies the input node with other widget values; so a position holds a
    new object exactly when the widget values there changed. *)
Theorem control_engine_copies_on_write `{Host} (random : nat -> Q)
    (nodeSchemas : gmap string NodeSchema) (mode : ControlAfterGenerateMode)
    (h : Heap) (cursor nodes : nat) (executed : option (gset string))
    (elems : list nat) :
  heap_wf h ->
  heap_arrays h !! nodes = Some elems ->
  Forall (fun ref => is_Some (heap_nodes h !! ref)) elems ->
  let r := applyControlAfterGenerate random nodeSchemas mode h cursor nodes
             executed in
  (forall ref, is_Some (heap_nodes h !! ref) ->
               heap_nodes (res_heap r) !! ref = heap_nodes h !! ref)
  /\ (forall a, is_Some (heap_arrays h !! a) ->
                heap_arrays (res_heap r) !! a = heap_arrays h !! a)
  /\ (didMutate r = false -> res_nodes r = nodes /\ res_heap r = h)
  /\ (didMutate r = true ->
      heap_arrays h !! res_nodes r = None
      /\ exists elems',
           heap_arrays (res_heap r) !! res_nodes r = Some elems'
           /\ length elems' = length elems
           /\ (exists i ref ref',
                 elems !! i = Some ref /\ elems' !! i = Some ref' /\ ref' ≠ ref)
           /\ (forall i ref ref',
                 elems !! i = Some ref -> elems' !! i = Some ref' ->
                 ref' = ref
                 \/ (heap_nodes h !! ref' = None
                     /\ exists node values',
                          heap_nodes h !! ref = Some node
                          /\ heap_nodes (res_heap r) !! ref'
                             = Some (with_widget_values node values')
                          /\ values' ≠ widget_values_of node))
           /\ (forall i ref ref' node node',
                 elems !! i = Some ref -> elems' !! i = Some ref' ->
                 heap_nodes h !! ref = Some node ->
                 heap_nodes (res_heap r) !! ref' = Some node' ->
                 ref' = ref <-> widget_values_of node' = widget_values_of node)).
Proof.
  intros [Hwf_nodes0 Hwf_arrays0] Hnodes Helems0. cbv zeta.
  assert (Hwf_nodes : forall r, is_Some (heap_nodes h !! r) ->
                                (r < heap_next h)%nat).
  { intros r [x Hx]. exact (Hwf_nodes0 r x Hx). }
  assert (Hwf_arrays : forall r, is_Some (heap_arrays h !! r) ->
                                 (r < heap_next h)%nat).
  { intros r [x Hx]. exact (Hwf_arrays0 r x Hx). }
  assert (Helems : forall ref, ref ∈ elems -> is_Some (heap_nodes h !! ref)).
  { by apply Forall_forall. }
  unfold applyControlAfterGenerate. rewrite Hnodes. simpl.
  set (st := forEach _ _ _ _).
  assert (Hinv : copy_inv h elems (0 + length elems) st).
  { apply copy_inv_forEach; try done.
    - apply Hwf_arrays. by rewrite Hnodes.
    - intros ref Href. by apply Hwf_nodes, Helems. }
  destruct Hinv as (Hnext & Hframe & Harray).
  assert (Hfresh_node : forall r, (heap_next h <= r)%nat -> heap_nodes h !! r = None).
  { intros r Hr. apply eq_None_not_Some. intros Hsome.
    apply Hwf_nodes in Hsome. lia. }
  assert (Hfresh_array :
            forall r, (heap_next h <= r)%nat -> heap_arrays h !! r = None).
  { intros r Hr. apply eq_None_not_Some. intros Hsome.
    apply Hwf_arrays in Hsome. lia. }
  split; [|split; [|split]].
  - intros ref Href. by apply Hframe, Hwf_nodes.
  - intros a Ha. by apply Hframe, Hwf_arrays.
  - destruct (nextNodes st) as [array|]; [|done].
    intros Hfalse. exfalso. apply bool_decide_eq_false in Hfalse.
    apply Hfalse. eauto.
  - destruct (nextNodes st) as [array|];
      [|intros Htrue; apply bool_decide_eq_true in Htrue;
        by destruct Htrue as [? [=]]].
    intros _. simpl.
    destruct Harray as (Hbound & cur & Hcur & Hlen & _ & Hrep & Hsome).
    split; [apply Hfresh_array; lia|].
    exists cur. split; [done|]. split; [done|]. split; [done|].
    assert (Hcases : forall i ref ref',
               elems !! i = Some ref -> cur !! i = Some ref' ->
               ref' = ref
               \/ (heap_nodes h !! ref' = None
                   /\ exists node values',
                        heap_nodes h !! ref = Some node
                        /\ heap_nodes (es_heap st) !! ref'
                           = Some (with_widget_values node values')
                        /\ values' ≠ widget_values_of node)).
    { intros i ref ref' He Hc.
      destruct (Hrep i ref ref' He Hc) as [|[Hb Hcopy]]; [by left|].
      right. split; [apply Hfresh_node; lia|done]. }
    split; [done|].
    intros i ref ref' node node' He Hc Hn Hn'.
    destruct (Hcases i ref ref' He Hc)
      as [->|(Hnew & node0 & values' & Hn0 & Hn0' & Hne)].
    + split; [|done]. intros _.
      assert (Hold : (ref < heap_next h)%nat) by (apply Hwf_nodes; eauto).
      rewrite (proj1 (Hframe ref Hold)), Hn in Hn'. by injection Hn' as <-.
    + rewrite Hn in Hn0. injection Hn0 as <-.
      rewrite Hn0' in Hn'. injection Hn' as <-.
      rewrite widget_values_of_with. split; [|done].
      intros ->. rewrite Hn in Hnew. done.
Qed.

(** C7, witness: in [after] mode the incremented node is copied to
    reference 3, the other one is shared, and the array returned is new. *)
Lemma control_engine_copies_on_write_witness :
  let r := applyControlAfterGenerate (H := sample_host None) (fun _ => 0%Q)
             sampler_schemas After sample_heap 0 2 None in
  (didMutate r = true /\ res_nodes r = 4%nat
   /\ heap_arrays (res_heap r) !! 4%nat = Some [3%nat; 1%nat])
  /\ (forall ref, is_Some (heap_nodes sample_heap !! ref) ->
                  heap_nodes (res_heap r) !! ref = heap_nodes sample_heap !! ref).
Proof.
  split; [by vm_compute|].
  apply (control_engine_copies_on_write (H := sample_host None) (fun _ => 0%Q)
           sampler_schemas After sample_heap 0 2 None [0%nat; 1%nat]).
  - split; apply (bool_decide_unpack _); by vm_compute.
  - reflexivity.
  - apply (bool_decide_unpack _). by vm_compute.
Defined.

(** ** Control-field engine: before mode *)

Section BeforeMode.
Context `{Host}.
Variable random : nat -> Q.
Variable nodeSchemas : gmap string NodeSchema.





Lemma control_slots_after node values controlValues slots st :
  sl_executed
    (foldl (control_slot random After node values controlValues) st slots)
  = sl_executed st.
Proof.
  revert st. induction slots as [|slot slots IH]; intros st; [done|].
  simpl. rewrite IH. unfold control_slot.
  destruct (negb (isControlAfterGenerateEnabled slot)); [done|].
  apply mutate_slot_executed.
Qed.

Lemma control_node_after nodes st k ref :
  es_executed (control_node random nodeSchemas After nodes st k ref)
  = es_executed st.
Proof.
  unfold control_node. repeat (case_match; try done); simpl;
    match goal with
    | |- sl_executed (foldl ?f ?s ?l) = _ =>
        apply (control_slots_after _ _ _ l s)
    end.
Qed.



End BeforeMode.



(** The second call of the witness does change the seed: 5 becomes 6. *)
Example before_mode_second_call :
  let recorded : gset string := list_to_set ["n0:seed"; "n1:seed"] in
  let r := applyControlAfterGenerate (H := sample_host None) (fun _ => 0%Q)
             sampler_schemas Before sample_heap 0 2 (Some recorded) in
  didMutate r = true
  /\ (heap_nodes (res_heap r) !! 3%nat ≫= (fun node => widget_values_of node !! "seed"))
     = Some (VNumber (Fin 6)).
Proof. by vm_compute. Qed.

(** ** The specification's worked example *)

(** One edge from [a]'s output [IMAGE] to [b]'s required input [image]:
    no error, and the input holds the connection. *)
Example compile_connected :
  let r := buildPromptFromGraph (H := sample_host None) sample_schemas
             [sample_node "a" "A"; sample_node "b" "B"]
             [sample_edge "a" "IMAGE" "b" "image"] in
  errors r = [] /\ warnings r = []
  /\ slot_value (prompt r) "b" "image" = Some (Connection ("a", 0%nat)).
Proof. by vm_compute. Qed.

(** Three edges into the same slot arrive as a list in edge order. *)
Example compile_three_edges :
  let schemas : gmap string NodeSchema :=
    <[ "A" := mkNodeSchema "A" []
                [mkOutputSlot "IMAGE" "IMAGE"; mkOutputSlot "MASK" "MASK"] ]>
      sample_schemas in
  let r := buildPromptFromGraph (H := sample_host None) schemas
             [sample_node "a" "A"; sample_node "c" "A"; sample_node "b" "B"]
             [sample_edge "c" "MASK" "b" "image";
              sample_edge "a" "IMAGE" "b" "image";
              sample_edge "a" "MASK" "b" "image"] in
  slot_value (prompt r) "b" "image"
  = Some (ConnectionList [("c", 1%nat); ("a", 0%nat); ("a", 1%nat)]).
Proof. by vm_compute. Qed.


(** C3, witness: the validator accepts the example's edge on an empty edge
    set and rejects it once the reverse edge exists. *)
Lemma connection_valid_iff_witness :
  let nodes := [sample_node "a" "A"; sample_node "b" "B"] in
  let candidate := sample_edge "a" "IMAGE" "b" "image" in
  (connectable nodes sample_schemas candidate [])
  /\ ~ connectable nodes sample_schemas candidate
         [sample_edge "b" "IMAGE" "a" "image"].
Proof.
  intros nodes candidate. split.
  - destruct (connection_valid_iff nodes sample_schemas candidate [])
      as (answer & Hrun & Hiff).
    apply Hiff. vm_compute in Hrun. by injection Hrun.
  - destruct (connection_valid_iff nodes sample_schemas candidate
                [sample_edge "b" "IMAGE" "a" "image"])
      as (answer & Hrun & Hiff).
    intros Hok. apply Hiff in Hok. vm_compute in Hrun. congruence.
Defined.

(** * Further properties of the code *)

(** ** Lists *)

Lemma find_append {A} (p : A -> bool) l k :
  List.find p (l ++ k)
  = match List.find p l with Some x => Some x | None => List.find p k end.
Proof. induction l as [|x l IH]; simpl; [done|]. by destruct (p x). Qed.

Lemma In_rev_elem {A} (x : A) l : x ∈ l -> In x (rev l).
Proof. intros Hin%list_elem_of_In. by apply in_rev in Hin. Qed.

Lemma findIndex_Some {A} (p : A -> bool) l i :
  findIndex p l = Some i ->
  exists x, l !! i = Some x /\ p x = true
            /\ forall j y, (j < i)%nat -> l !! j = Some y -> p y = false.
Proof.
  revert i. induction l as [|y l IH]; intros i; simpl; [done|].
  destruct (p y) eqn:Hy.
  - intros [= <-]. exists y. repeat split; [done|]. lia.
  - destruct (findIndex p l) as [k|]; [|done]. simpl. intros [= <-].
    destruct (IH k eq_refl) as (x & Hx & Hp & Hbefore).
    exists x. repeat split; [done..|].
    intros [|j] z Hj; simpl; [by intros [= <-]|].
    apply Hbefore. lia.
Qed.

Lemma findIndex_None {A} (p : A -> bool) l :
  findIndex p l = None <-> forall x, x ∈ l -> p x = false.
Proof.
  induction l as [|y l IH]; simpl.
  - split; [|done]. intros _ x Hx. by apply elem_of_nil in Hx.
  - destruct (p y) eqn:Hy.
    + split; [done|]. intros Hall.
      rewrite Hall in Hy by apply list_elem_of_here. done.
    + destruct (findIndex p l) as [k|]; simpl.
      * split; [done|]. intros Hall.
        assert (Some k = @None nat); [|done].
        apply IH. intros x Hx. apply Hall. by apply list_elem_of_further.
      * split; [|done]. intros _ x [->|Hx]%elem_of_cons; [done|].
        by apply IH.
Qed.

Lemma find_findIndex {A} (p : A -> bool) l x :
  List.find p l = Some x -> exists i, findIndex p l = Some i /\ l !! i = Some x.
Proof.
  induction l as [|y l IH]; simpl; [done|].
  destruct (p y).
  - intros [= ->]. by exists 0%nat.
  - intros (i & -> & Hi)%IH. by exists (S i).
Qed.

(** ** Handles and the widget value resolver *)

(** X1: A handle decodes to a slot name exactly when it is the marker
    followed by that name and the name is not empty; in particular the
    decoding undoes the encoding, a bare marker and an absent handle decode
    to nothing, and an input handle is never read as an output handle. *)
Theorem handle_decoding_round_trip (handle : option string)
    (prefix name : string) :
  (parseHandleSlotName handle prefix = Some name
   <-> handle = Some (prefix ++ name)%string /\ name ≠ "")
  /\ parseHandleSlotName (Some (prefix ++ name)%string) prefix
     = (if decide (name = "") then None else Some name)
  /\ parseHandleSlotName None prefix = None
  /\ parseHandleSlotName (Some ("in-" ++ name)%string) "out-" = None
  /\ parseHandleSlotName (Some ("out-" ++ name)%string) "in-" = None.
Proof.
  split; [apply parseHandleSlotName_decodes|].
  split; [|done].
  unfold parseHandleSlotName.
  assert (Js.strip_prefix prefix (prefix ++ name) = Some name) as ->
    by by apply strip_prefix_app.
  done.
Qed.

Section ResolverExtras.
Context `{Host}.

Lemma is_null_or_not (value : WidgetValue) : value = VNull \/ value ≠ VNull.
Proof. destruct value; auto. Qed.

Lemma resolveNumberValue_integer value n :
  resolveNumberValue value true = Some n ->
  exists z : Z, n = Fin (inject_Z z).
Proof.
  unfold resolveNumberValue.
  destruct value as [s|m| |]; try done.
  - case_decide; [done|].
    destruct (Number_of_string s) as [q| | |]; simpl; try done.
    intros [= <-]. by eexists.
  - destruct m as [q| | |]; simpl; try done. intros [= <-]. by eexists.
Qed.

Lemma resolveNumberValue_finite value isInteger n :
  resolveNumberValue value isInteger = Some n -> exists q, n = Fin q.
Proof.
  unfold resolveNumberValue.
  destruct value as [s|m| |]; try done.
  - case_decide; [done|].
    destruct (Number_of_string s) as [q| | |]; simpl; try done.
    intros [= <-]. destruct isInteger; by eexists.
  - destruct m as [q| | |]; simpl; try done.
    intros [= <-]. destruct isInteger; by eexists.
Qed.

Lemma resolveNumberValue_fixed value isInteger n :
  resolveNumberValue value isInteger = Some n ->
  resolveNumberValue (VNumber n) isInteger = Some n.
Proof.
  unfold resolveNumberValue.
  destruct value as [s|m| |]; try done.
  - case_decide; [done|].
    destruct (Number_of_string s) as [q| | |]; simpl; try done.
    intros [= <-]. destruct isInteger; simpl; [|done].
    by rewrite Qtrunc_inject_Z.
  - destruct m as [q| | |]; simpl; try done.
    intros [= <-]. destruct isInteger; simpl; [|done].
    by rewrite Qtrunc_inject_Z.
Qed.

(** X2: The resolver is idempotent: a value it has produced for a slot
    resolves, for the same slot and whatever the fallback, to itself. *)
Theorem resolver_is_idempotent (slot : InputSlot)
    (raw fb fb' : option WidgetValue) (v : WidgetValue) :
  resolveWidgetValue slot raw fb = Some v ->
  resolveWidgetValue slot (Some v) fb' = Some v.
Proof.
  unfold resolveWidgetValue.
  destruct (nullish_or raw fb) as [value|]; [|done].
  destruct (is_null_or_not value) as [->|Hvalue]; [done|].
  assert (forall X (a b : X) , match value with VNull => a | _ => b end = b)
    as Hnot by (by destruct value).
  rewrite Hnot.
  destruct ((0 <? length (slot_options slot))%nat
            || bool_decide (valueType slot = Some "STRING")).
  { by intros [= <-]. }
  destruct (bool_decide (valueType slot = Some "BOOLEAN")).
  { intros Hv.
    assert (exists b, v = VBool b) as [b ->]; [|done].
    destruct value as [s|n|b|]; try done.
    - repeat case_decide; simplify_eq; by eexists.
    - simplify_eq. by eexists. }
  destruct (bool_decide (valueType slot = Some "INT")).
  { intros Hv.
    destruct (resolveNumberValue value true) as [n|] eqn:Hn; [|done].
    simpl in Hv. injection Hv as <-.
    change (nullish_or (Some (VNumber n)) fb') with (Some (VNumber n)).
    cbv beta iota. by rewrite (resolveNumberValue_fixed _ _ _ Hn). }
  destruct (bool_decide (valueType slot = Some "FLOAT")).
  { intros Hv.
    destruct (resolveNumberValue value false) as [n|] eqn:Hn; [|done].
    simpl in Hv. injection Hv as <-.
    change (nullish_or (Some (VNumber n)) fb') with (Some (VNumber n)).
    cbv beta iota. by rewrite (resolveNumberValue_fixed _ _ _ Hn). }
  intros [= <-]. simpl. by rewrite Hnot.
Qed.

(** X3: What the resolver returns has the kind the slot declares: never
    null; text for a slot with options or of type STRING; otherwise a
    boolean for BOOLEAN, a finite integer for INT and a finite number for
    FLOAT. *)
Theorem resolver_output_is_typed (slot : InputSlot)
    (raw fb : option WidgetValue) (v : WidgetValue) :
  resolveWidgetValue slot raw fb = Some v ->
  v ≠ VNull
  /\ (slot_options slot ≠ [] \/ valueType slot = Some "STRING" ->
      exists s, v = VString s)
  /\ (slot_options slot = [] -> valueType slot = Some "BOOLEAN" ->
      exists b, v = VBool b)
  /\ (slot_options slot = [] -> valueType slot = Some "INT" ->
      exists z : Z, v = VNumber (Fin (inject_Z z)))
  /\ (slot_options slot = [] -> valueType slot = Some "FLOAT" ->
      exists q, v = VNumber (Fin q)).
Proof.
  unfold resolveWidgetValue.
  destruct (nullish_or raw fb) as [value|]; [|done].
  destruct (is_null_or_not value) as [->|Hvalue]; [done|].
  assert (forall X (a b : X) , match value with VNull => a | _ => b end = b)
    as Hnot by (by destruct value).
  rewrite Hnot. clear Hnot.
  destruct (slot_options slot) as [|o os] eqn:Hoptions; simpl.
  2:{ intros [= <-]. split; [done|]. split; [by eexists|]. by repeat split. }
  destruct (valueType slot) as [type|] eqn:Htype.
  2:{ rewrite !bool_decide_eq_false_2 by done. intros [= <-].
      split; [done|]. split; [by intros [|]|]. by repeat split. }
  destruct (decide (type = "STRING")) as [->|Hs].
  { rewrite bool_decide_eq_true_2 by done. intros [= <-].
    split; [done|]. split; [by eexists|]. by repeat split. }
  rewrite (bool_decide_eq_false_2 (Some type = Some "STRING")) by congruence.
  destruct (decide (type = "BOOLEAN")) as [->|Hb].
  { rewrite bool_decide_eq_true_2 by done. intros Hv.
    assert (exists b, v = VBool b) as [b ->].
    { destruct value as [s|n|b|]; try done.
      - repeat case_decide; simplify_eq; by eexists.
      - simplify_eq. by eexists. }
    split; [done|]. split; [by intros [|]|]. split; [by eexists|].
    by split. }
  rewrite (bool_decide_eq_false_2 (Some type = Some "BOOLEAN")) by congruence.
  destruct (decide (type = "INT")) as [->|Hi].
  { rewrite bool_decide_eq_true_2 by done. intros Hv.
    destruct (resolveNumberValue value true) as [n|] eqn:Hn; [|done].
    simpl in Hv. injection Hv as <-.
    destruct (resolveNumberValue_integer _ _ Hn) as [z ->].
    split; [done|]. split; [by intros [|]|]. split; [done|].
    split; [by eexists|done]. }
  rewrite (bool_decide_eq_false_2 (Some type = Some "INT")) by congruence.
  destruct (decide (type = "FLOAT")) as [->|Hf].
  { rewrite bool_decide_eq_true_2 by done. intros Hv.
    destruct (resolveNumberValue value false) as [n|] eqn:Hn; [|done].
    simpl in Hv. injection Hv as <-.
    destruct (resolveNumberValue_finite _ _ _ Hn) as [q ->].
    split; [done|]. split; [by intros [|]|]. split; [done|].
    split; [done|by eexists]. }
  rewrite (bool_decide_eq_false_2 (Some type = Some "FLOAT")) by congruence.
  intros [= <-]. split; [done|].
  split; [intros [|]; congruence|].
  repeat split; intros; congruence.
Qed.

End ResolverExtras.

(** X2, witness: 7.9 on an INT slot resolves to 7, and 7 to itself. *)
Lemma resolver_is_idempotent_witness :
  let slot := widget_slot "steps" "INT" [] None in
  resolveWidgetValue (H := sample_host None) slot
    (Some (VNumber (Fin (79 # 10)))) None = Some (VNumber (Fin 7))
  /\ resolveWidgetValue (H := sample_host None) slot
       (Some (VNumber (Fin 7))) None = Some (VNumber (Fin 7)).
Proof.
  intros slot.
  assert (resolveWidgetValue (H := sample_host None) slot
            (Some (VNumber (Fin (79 # 10)))) None = Some (VNumber (Fin 7)))
    as Hfirst by reflexivity.
  split; [exact Hfirst|].
  exact (resolver_is_idempotent (H := sample_host None) slot _ None None _
           Hfirst).
Defined.

(** X3, witness: the text "TRUE" on a BOOLEAN slot gives a boolean. *)
Lemma resolver_output_is_typed_witness :
  exists b,
    resolveWidgetValue (H := sample_host None)
      (widget_slot "tiled" "BOOLEAN" [] None) (Some (VString "TRUE")) None
    = Some (VBool b).
Proof.
  destruct (resolver_output_is_typed (H := sample_host None)
              (widget_slot "tiled" "BOOLEAN" [] None)
              (Some (VString "TRUE")) None (VBool true) eq_refl)
    as (_ & _ & Hbool & _).
  destruct (Hbool eq_refl eq_refl) as [b Hb].
  exists b. by rewrite <- Hb.
Defined.

(** ** Request compiler: the three passes together *)

Lemma last_with_id_elem nodes id node :
  last_with_id nodes id = Some node -> node ∈ nodes /\ node_id node = id.
Proof.
  unfold last_with_id. intros Hfind. apply find_some in Hfind as [Hin Hid].
  apply bool_decide_eq_true in Hid.
  split; [|done]. apply list_elem_of_In. by apply in_rev.
Qed.

Lemma last_with_id_None nodes id :
  last_with_id nodes id = None <-> id ∉ node_id <$> nodes.
Proof.
  unfold last_with_id. split.
  - intros Hnone (node & -> & Hin)%list_elem_of_fmap.
    apply In_rev_elem in Hin.
    apply (find_none _ _ Hnone node) in Hin as Hfalse.
    by apply bool_decide_eq_false in Hfalse.
  - intros Hid.
    destruct (List.find _ (rev nodes)) as [node|] eqn:Hfind; [|done].
    apply last_with_id_elem in Hfind as [Hin <-].
    destruct Hid. apply list_elem_of_fmap. eauto.
Qed.

Lemma last_with_id_unique nodes node :
  NoDup (node_id <$> nodes) -> node ∈ nodes ->
  last_with_id nodes (node_id node) = Some node.
Proof.
  intros Hnodup Hin.
  destruct (last_with_id nodes (node_id node)) as [node'|] eqn:Hfind.
  - apply last_with_id_elem in Hfind as [Hin' Hid].
    f_equal.
    apply list_elem_of_lookup in Hin as [i Hi].
    apply list_elem_of_lookup in Hin' as [j Hj].
    assert (i = j) as ->; [|congruence].
    eapply NoDup_lookup; [exact Hnodup| |].
    + rewrite list_lookup_fmap, Hi. reflexivity.
    + rewrite list_lookup_fmap, Hj. simpl. by rewrite Hid.
  - apply last_with_id_None in Hfind. destruct Hfind.
    apply list_elem_of_fmap. eauto.
Qed.

Lemma last_typed_with_id_elem nodes id node :
  last_typed_with_id nodes id = Some node ->
  node ∈ nodes /\ node_id node = id /\ is_Some (node_type_of node).
Proof.
  unfold last_typed_with_id. intros Hfind.
  apply find_some in Hfind as [Hin Hid].
  apply andb_true_iff in Hid as [Hid Htyped].
  apply bool_decide_eq_true in Hid. apply bool_decide_eq_true in Htyped.
  split; [|done]. apply list_elem_of_In. by apply in_rev.
Qed.

Lemma last_typed_with_id_None nodes id node :
  last_typed_with_id nodes id = None ->
  node ∈ nodes -> node_id node = id -> node_type_of node = None.
Proof.
  unfold last_typed_with_id. intros Hnone Hin Hid.
  apply In_rev_elem in Hin.
  apply (find_none _ _ Hnone node) in Hin as Hfalse.
  apply andb_false_iff in Hfalse as [Hfalse|Hfalse].
  - by apply bool_decide_eq_false in Hfalse.
  - apply bool_decide_eq_false in Hfalse.
    destruct (node_type_of node); [|done]. by destruct Hfalse.
Qed.

Lemma last_typed_with_id_unique nodes node :
  NoDup (node_id <$> nodes) -> node ∈ nodes ->
  last_typed_with_id nodes (node_id node)
  = match node_type_of node with Some _ => Some node | None => None end.
Proof.
  intros Hnodup Hin.
  destruct (last_typed_with_id nodes (node_id node)) as [node'|] eqn:Hfind.
  - apply last_typed_with_id_elem in Hfind as (Hin' & Hid & Htyped).
    assert (node' = node) as ->.
    { pose proof (last_with_id_unique _ _ Hnodup Hin) as Hone.
      pose proof (last_with_id_unique _ _ Hnodup Hin') as Hother.
      rewrite Hid in Hother. congruence. }
    by destruct Htyped as [type ->].
  - by rewrite (last_typed_with_id_None _ _ _ Hfind Hin eq_refl).
Qed.

Section CompilerExtras.
Context `{Host}.
Variable nodeSchemas : gmap string NodeSchema.

Lemma compile_node_prompt st node :
  st_prompt (compile_node nodeSchemas st node)
  = match compiled_entry nodeSchemas node with
    | Some p => <[node_id node := p]> (st_prompt st)
    | None => st_prompt st
    end.
Proof.
  unfold compile_node, compiled_entry.
  destruct (node_type_of node) as [type|].
  - destruct (nodeSchemas !! type); simpl; [done|].
    by destruct (pushWarning_frame (set_nodeById st node)
                   (MissingSchema type (node_id node))
                   (Some ("missing-schema-" ++ node_id node)%string))
      as (-> & _).
  - by destruct (pushWarning_frame (set_nodeById st node)
                   (MissingType (node_id node))
                   (Some ("missing-type-" ++ node_id node)%string))
      as (-> & _).
Qed.

Lemma compiled_entry_typed node :
  is_Some (compiled_entry nodeSchemas node) <-> is_Some (node_type_of node).
Proof. unfold compiled_entry. by destruct (node_type_of node). Qed.

Lemma compiled_entry_class node p :
  compiled_entry nodeSchemas node = Some p ->
  node_type_of node = Some (class_type p).
Proof.
  unfold compiled_entry. destruct (node_type_of node); [|done].
  by intros [= <-].
Qed.

Lemma first_pass_nodeById nodes st id :
  st_nodeById (foldl (compile_node nodeSchemas) st nodes) !! id
  = match last_with_id nodes id with
    | Some node => Some node
    | None => st_nodeById st !! id
    end.
Proof.
  revert st. induction nodes as [|node nodes IH]; intros st; [done|].
  simpl foldl. rewrite IH. unfold last_with_id. simpl rev.
  rewrite find_append.
  destruct (List.find _ (rev nodes)); [done|]. simpl.
  rewrite compile_node_nodeById.
  case_bool_decide as Hid.
  - by rewrite Hid, lookup_insert_eq.
  - by rewrite lookup_insert_ne.
Qed.

Lemma first_pass_prompt nodes st id :
  st_prompt (foldl (compile_node nodeSchemas) st nodes) !! id
  = match last_typed_with_id nodes id with
    | Some node => compiled_entry nodeSchemas node
    | None => st_prompt st !! id
    end.
Proof.
  revert st. induction nodes as [|node nodes IH]; intros st; [done|].
  simpl foldl. rewrite IH. unfold last_typed_with_id. simpl rev.
  rewrite find_append.
  destruct (List.find _ (rev nodes)); [done|]. simpl.
  rewrite compile_node_prompt.
  pose proof (compiled_entry_typed node) as Htyped.
  case_bool_decide as Hid; simpl.
  - case_bool_decide as Hnode.
    + apply Htyped in Hnode as [p Hp]. rewrite Hp.
      by rewrite Hid, lookup_insert_eq.
    + destruct (compiled_entry nodeSchemas node) as [p|]; [|done].
      destruct Hnode. apply Htyped. eauto.
  - destruct (compiled_entry nodeSchemas node); [|done].
    by rewrite lookup_insert_ne.
Qed.

(** The second pass keeps the class of every entry. *)
Lemma wire_edge_class st edge id :
  class_type <$> (st_prompt (wire_edge nodeSchemas st edge) !! id)
  = class_type <$> (st_prompt st !! id).
Proof.
  rewrite wire_edge_prompt.
  destruct (edge_connection nodeSchemas _ _ edge) as [[[t s] c]|]; [|done].
  rewrite lookup_alter. case_decide as Hid; [|done].
  rewrite Hid. by destruct (st_prompt st !! id).
Qed.

Lemma wire_edges_class edges st id :
  class_type <$> (st_prompt (foldl (wire_edge nodeSchemas) st edges) !! id)
  = class_type <$> (st_prompt st !! id).
Proof.
  revert st. induction edges as [|edge edges IH]; intros st; [done|].
  simpl. by rewrite IH, wire_edge_class.
Qed.

(** X4: The compiled prompt has an entry under an id exactly when a node
    with that id and a type is listed, and an entry's [class_type] is the
    type of such a node; nodes without a type are left out. *)
Theorem prompt_entries_are_typed_nodes (nodes : list GraphNode)
    (edges : list GraphEdge) :
  let r := buildPromptFromGraph nodeSchemas nodes edges in
  (forall id,
      is_Some (prompt r !! id)
      <-> exists node,
            node ∈ nodes /\ node_id node = id /\ is_Some (node_type_of node))
  /\ (forall id p,
        prompt r !! id = Some p ->
        exists node,
          node ∈ nodes /\ node_id node = id
          /\ node_type_of node = Some (class_type p)).
Proof.
  intros r.
  set (st1 := foldl (compile_node nodeSchemas) initial_state nodes).
  set (st2 := foldl (wire_edge nodeSchemas) st1 edges).
  assert (prompt r = st_prompt st2) as ->
    by apply (check_nodes_frame nodeSchemas nodes st2).
  assert (forall id,
             class_type <$> (st_prompt st2 !! id)
             = match last_typed_with_id nodes id with
               | Some node => node_type_of node
               | None => None
               end) as Hclass.
  { intros id. unfold st2. rewrite wire_edges_class. unfold st1.
    rewrite first_pass_prompt.
    destruct (last_typed_with_id nodes id) as [node|]; [|done].
    unfold compiled_entry. by destruct (node_type_of node). }
  split.
  - intros id. specialize (Hclass id). split.
    + intros [p Hp]. rewrite Hp in Hclass.
      destruct (last_typed_with_id nodes id) as [node|] eqn:Hfind; [|done].
      exists node. by apply last_typed_with_id_elem.
    + intros (node & Hin & Hid & [type Htype]).
      destruct (last_typed_with_id nodes id) as [node'|] eqn:Hfind.
      * apply last_typed_with_id_elem in Hfind as (_ & _ & [type' Htype']).
        rewrite Htype' in Hclass.
        destruct (st_prompt st2 !! id); [eauto|done].
      * rewrite (last_typed_with_id_None _ _ _ Hfind Hin Hid) in Htype. done.
  - intros id p Hp. specialize (Hclass id). rewrite Hp in Hclass.
    destruct (last_typed_with_id nodes id) as [node|] eqn:Hfind; [|done].
    apply last_typed_with_id_elem in Hfind as (Hin & Hid & _).
    exists node. simpl in Hclass. by repeat split.
Qed.

(** An edge that is not usable leaves the state of the second pass as it
    is. *)
Lemma wire_edge_unusable nodes st edge :
  (forall id, is_Some (st_nodeById st !! id) -> id ∈ node_id <$> nodes) ->
  usable nodes edge = false ->
  wire_edge nodeSchemas st edge = st.
Proof.
  intros Hdom. unfold usable, wire_edge.
  destruct (truthy_string (edge_source edge)) as [source|]; [|done].
  destruct (truthy_string (edge_target edge)) as [target|]; [|done].
  destruct (parseHandleSlotName (sourceHandle edge) "out-"); [|done].
  destruct (parseHandleSlotName (targetHandle edge) "in-"); [|done].
  intros [Hs|Ht]%andb_false_iff.
  - apply bool_decide_eq_false in Hs.
    destruct (st_nodeById st !! source) eqn:Hlookup; [|done].
    destruct Hs. apply Hdom. eauto.
  - apply bool_decide_eq_false in Ht.
    destruct (st_nodeById st !! source); [|done].
    destruct (st_nodeById st !! target) eqn:Hlookup; [|done].
    destruct Ht. apply Hdom. eauto.
Qed.

Lemma wire_edges_usable nodes edges st :
  (forall id, is_Some (st_nodeById st !! id) -> id ∈ node_id <$> nodes) ->
  foldl (wire_edge nodeSchemas) st edges
  = foldl (wire_edge nodeSchemas) st (List.filter (usable nodes) edges).
Proof.
  revert st. induction edges as [|edge edges IH]; intros st Hdom; [done|].
  simpl. destruct (usable nodes edge) eqn:Husable.
  - simpl. apply IH. intros id.
    destruct (wire_edge_frame nodeSchemas st edge) as [-> _]. apply Hdom.
  - rewrite (wire_edge_unusable nodes st edge Hdom Husable). by apply IH.
Qed.

(** X5: Edges that lack an end, carry a handle that does not decode, or
    name a node that is not listed are ignored: the result (prompt, errors
    and warnings) is that of the remaining edges. *)
Theorem unusable_edges_are_ignored (nodes : list GraphNode)
    (edges : list GraphEdge) :
  buildPromptFromGraph nodeSchemas nodes edges
  = buildPromptFromGraph nodeSchemas nodes (List.filter (usable nodes) edges).
Proof.
  unfold buildPromptFromGraph.
  rewrite <- (wire_edges_usable nodes edges); [done|].
  intros id. rewrite first_pass_nodeById.
  destruct (last_with_id nodes id) as [node|] eqn:Hfind.
  - intros _. apply last_with_id_elem in Hfind as [Hin <-].
    apply list_elem_of_fmap. eauto.
  - simpl. rewrite lookup_empty. by intros [? ?].
Qed.

(** The errors are those of the third pass on the prompt returned. *)
Lemma build_errors nodes edges :
  let r := buildPromptFromGraph nodeSchemas nodes edges in
  errors r = nodes ≫= missing_required nodeSchemas (prompt r).
Proof.
  intros r. unfold r, buildPromptFromGraph. simpl.
  set (st1 := foldl (compile_node nodeSchemas) initial_state nodes).
  set (st2 := foldl (wire_edge nodeSchemas) st1 edges).
  rewrite check_nodes_errors.
  destruct (check_nodes_frame nodeSchemas nodes st2) as (-> & _).
  assert (st_errors st2 = []) as ->; [|done].
  unfold st2. destruct (wire_edges_frame nodeSchemas edges st1) as (_ & -> & _).
  unfold st1. by rewrite compile_nodes_errors.
Qed.

Lemma build_prompt nodes edges :
  prompt (buildPromptFromGraph nodeSchemas nodes edges)
  = st_prompt
      (foldl (wire_edge nodeSchemas)
         (foldl (compile_node nodeSchemas) initial_state nodes) edges).
Proof. apply check_nodes_frame. Qed.

(** An edge lands only on the slot it targets. *)
Lemma lands_on_targets nodes st compiled t s edge c :
  lands_on nodeSchemas
    (st_nodeById (foldl (compile_node nodeSchemas) st nodes)) compiled t s edge
  = Some c ->
  st_nodeById st = ∅ ->
  targets t s edge = true.
Proof.
  unfold lands_on, edge_connection, targets. intros Hlands Hempty.
  destruct (truthy_string (edge_source edge)) as [source|]; [|done].
  destruct (truthy_string (edge_target edge)) as [target|]; [|done].
  destruct (parseHandleSlotName (sourceHandle edge) "out-"); [|done].
  destruct (parseHandleSlotName (targetHandle edge) "in-") as [input|];
    [|done].
  simpl in Hlands.
  destruct (st_nodeById _ !! source) as [sourceNode|]; [|done].
  simpl in Hlands.
  destruct (st_nodeById _ !! target) as [targetNode|] eqn:Htarget; [|done].
  simpl in Hlands.
  rewrite first_pass_nodeById in Htarget.
  destruct (last_with_id nodes target) as [node|] eqn:Hfind.
  2:{ by rewrite Hempty, lookup_empty in Htarget. }
  injection Htarget as ->.
  apply last_with_id_elem in Hfind as [_ Hid].
  destruct (node_type_of sourceNode); [|done]. simpl in Hlands.
  destruct (nodeSchemas !! _); [|done]. simpl in Hlands.
  destruct (findIndex _ _); [|done]. simpl in Hlands.
  destruct (compiled !! _); [|done]. simpl in Hlands.
  case_decide as Hts; [|done]. destruct Hts as [<- <-].
  rewrite Hid. by rewrite !bool_decide_eq_true_2.
Qed.

Lemma landed_untargeted nodes compiled t s edges :
  Forall (fun edge => targets t s edge = false) edges ->
  landed nodeSchemas
    (st_nodeById (foldl (compile_node nodeSchemas) initial_state nodes))
    compiled t s edges = [].
Proof.
  unfold landed. induction 1 as [|edge edges Hedge _ IH]; [done|].
  csimpl.
  destruct (lands_on _ _ _ t s edge) as [c|] eqn:Hlands; [|exact IH].
  apply lands_on_targets in Hlands; [congruence|done].
Qed.

(** A slot that no edge targets keeps what the first pass stored. *)
Lemma untargeted_slot nodes edges node s :
  NoDup (node_id <$> nodes) -> node ∈ nodes ->
  Forall (fun edge => targets (node_id node) s edge = false) edges ->
  slot_value (prompt (buildPromptFromGraph nodeSchemas nodes edges))
    (node_id node) s
  = compiled_entry nodeSchemas node ≫= (fun p => inputs p !! s).
Proof.
  intros Hnodup Hin Hedges.
  rewrite build_prompt, wire_edges_slot, landed_untargeted by done.
  simpl. unfold slot_value. rewrite first_pass_prompt.
  rewrite last_typed_with_id_unique by done.
  destruct (node_type_of node) eqn:Htype; [done|].
  unfold compiled_entry. rewrite Htype. simpl. by rewrite lookup_empty.
Qed.








(** X8: A node whose type has no schema passes its stored values through
    under their own names, null values apart, wherever no edge targets the
    name. *)
Theorem schemaless_node_passes_values_through (nodes : list GraphNode)
    (edges : list GraphEdge) (node : GraphNode) (type name : string) :
  NoDup (node_id <$> nodes) ->
  node ∈ nodes ->
  node_type_of node = Some type ->
  nodeSchemas !! type = None ->
  Forall (fun edge => targets (node_id node) name edge = false) edges ->
  slot_value (prompt (buildPromptFromGraph nodeSchemas nodes edges))
    (node_id node) name
  = match widget_values_of node !! name with
    | None | Some VNull => None
    | Some value => Some (Literal value)
    end.
Proof.
  intros Hnodup Hin Htype Hschema Hedges.
  rewrite untargeted_slot by done.
  unfold compiled_entry. rewrite Htype, Hschema. simpl.
  unfold passthrough_inputs. rewrite lookup_omap.
  by destruct (widget_values_of node !! name) as [[]|].
Qed.

Lemma wire_edges_ext edges st st' :
  st_nodeById st = st_nodeById st' ->
  st_prompt st = st_prompt st' ->
  st_prompt (foldl (wire_edge nodeSchemas) st edges)
  = st_prompt (foldl (wire_edge nodeSchemas) st' edges).
Proof.
  revert st st'. induction edges as [|edge edges IH]; intros st st' Hn Hp;
    [done|].
  simpl. apply IH.
  - destruct (wire_edge_frame nodeSchemas st edge) as [-> _].
    by destruct (wire_edge_frame nodeSchemas st' edge) as [-> _].
  - by rewrite !wire_edge_prompt, Hn, Hp.
Qed.

(** X9: With distinct node ids the compiled prompt does not depend on the
    order in which the nodes are listed, and the errors are the same up to
    their order. *)
Theorem prompt_independent_of_node_order (nodes nodes' : list GraphNode)
    (edges : list GraphEdge) :
  NoDup (node_id <$> nodes) ->
  nodes ≡ₚ nodes' ->
  prompt (buildPromptFromGraph nodeSchemas nodes' edges)
  = prompt (buildPromptFromGraph nodeSchemas nodes edges)
  /\ errors (buildPromptFromGraph nodeSchemas nodes' edges)
     ≡ₚ errors (buildPromptFromGraph nodeSchemas nodes edges).
Proof.
  intros Hnodup Hperm.
  assert (NoDup (node_id <$> nodes')) as Hnodup' by by rewrite <- Hperm.
  assert (prompt (buildPromptFromGraph nodeSchemas nodes' edges)
          = prompt (buildPromptFromGraph nodeSchemas nodes edges)) as Hprompt.
  { rewrite !build_prompt. apply wire_edges_ext; apply map_eq; intros id.
    - rewrite !first_pass_nodeById.
      destruct (decide (id ∈ node_id <$> nodes)) as [Hid|Hid].
      + apply list_elem_of_fmap in Hid as (node & -> & Hin).
        rewrite !last_with_id_unique; try done. by rewrite <- Hperm.
      + rewrite (proj2 (last_with_id_None nodes id)) by done.
        rewrite (proj2 (last_with_id_None nodes' id)); [done|].
        by rewrite <- Hperm.
    - rewrite !first_pass_prompt.
      destruct (decide (id ∈ node_id <$> nodes)) as [Hid|Hid].
      + apply list_elem_of_fmap in Hid as (node & -> & Hin).
        rewrite !last_typed_with_id_unique; try done. by rewrite <- Hperm.
      + assert (forall l, l ≡ₚ nodes -> last_typed_with_id l id = None)
          as Hnone.
        { intros l Hl.
          destruct (last_typed_with_id l id) as [node|] eqn:Hfind; [|done].
          apply last_typed_with_id_elem in Hfind as (Hin & <- & _).
          destruct Hid. apply list_elem_of_fmap. exists node.
          by rewrite <- Hl. }
        by rewrite !Hnone. }
  split; [done|].
  rewrite !build_errors, Hprompt. by apply bind_Permutation.
Qed.

End CompilerExtras.



(** X8, witness: a node of an unknown type keeps its text and drops its
    null. *)
Lemma schemaless_node_passes_values_through_witness :
  let node :=
    mkGraphNode "x"
      (Some (mkNodeData (Some "Custom")
               (Some {[ "text" := VString "hi"; "skip" := VNull ]}) None)) in
  let r := buildPromptFromGraph (H := sample_host None) sample_schemas
             [node] [] in
  slot_value (prompt r) "x" "text" = Some (Literal (VString "hi"))
  /\ slot_value (prompt r) "x" "skip" = None.
Proof.
  intros node r. split.
  - etrans; [|reflexivity].
    apply (schemaless_node_passes_values_through (H := sample_host None)
             sample_schemas [node] [] node "Custom" "text").
    + apply (bool_decide_unpack _). by vm_compute.
    + apply list_elem_of_here.
    + reflexivity.
    + reflexivity.
    + constructor.
  - etrans; [|reflexivity].
    apply (schemaless_node_passes_values_through (H := sample_host None)
             sample_schemas [node] [] node "Custom" "skip").
    + apply (bool_decide_unpack _). by vm_compute.
    + apply list_elem_of_here.
    + reflexivity.
    + reflexivity.
    + constructor.
Defined.

(** X9, witness: the example's two nodes in either order. *)
Lemma prompt_independent_of_node_order_witness :
  prompt (buildPromptFromGraph (H := sample_host None) sample_schemas
            [sample_node "b" "B"; sample_node "a" "A"]
            [sample_edge "a" "IMAGE" "b" "image"])
  = prompt (buildPromptFromGraph (H := sample_host None) sample_schemas
              [sample_node "a" "A"; sample_node "b" "B"]
              [sample_edge "a" "IMAGE" "b" "image"]).
Proof.
  apply (prompt_independent_of_node_order (H := sample_host None)
           sample_schemas
           [sample_node "a" "A"; sample_node "b" "B"]
           [sample_node "b" "B"; sample_node "a" "A"]
           [sample_edge "a" "IMAGE" "b" "image"]).
  - apply (bool_decide_unpack _). by vm_compute.
  - apply perm_swap.
Defined.

(** ** Request compiler: the connections stored *)

Section StoredConnections.
Context `{Host}.
Variable nodeSchemas : gmap string NodeSchema.

Lemma edge_connection_source nodes compiled edge t s source index :
  edge_connection nodeSchemas
    (st_nodeById (foldl (compile_node nodeSchemas) initial_state nodes))
    compiled edge
  = Some (t, s, (source, index)) ->
  exists node type schema,
    node ∈ nodes /\ node_id node = source
    /\ node_type_of node = Some type
    /\ nodeSchemas !! type = Some schema
    /\ (index < length (schema_outputs schema))%nat.
Proof.
  unfold edge_connection. intros Hconnection.
  destruct (truthy_string (edge_source edge)) as [from|]; [|done].
  destruct (truthy_string (edge_target edge)) as [to|]; [|done].
  destruct (parseHandleSlotName (sourceHandle edge) "out-") as [output|];
    [|done].
  destruct (parseHandleSlotName (targetHandle edge) "in-") as [input|];
    [|done].
  simpl in Hconnection.
  destruct (st_nodeById _ !! from) as [sourceNode|] eqn:Hsource; [|done].
  simpl in Hconnection.
  destruct (st_nodeById _ !! to) as [targetNode|]; [|done].
  simpl in Hconnection.
  destruct (node_type_of sourceNode) as [type|] eqn:Htype; [|done].
  simpl in Hconnection.
  destruct (nodeSchemas !! type) as [schema|] eqn:Hschema; [|done].
  simpl in Hconnection.
  destruct (findIndex _ (schema_outputs schema)) as [outputIndex|] eqn:Hindex;
    [|done].
  simpl in Hconnection.
  destruct (compiled !! node_id targetNode); [|done].
  simpl in Hconnection. injection Hconnection as _ _ <- <-.
  rewrite first_pass_nodeById in Hsource.
  destruct (last_with_id nodes from) as [node|] eqn:Hfind;
    [|simpl in Hsource; by rewrite lookup_empty in Hsource].
  injection Hsource as ->.
  apply last_with_id_elem in Hfind as [Hin _].
  apply findIndex_Some in Hindex as (slot & Hslot & _).
  apply lookup_lt_Some in Hslot.
  exists sourceNode, type, schema. by repeat split.
Qed.

(** X10: Every connection stored in the compiled prompt names a listed
    node that has a type with a schema, and an output position that exists
    in that schema; and a list of connections is never stored with fewer
    than two elements. *)
Theorem stored_connections_reference_outputs (nodes : list GraphNode)
    (edges : list GraphEdge) (t s : string) (v : PromptInputValue) :
  slot_value (prompt (buildPromptFromGraph nodeSchemas nodes edges)) t s
  = Some v ->
  (forall cs, v = ConnectionList cs -> (2 <= length cs)%nat)
  /\ (forall source index,
        (source, index) ∈ connections_of v ->
        exists node type schema,
          node ∈ nodes /\ node_id node = source
          /\ node_type_of node = Some type
          /\ nodeSchemas !! type = Some schema
          /\ (index < length (schema_outputs schema))%nat).
Proof.
  rewrite build_prompt, wire_edges_slot.
  set (st1 := foldl (compile_node nodeSchemas) initial_state nodes).
  assert (forall v0, slot_value (st_prompt st1) t s = Some v0 ->
                     exists l, v0 = Literal l) as Hliteral.
  { intros v0 Hv0. unfold slot_value in Hv0.
    destruct (st_prompt st1 !! t) as [p|] eqn:Hp; [|done]. simpl in Hv0.
    eapply (compile_nodes_literal nodeSchemas nodes initial_state); [|done..].
    intros ? ? ? ? Hempty. simpl in Hempty. by rewrite lookup_empty in Hempty. }
  rewrite merge_all by done.
  assert (forall c,
             c ∈ landed nodeSchemas (st_nodeById st1) (st_prompt st1) t s edges ->
             exists node type schema,
               node ∈ nodes /\ node_id node = fst c
               /\ node_type_of node = Some type
               /\ nodeSchemas !! type = Some schema
               /\ (snd c < length (schema_outputs schema))%nat) as Hlanded.
  { intros [source index] Hc. unfold landed in Hc.
    apply list_elem_of_omap in Hc as (edge & _ & Hlands).
    unfold lands_on in Hlands.
    destruct (edge_connection nodeSchemas _ _ edge) as [[[t' s'] c']|] eqn:He;
      [|done].
    case_decide; [|done]. injection Hlands as ->.
    by eapply edge_connection_source. }
  destruct (landed nodeSchemas _ _ t s edges) as [|c0 [|c1 cs]] eqn:Hcs;
    simpl; intros Hv.
  - apply Hliteral in Hv as [l ->]. split; [done|].
    intros source index Hin. by apply elem_of_nil in Hin.
  - injection Hv as <-. split; [done|].
    intros source index Hin%list_elem_of_singleton.
    apply (Hlanded (source, index)). rewrite Hin. apply list_elem_of_here.
  - injection Hv as <-. split.
    + intros cs' [= <-]. simpl. lia.
    + intros source index Hin. by apply (Hlanded (source, index)).
Qed.

End StoredConnections.

(** X10, witness: the connection stored for the example's edge names node
    [a] and an output position of its schema. *)
Lemma stored_connections_reference_outputs_witness :
  exists node type schema,
    node ∈ [sample_node "a" "A"; sample_node "b" "B"]
    /\ node_id node = "a"
    /\ node_type_of node = Some type
    /\ sample_schemas !! type = Some schema
    /\ (0 < length (schema_outputs schema))%nat.
Proof.
  destruct (stored_connections_reference_outputs (H := sample_host None)
              sample_schemas [sample_node "a" "A"; sample_node "b" "B"]
              [sample_edge "a" "IMAGE" "b" "image"] "b" "image"
              (Connection ("a", 0%nat))) as [_ Hsource].
  - by vm_compute.
  - apply (Hsource "a" 0%nat). apply list_elem_of_here.
Defined.

(** ** Connection validator: cycles *)

Lemma link_snoc edges connection a b :
  link (edges ++ [connection]) a b
  <-> link edges a b
      \/ (truthy_string (edge_source connection) = Some a
          /\ truthy_string (edge_target connection) = Some b).
Proof.
  unfold link. split.
  - intros (edge & Hin & Hs & Ht).
    apply elem_of_app in Hin as [Hin|Hin]; [left; eauto|].
    apply list_elem_of_singleton in Hin as ->. by right.
  - intros [(edge & Hin & Hs & Ht)|[Hs Ht]].
    + exists edge. split; [|done]. apply elem_of_app. by left.
    + exists connection. split; [|done].
      apply elem_of_app. right. apply list_elem_of_here.
Qed.

(** A path over the edges and one more edge [s -> t] either avoids the new
    edge or reaches [s] and leaves from [t] over the old ones. *)
Lemma path_snoc edges connection s t a b :
  truthy_string (edge_source connection) = Some s ->
  truthy_string (edge_target connection) = Some t ->
  path (edges ++ [connection]) a b ->
  path edges a b \/ (path edges a s /\ path edges t b).
Proof.
  intros Hs Ht. unfold path. induction 1 as [a|a a' b Hstep _ IH].
  { left. apply rtc_refl. }
  apply link_snoc in Hstep as [Hold|[Hs' Ht']].
  - destruct IH as [IH|[IHs IHt]].
    + left. by eapply rtc_l.
    + right. split; [by eapply rtc_l|done].
  - assert (a = s) as -> by congruence.
    assert (a' = t) as -> by congruence.
    right. split; [apply rtc_refl|].
    by destruct IH as [IH|[_ IH]].
Qed.

Lemma acyclic_snoc edges connection s t :
  truthy_string (edge_source connection) = Some s ->
  truthy_string (edge_target connection) = Some t ->
  acyclic edges ->
  ~ path edges t s ->
  acyclic (edges ++ [connection]).
Proof.
  intros Hs Ht Hacyclic Hpath x Hcycle.
  assert (exists y, link (edges ++ [connection]) x y
                    /\ path (edges ++ [connection]) y x) as (y & Hstep & Hback).
  { inversion Hcycle as [? ? Hxy|? y ? Hxy Hyz]; subst.
    - exists x. split; [done|apply rtc_refl].
    - exists y. split; [done|by apply tc_rtc]. }
  apply (path_snoc edges connection s t _ _ Hs Ht) in Hback.
  apply link_snoc in Hstep as [Hold|[Hs' Ht']].
  - destruct Hback as [Hback|[Hys Htx]].
    + apply (Hacyclic x). eapply tc_rtc_r; [by apply tc_once|done].
    + apply Hpath. eapply rtc_trans; [exact Htx|].
      eapply rtc_l; [exact Hold|exact Hys].
  - assert (x = s) as -> by congruence.
    assert (y = t) as -> by congruence.
    by destruct Hback as [Hback|[Hback _]].
Qed.

Lemma path_nil a b : path [] a b -> a = b.
Proof.
  intros Hpath. apply rtc_inv in Hpath as [Heq|(y & (edge & Hin & _) & _)];
    [done|].
  by apply elem_of_nil in Hin.
Qed.

Lemma acyclic_nil : acyclic [].
Proof.
  assert (forall a b, ~ link [] a b) as Hnone.
  { intros a b (edge & Hin & _). by apply elem_of_nil in Hin. }
  intros x Hcycle.
  inversion Hcycle as [? ? Hxy|? ? ? Hxy _]; by apply Hnone in Hxy.
Qed.

Lemma createsCycle_false connection edges :
  createsCycle connection edges = Some false ->
  exists source target,
    truthy_string (edge_source connection) = Some source
    /\ truthy_string (edge_target connection) = Some target
    /\ source ≠ target
    /\ ~ path edges target source.
Proof.
  intros Hrun.
  destruct (createsCycle_spec connection edges) as (answer & Hanswer & Hiff).
  apply Hiff. congruence.
Qed.

(** X11: A connection the validator accepts can be added to an acyclic
    edge list without closing a cycle: connecting through the validator
    keeps the graph acyclic. *)
Theorem accepted_connection_keeps_graph_acyclic (nodes : list GraphNode)
    (nodeSchemas : gmap string NodeSchema) (connection : GraphEdge)
    (edges : list GraphEdge) :
  acyclic edges ->
  isConnectionValid nodes nodeSchemas connection edges = Some true ->
  acyclic (edges ++ [connection]).
Proof.
  intros Hacyclic. unfold isConnectionValid.
  destruct (resolveConnectionSlots nodes nodeSchemas connection); [|done].
  destruct (negb _); [done|].
  destruct (createsCycle connection edges) as [[|]|] eqn:Hcycle; try done.
  intros _.
  apply createsCycle_false in Hcycle as (s & t & Hs & Ht & _ & Hpath).
  by eapply acyclic_snoc.
Qed.

(** X12: On an acyclic edge list the cycle check has no false alarms: for
    a connection with both ends present it answers true exactly when adding
    the connection would close a cycle. *)
Theorem cycle_check_is_exact (connection : GraphEdge)
    (edges : list GraphEdge) (source target : string) :
  truthy_string (edge_source connection) = Some source ->
  truthy_string (edge_target connection) = Some target ->
  acyclic edges ->
  createsCycle connection edges = Some true
  <-> ~ acyclic (edges ++ [connection]).
Proof.
  intros Hs Ht Hacyclic.
  destruct (createsCycle_spec connection edges) as (answer & Hanswer & Hiff).
  rewrite Hanswer. split.
  - intros [= ->] Hafter.
    assert (true = false); [|done]. apply Hiff.
    assert (link (edges ++ [connection]) source target) as Hnew
      by (apply link_snoc; by right).
    exists source, target. repeat split; try done.
    + intros ->. apply (Hafter target). by apply tc_once.
    + intros Hpath. apply (Hafter source).
      eapply tc_rtc_r; [by apply tc_once|].
      eapply rtc_subrel; [|exact Hpath].
      intros a b Hab. apply link_snoc. by left.
  - intros Hafter. destruct answer; [done|]. destruct Hafter.
    destruct (proj1 Hiff eq_refl) as (s & t & Hs' & Ht' & _ & Hpath).
    by eapply acyclic_snoc.
Qed.

(** X13: The cycle check depends on the edges as a set: listing them in
    another order, or more than once, does not change its answer. *)
Theorem cycle_check_ignores_edge_order (connection : GraphEdge)
    (edges edges' : list GraphEdge) :
  (forall edge, edge ∈ edges <-> edge ∈ edges') ->
  createsCycle connection edges = createsCycle connection edges'.
Proof.
  intros Hsame.
  assert (forall a b, path edges a b <-> path edges' a b) as Hpath.
  { intros a b. split; apply rtc_subrel; intros x y (edge & Hin & Hends);
      exists edge; (split; [by apply Hsame|done]). }
  destruct (createsCycle_spec connection edges) as (answer & -> & Hiff).
  destruct (createsCycle_spec connection edges') as (answer' & -> & Hiff').
  f_equal.
  assert (answer = false <-> answer' = false) as Hanswers.
  { rewrite Hiff, Hiff'. split.
    - intros (s & t & Hs & Ht & Hne & Hp). exists s, t.
      repeat split; try done. by rewrite <- Hpath.
    - intros (s & t & Hs & Ht & Hne & Hp). exists s, t.
      repeat split; try done. by rewrite Hpath. }
  destruct answer, answer'; try done.
  - by apply Hanswers.
  - symmetry. by apply Hanswers.
Qed.

(** X11, witness: on the chain a -> b the validator accepts b -> c, and the
    three-node chain has no cycle. *)
Lemma accepted_connection_keeps_graph_acyclic_witness :
  acyclic ([sample_edge "a" "IMAGE" "b" "image"]
           ++ [sample_edge "b" "IMAGE" "c" "image"]).
Proof.
  apply (accepted_connection_keeps_graph_acyclic
           [sample_node "a" "A"; sample_node "b" "A"; sample_node "c" "B"]
           sample_schemas
           (sample_edge "b" "IMAGE" "c" "image")
           [sample_edge "a" "IMAGE" "b" "image"]).
  - change [sample_edge "a" "IMAGE" "b" "image"]
      with ([] ++ [sample_edge "a" "IMAGE" "b" "image"]).
    apply (acyclic_snoc [] _ "a" "b");
      [reflexivity|reflexivity|apply acyclic_nil|].
    by intros [=]%path_nil.
  - by vm_compute.
Defined.

(** X12, witness: on the chain a -> b the check flags b -> a, and adding
    it would close a cycle. *)
Lemma cycle_check_is_exact_witness :
  createsCycle (sample_edge "b" "IMAGE" "a" "image")
    [sample_edge "a" "IMAGE" "b" "image"] = Some true
  /\ ~ acyclic ([sample_edge "a" "IMAGE" "b" "image"]
                ++ [sample_edge "b" "IMAGE" "a" "image"]).
Proof.
  split; [by vm_compute|].
  apply (cycle_check_is_exact (sample_edge "b" "IMAGE" "a" "image")
           [sample_edge "a" "IMAGE" "b" "image"] "b" "a").
  - reflexivity.
  - reflexivity.
  - change [sample_edge "a" "IMAGE" "b" "image"]
      with ([] ++ [sample_edge "a" "IMAGE" "b" "image"]).
    apply (acyclic_snoc [] _ "a" "b");
      [reflexivity|reflexivity|apply acyclic_nil|].
    by intros [=]%path_nil.
  - by vm_compute.
Defined.

(** X13, witness: the example's edges in either order. *)
Lemma cycle_check_ignores_edge_order_witness :
  createsCycle (sample_edge "c" "IMAGE" "a" "image")
    [sample_edge "a" "IMAGE" "b" "image"; sample_edge "b" "IMAGE" "c" "image"]
  = createsCycle (sample_edge "c" "IMAGE" "a" "image")
      [sample_edge "b" "IMAGE" "c" "image"; sample_edge "a" "IMAGE" "b" "image"].
Proof.
  apply cycle_check_ignores_edge_order.
  intros edge. rewrite !elem_of_cons. tauto.
Defined.

(** ** Connection validator and request compiler together *)

Lemma merge_shape existing connection :
  mergePromptConnection existing connection = Connection connection
  \/ exists cs,
       mergePromptConnection existing connection
       = ConnectionList (cs ++ [connection]).
Proof.
  destruct existing as [[l|c0|cs]|]; simpl; [| | |by left].
  - left. by destruct (truthy_value l).
  - right. by exists [c0].
  - destruct cs as [|c0 cs]; [by left|]. right. by exists (c0 :: cs).
Qed.

Section ValidatorCompiler.
Context `{Host}.
Variable nodes : list GraphNode.
Variable nodeSchemas : gmap string NodeSchema.

(** X14: With distinct node ids and no schema registered under the empty
    name, a connection the validator accepts is one the compiler wires:
    compiled as the last edge, it is stored in the target slot (alone, or
    as the last element of the list) with the position of the named
    output, it adds no warning, and the target slot is not reported as a
    missing required input. *)
Theorem accepted_connection_is_wired (connection : GraphEdge)
    (edges : list GraphEdge) :
  NoDup (node_id <$> nodes) ->
  nodeSchemas !! "" = None ->
  isConnectionValid nodes nodeSchemas connection edges = Some true ->
  exists source target output input sourceNode type schema index,
    edge_source connection = Some source
    /\ edge_target connection = Some target
    /\ sourceHandle connection = Some ("out-" ++ output)%string
    /\ targetHandle connection = Some ("in-" ++ input)%string
    /\ sourceNode ∈ nodes
    /\ node_id sourceNode = source
    /\ node_type_of sourceNode = Some type
    /\ nodeSchemas !! type = Some schema
    /\ findIndex (fun slot => bool_decide (out_name slot = output))
         (schema_outputs schema) = Some index
    /\ let before := buildPromptFromGraph nodeSchemas nodes edges in
       let r := buildPromptFromGraph nodeSchemas nodes (edges ++ [connection]) in
       (slot_value (prompt r) target input = Some (Connection (source, index))
        \/ exists cs,
             slot_value (prompt r) target input
             = Some (ConnectionList (cs ++ [(source, index)])))
       /\ warnings r = warnings before
       /\ (forall display,
             MissingRequiredInput input display target ∉ errors r).
Proof.
  intros Hnodup Hempty. unfold isConnectionValid.
  destruct (resolveConnectionSlots nodes nodeSchemas connection)
    as [resolved|] eqn:Hresolved; [|done].
  intros _.
  apply resolveConnectionSlots_spec in Hresolved
    as (source & target & output & input & sourceType & targetType
        & Hs & Ht & [Hout Houtput] & [Hin Hinput] & Hfs & Hft & Hst & Htt
        & Hss & Hts & Hso & _).
  set (st1 := foldl (compile_node nodeSchemas) initial_state nodes).
  apply find_some in Hfs as [Hsn Hsid]. apply bool_decide_eq_true in Hsid.
  apply find_some in Hft as [Htn Htid]. apply bool_decide_eq_true in Htid.
  apply list_elem_of_In in Hsn, Htn.
  apply find_findIndex in Hso as (index & Hindex & _).
  assert (forall type, is_Some (nodeSchemas !! type) ->
            truthy_string (Some type) = Some type) as Htruthy.
  { intros [|a type] [schema Hschema]; [congruence|done]. }
  assert (node_type_of (sourceNode resolved) = Some sourceType) as Hstype.
  { unfold node_type_of. rewrite Hst. apply Htruthy. eauto. }
  assert (node_type_of (targetNode resolved) = Some targetType) as Httype.
  { unfold node_type_of. rewrite Htt. apply Htruthy. eauto. }
  assert (st_nodeById st1 !! source = Some (sourceNode resolved)) as Hsby.
  { unfold st1. rewrite first_pass_nodeById, <- Hsid.
    by rewrite last_with_id_unique. }
  assert (st_nodeById st1 !! target = Some (targetNode resolved)) as Htby.
  { unfold st1. rewrite first_pass_nodeById, <- Htid.
    by rewrite last_with_id_unique. }
  assert (is_Some (st_prompt st1 !! target)) as [targetPrompt Htp].
  { rewrite <- Htid. by eapply compile_nodes_typed. }
  assert (parseHandleSlotName (sourceHandle connection) "out-" = Some output)
    as Hpo by by apply parseHandleSlotName_decodes.
  assert (parseHandleSlotName (targetHandle connection) "in-" = Some input)
    as Hpi by by apply parseHandleSlotName_decodes.
  assert (forall compiled,
            is_Some (compiled !! target) ->
            edge_connection nodeSchemas (st_nodeById st1) compiled connection
            = Some (target, input, (source, index))) as Hconnection.
  { intros compiled [p Hp]. unfold edge_connection.
    rewrite Hs, Ht, Hpo, Hpi. simpl. rewrite Hsby, Htby. simpl.
    rewrite Hstype. simpl. rewrite Hss. simpl. rewrite Hindex. simpl.
    rewrite Htid, Hp. simpl. by rewrite Hsid. }
  assert (edge_warning nodeSchemas (st_nodeById st1) connection = None)
    as Hwarning.
  { unfold edge_warning.
    rewrite Hs, Ht, Hpo, Hpi. simpl. rewrite Hsby, Htby. simpl.
    rewrite Hstype. simpl. by rewrite Hss, Hindex. }
  apply truthy_string_Some in Hs as [Hs _].
  apply truthy_string_Some in Ht as [Ht _].
  exists source, target, output, input, (sourceNode resolved), sourceType,
    (sourceSchema resolved), index.
  do 9 (split; [done|]).
  set (r := buildPromptFromGraph nodeSchemas nodes (edges ++ [connection])).
  assert (exists v, slot_value (prompt r) target input
                    = Some (mergePromptConnection v (source, index)))
    as [v Hvalue].
  { unfold r. rewrite build_prompt. fold st1. rewrite wire_edges_slot.
    unfold landed. rewrite omap_app. simpl.
    unfold lands_on at 2. rewrite Hconnection by eauto.
    rewrite decide_True by done. rewrite foldl_snoc. eauto. }
  split; [|split].
  - rewrite Hvalue.
    destruct (merge_shape v (source, index)) as [->|[cs ->]]; eauto.
  - unfold r. rewrite !build_diagnostics. fold st1.
    rewrite omap_app. simpl. rewrite Hwarning. simpl.
    by rewrite app_nil_r.
  - intros display Herror. unfold r in Herror. rewrite build_errors in Herror.
    fold r in Herror.
    apply list_elem_of_bind in Herror as (node & Herror & Hnode).
    unfold missing_required in Herror.
    destruct (node_type_of node) as [type|]; [|by apply elem_of_nil in Herror].
    destruct (nodeSchemas !! type) as [schema|];
      [|by apply elem_of_nil in Herror].
    destruct (prompt r !! node_id node) as [promptNode|] eqn:Hprompt;
      [|by apply elem_of_nil in Herror].
    apply list_elem_of_bind in Herror as (slot & Herror & Hslot).
    unfold slot_error in Herror.
    destruct (slot_group slot); try by apply elem_of_nil in Herror.
    case_decide as Hmissing; [by apply elem_of_nil in Herror|].
    apply list_elem_of_singleton in Herror. injection Herror as Hi _ Hn.
    destruct Hmissing. unfold slot_value in Hvalue.
    rewrite Hn, Hprompt in Hvalue. simpl in Hvalue. rewrite <- Hi. eauto.
Qed.

End ValidatorCompiler.

(** X14, witness: the example's connection a -> b is accepted on an empty
    canvas and the compiler stores it in [image]. *)
Lemma accepted_connection_is_wired_witness :
  exists index,
    slot_value
      (prompt (buildPromptFromGraph (H := sample_host None) sample_schemas
                 [sample_node "a" "A"; sample_node "b" "B"]
                 ([] ++ [sample_edge "a" "IMAGE" "b" "image"])))
      "b" "image"
    = Some (Connection ("a", index)).
Proof.
  destruct (accepted_connection_is_wired (H := sample_host None)
              [sample_node "a" "A"; sample_node "b" "B"] sample_schemas
              (sample_edge "a" "IMAGE" "b" "image") [])
    as (source & target & output & input & sourceNode & type & schema & index
        & Hs & Ht & Ho & Hi & _ & _ & _ & _ & _ & Hvalue & _).
  - apply (bool_decide_unpack _). by vm_compute.
  - reflexivity.
  - reflexivity.
  - vm_compute in Hs, Ht, Hi.
    injection Hs as <-. injection Ht as <-. injection Hi as <-.
    exists index. destruct Hvalue as [Hvalue|[cs Hvalue]]; [exact Hvalue|].
    vm_compute in Hvalue. injection Hvalue as Hvalue.
    by destruct cs.
Defined.

(** ** Control-field engine: select fields *)

Lemma indexOf_NoDup options current i :
  NoDup options -> options !! i = Some current ->
  indexOf options current = Z.of_nat i.
Proof.
  intros Hnodup Hi. unfold indexOf.
  destruct (findIndex _ options) as [k|] eqn:Hfind.
  - apply findIndex_Some in Hfind as (x & Hk & Hx & _).
    apply bool_decide_eq_true in Hx as ->.
    f_equal. by eapply NoDup_lookup.
  - assert (bool_decide (current = current) = false) as Hfalse.
    { apply (proj1 (findIndex_None _ _) Hfind current).
      by eapply list_elem_of_lookup_2. }
    by rewrite bool_decide_eq_true_2 in Hfalse.
Qed.

Lemma indexOf_absent options current :
  current ∉ options -> indexOf options current = (-1)%Z.
Proof.
  intros Habsent. unfold indexOf.
  destruct (findIndex _ options) as [k|] eqn:Hfind; [|done].
  apply findIndex_Some in Hfind as (x & Hk & Hx & _).
  apply bool_decide_eq_true in Hx as ->.
  destruct Habsent. by eapply list_elem_of_lookup_2.
Qed.

Lemma indexOf_range options current :
  (-1 <= indexOf options current < Z.of_nat (length options))%Z.
Proof.
  unfold indexOf.
  destruct (findIndex _ options) as [k|] eqn:Hfind; [|lia].
  apply findIndex_Some in Hfind as (x & Hk & _).
  apply lookup_lt_Some in Hk. lia.
Qed.

Section SelectControl.
Variable random : nat -> Q.

(** X15: Under any control but [fixed], a select field with options is
    always given one of its options, whatever the stored value, the default
    and the random draw; under [fixed] or without options the field is left
    alone and no draw is made. *)
Theorem select_control_stays_in_options (cursor : nat)
    (controlValue : WidgetControlValue) (widgetSpec : WidgetSpec)
    (rawValue : option WidgetValue) :
  let options := default [] (widget_options widgetSpec) in
  let r := applySelectControl random cursor controlValue widgetSpec rawValue in
  (controlValue = Fixed \/ options = [] -> r = (None, cursor))
  /\ (controlValue ≠ Fixed -> options ≠ [] ->
      exists option, fst r = Some option /\ option ∈ options).
Proof.
  intros options r. subst r options. unfold applySelectControl. split.
  - intros [-> | ->]; [done|]. by destruct controlValue.
  - intros Hcontrol Hoptions.
    destruct (default [] (widget_options widgetSpec)) as [|first rest];
      [done|].
    clear Hoptions. set (options := first :: rest).
    assert (0 < length options)%nat as Hlength by (simpl; lia).
    assert (forall (index : Z) (cursor' : nat),
               exists option,
                 fst (options !! Z.to_nat
                                    (Z.max 0 (Z.min (Z.of_nat (length options) - 1)
                                                index)), cursor')
                 = Some option /\ option ∈ options) as Hlookup.
    { intros index cursor'. simpl fst.
      destruct (options !! Z.to_nat
                  (Z.max 0 (Z.min (Z.of_nat (length options) - 1) index)))
        as [option|] eqn:Hoption.
      - exists option. split; [done|]. by eapply list_elem_of_lookup_2.
      - apply lookup_ge_None in Hoption. lia. }
    destruct controlValue; [done|apply Hlookup..].
Qed.

(** Stepping from the position [indexOf] finds. *)
Lemma select_steps cursor widgetSpec options current i :
  widget_options widgetSpec = Some options ->
  options ≠ [] ->
  indexOf options current = Z.of_nat i ->
  applySelectControl random cursor Increment widgetSpec
    (Some (VString current))
  = (options !! Nat.min (S i) (length options - 1), cursor)
  /\ applySelectControl random cursor Decrement widgetSpec
       (Some (VString current))
     = (options !! Nat.pred i, cursor).
Proof.
  intros Hoptions Hnonempty Hi. unfold applySelectControl.
  rewrite Hoptions. change (default [] (Some options)) with options.
  pose proof (indexOf_range options current) as Hrange.
  destruct options as [|first rest] eqn:Heq; [done|].
  cbv beta iota zeta. rewrite <- Heq in *. rewrite Hi in *.
  destruct (Z.of_nat i <? 0)%Z eqn:Hneg; [lia|].
  split; do 2 f_equal; lia.
Qed.

(** X16: Stepping through distinct options moves to the neighbouring
    option and stops at the ends: [increment] on the last option and
    [decrement] on the first leave the field where it is (no wrap-around);
    no random draw is made. *)
Theorem select_control_steps_without_wrapping (cursor : nat)
    (widgetSpec : WidgetSpec) (options : list string) (current : string)
    (i : nat) :
  widget_options widgetSpec = Some options ->
  NoDup options ->
  options !! i = Some current ->
  applySelectControl random cursor Increment widgetSpec
    (Some (VString current))
  = (options !! Nat.min (S i) (length options - 1), cursor)
  /\ applySelectControl random cursor Decrement widgetSpec
       (Some (VString current))
     = (options !! Nat.pred i, cursor).
Proof.
  intros Hoptions Hnodup Hi.
  apply select_steps; [done| |by apply indexOf_NoDup].
  intros ->. by rewrite lookup_nil in Hi.
Qed.

(** X17: On distinct options, [increment] followed by [decrement] brings
    a select field back to the option it started from, unless it started
    on the last one. *)
Theorem select_increment_then_decrement (cursor : nat)
    (widgetSpec : WidgetSpec) (options : list string) (current : string)
    (i : nat) :
  widget_options widgetSpec = Some options ->
  NoDup options ->
  options !! i = Some current ->
  (S i < length options)%nat ->
  exists next,
    applySelectControl random cursor Increment widgetSpec
      (Some (VString current)) = (Some next, cursor)
    /\ applySelectControl random cursor Decrement widgetSpec
         (Some (VString next)) = (Some current, cursor).
Proof.
  intros Hoptions Hnodup Hi Hlt.
  destruct (options !! S i) as [next|] eqn:Hnext;
    [|apply lookup_ge_None in Hnext; lia].
  exists next.
  assert (options ≠ []) as Hnonempty.
  { intros ->. by rewrite lookup_nil in Hi. }
  destruct (select_steps cursor widgetSpec options current i Hoptions Hnonempty
              (indexOf_NoDup _ _ _ Hnodup Hi)) as [-> _].
  destruct (select_steps cursor widgetSpec options next (S i) Hoptions
              Hnonempty (indexOf_NoDup _ _ _ Hnodup Hnext)) as [_ ->].
  replace (Nat.min (S i) (length options - 1)) with (S i) by lia.
  simpl. by rewrite Hnext, Hi.
Qed.

(** X18: A stored value that is not among the options counts as the first
    option: [increment] then gives the second option (the only one when
    there is no second) and [decrement] the first. *)
Theorem select_control_unknown_value_starts_at_first (cursor : nat)
    (widgetSpec : WidgetSpec) (options : list string) (current : string) :
  widget_options widgetSpec = Some options ->
  options ≠ [] ->
  current ∉ options ->
  applySelectControl random cursor Increment widgetSpec
    (Some (VString current))
  = (options !! Nat.min 1 (length options - 1), cursor)
  /\ applySelectControl random cursor Decrement widgetSpec
       (Some (VString current))
     = (options !! 0%nat, cursor).
Proof.
  intros Hoptions Hnonempty Habsent. unfold applySelectControl.
  rewrite Hoptions. change (default [] (Some options)) with options.
  destruct options as [|first rest] eqn:Heq; [done|].
  cbv beta iota zeta. rewrite <- Heq in *.
  rewrite (indexOf_absent options current) by done.
  change (-1 <? 0)%Z with true. cbv iota.
  assert (0 < length options)%nat as Hlength by (rewrite Heq; simpl; lia).
  split; do 2 f_equal; lia.
Qed.

End SelectControl.


(** X15, witness: a draw outside [0, 1) still lands on an option. *)
Lemma select_control_stays_in_options_witness :
  exists option,
    fst (applySelectControl (fun _ => 7%Q) 0 Randomize
           (mkWidgetSpec KSelect None (Some ["euler"; "heun"; "lms"]))
           (Some (VString "euler")))
    = Some option
    /\ option ∈ ["euler"; "heun"; "lms"].
Proof.
  apply (select_control_stays_in_options
           (fun _ => 7%Q) 0 Randomize
           (mkWidgetSpec KSelect None (Some ["euler"; "heun"; "lms"]))
           (Some (VString "euler"))); done.
Defined.

(** X16, witness: from the last of three options [increment] stays and
    [decrement] goes to the second. *)
Lemma select_control_steps_without_wrapping_witness :
  let spec := mkWidgetSpec KSelect None (Some ["euler"; "heun"; "lms"]) in
  applySelectControl (fun _ => 0%Q) 0 Increment spec
    (Some (VString "lms")) = (Some "lms", 0%nat)
  /\ applySelectControl (fun _ => 0%Q) 0 Decrement spec
       (Some (VString "lms")) = (Some "heun", 0%nat).
Proof.
  intros spec.
  apply (select_control_steps_without_wrapping
           (fun _ => 0%Q) 0 spec ["euler"; "heun"; "lms"] "lms" 2).
  - reflexivity.
  - apply (bool_decide_unpack _). by vm_compute.
  - reflexivity.
Defined.

(** X18, witness: an unknown sampler name steps to the second option. *)
Lemma select_control_unknown_value_starts_at_first_witness :
  let spec := mkWidgetSpec KSelect None (Some ["euler"; "heun"; "lms"]) in
  applySelectControl (fun _ => 0%Q) 0 Increment spec
    (Some (VString "ddim")) = (Some "heun", 0%nat)
  /\ applySelectControl (fun _ => 0%Q) 0 Decrement spec
       (Some (VString "ddim")) = (Some "euler", 0%nat).
Proof.
  intros spec.
  apply (select_control_unknown_value_starts_at_first
           (fun _ => 0%Q) 0 spec ["euler"; "heun"; "lms"] "ddim").
  - reflexivity.
  - done.
  - apply (bool_decide_unpack _). by vm_compute.
Defined.


(** X17, witness: from [heun] to [lms] and back. *)
Lemma select_increment_then_decrement_witness :
  let spec := mkWidgetSpec KSelect None (Some ["euler"; "heun"; "lms"]) in
  exists next,
    applySelectControl (fun _ => 0%Q) 0 Increment spec (Some (VString "heun"))
    = (Some next, 0%nat)
    /\ applySelectControl (fun _ => 0%Q) 0 Decrement spec (Some (VString next))
       = (Some "heun", 0%nat).
Proof.
  intros spec.
  apply (select_increment_then_decrement (fun _ => 0%Q) 0 spec
           ["euler"; "heun"; "lms"] "heun" 1).
  - reflexivity.
  - apply (bool_decide_unpack _). by vm_compute.
  - reflexivity.
  - simpl. lia.
Defined.

(** ** Control-field engine: numeric fields *)

Lemma Qtrunc_above (z : Z) (y : Q) :
  (inject_Z z <= y)%Q -> (z <= Js.Qtrunc y)%Z.
Proof.
  intros Hle. destruct (Qlt_le_dec y 0) as [Hneg|Hpos].
  - rewrite Qtrunc_nonpos by lra. rewrite Zle_Qle.
    pose proof (Qle_ceiling y). lra.
  - rewrite Qtrunc_nonneg by done.
    rewrite <- (Qfloor_Z z). by apply Qfloor_resp_le.
Qed.

Lemma Qtrunc_below (z : Z) (y : Q) :
  (y <= inject_Z z)%Q -> (Js.Qtrunc y <= z)%Z.
Proof.
  intros Hle. destruct (Qlt_le_dec y 0) as [Hneg|Hpos].
  - rewrite Qtrunc_nonpos by lra.
    rewrite <- (Qceiling_Z z). by apply Qceiling_resp_le.
  - rewrite Qtrunc_nonneg by done. rewrite Zle_Qle.
    pose proof (Qfloor_le y). lra.
Qed.

Section NumberExtras.
Context `{Host}.

(** X20: With a finite default the bounds of a numeric field are finite
    and ordered, the lower one is at least -2^50, and the upper one is at
    most 2^50 unless it was raised to the lower one; declared bounds within
    that range are used as they are, in either order. *)
Theorem number_bounds_are_ordered_and_capped (slot : InputSlot) (d s : Q) :
  exists lo hi,
    resolveNumberBounds slot (Fin d) (Fin s) = (Fin lo, Fin hi)
    /\ (lo <= hi)%Q
    /\ (- 1125899906842624 <= lo)%Q
    /\ ((hi <= 1125899906842624)%Q \/ hi = lo)
    /\ (forall a b,
          slot_config slot ≫= cfg_min = Some (VNumber (Fin a)) ->
          slot_config slot ≫= cfg_max = Some (VNumber (Fin b)) ->
          (- 1125899906842624 <= a <= 1125899906842624)%Q ->
          (- 1125899906842624 <= b <= 1125899906842624)%Q ->
          ((a <= b)%Q -> (lo == a)%Q /\ (hi == b)%Q)
          /\ ((b <= a)%Q -> (lo == b)%Q /\ (hi == a)%Q)).
Proof.
  unfold resolveNumberBounds, MAX_RANDOM_RANGE.
  destruct (finite_number (slot_config slot ≫= cfg_min)) as [n|] eqn:Hmin;
    [pose proof Hmin as Hmin'; apply finite_number_Fin in Hmin' as [a' ->]|];
    (destruct (finite_number (slot_config slot ≫= cfg_max)) as [m|] eqn:Hmax;
     [pose proof Hmax as Hmax'; apply finite_number_Fin in Hmax' as [b' ->]|]);
    simpl; unfold Js.max, Js.min, Js.lt;
    repeat (match goal with
            | |- context [Js.Qltb ?x ?y] => destruct (Js.Qltb x y) eqn:?
            end; simpl);
    eexists _, _; (split; [reflexivity|]); qltb;
    (split; [lra|]); (split; [lra|]); (split; [(by right) || (left; lra)|]);
    intros a b Ha Hb Hra Hrb; rewrite Ha in Hmin; rewrite Hb in Hmax;
    simpl in Hmin, Hmax; simplify_eq;
    (split; intros ?; split; lra).
Qed.

(** X21: A numeric field that lies within its bounds never moves against
    its control: [increment] gives a value that is not below the current
    one and [decrement] one that is not above it, also after truncation on
    INT fields. *)
Theorem number_control_moves_in_its_direction (random : nat -> Q)
    (cursor : nat) (slot : InputSlot) (widgetSpec : WidgetSpec)
    (raw : option WidgetValue) (d s lo hi c : Q) :
  default_number widgetSpec = Fin d ->
  resolveNumberStep slot = Fin s ->
  resolveNumberBounds slot (Fin d) (Fin s) = (Fin lo, Fin hi) ->
  resolveNumericValue raw (Fin d) (bool_decide (valueType slot = Some "INT"))
  = Fin c ->
  (lo <= c <= hi)%Q ->
  exists up down,
    applyNumberControl random cursor Increment slot widgetSpec raw
    = (Some (Fin up), cursor)
    /\ applyNumberControl random cursor Decrement slot widgetSpec raw
       = (Some (Fin down), cursor)
    /\ (down <= c <= up)%Q.
Proof.
  intros Hd Hs Hb Hc Hrange.
  destruct (resolveNumberStep_positive slot) as (s' & Hs' & Hpositive).
  assert (s' = s) as -> by congruence.
  assert (lo <= hi)%Q as Hle by lra.
  rewrite <- Hd in Hb, Hc.
  destruct (applyNumberControl_step random cursor slot widgetSpec raw
              s lo hi c Hs Hb Hle Hc) as [-> ->].
  eexists _, _. split; [reflexivity|]. split; [reflexivity|].
  assert (c <= clamp lo hi (c + s))%Q as Hup.
  { unfold clamp.
    destruct (Js.Qltb (c + s) lo) eqn:?; [|destruct (Js.Qltb hi (c + s)) eqn:?];
      qltb; lra. }
  assert (clamp lo hi (c - s) <= c)%Q as Hdown.
  { unfold clamp.
    destruct (Js.Qltb (c - s) lo) eqn:?; [|destruct (Js.Qltb hi (c - s)) eqn:?];
      qltb; lra. }
  destruct (bool_decide (valueType slot = Some "INT")) eqn:Hint;
    [|by split].
  assert (exists z : Z, c = inject_Z z) as [z ->].
  { rewrite Hd in Hc. unfold resolveNumericValue in Hc.
    destruct raw as [[t|n| |]|]; simpl in Hc;
      try (destruct (Number_of_string t)); try destruct n; simpl in Hc;
      injection Hc as <-; by eexists. }
  unfold truncate_if. split.
  - rewrite <- Zle_Qle. by apply Qtrunc_below.
  - rewrite <- Zle_Qle. by apply Qtrunc_above.
Qed.

End NumberExtras.

(** X21, witness: an INT seed of 5 in [0, 10] with step 1 goes to 6 and
    to 4. *)
Lemma number_control_moves_in_its_direction_witness :
  exists up down,
    applyNumberControl (H := sample_host None) (fun _ => 0%Q) 0 Increment
      seed_slot (mkWidgetSpec KNumber None None) (Some (VNumber (Fin 5)))
    = (Some (Fin up), 0%nat)
    /\ applyNumberControl (H := sample_host None) (fun _ => 0%Q) 0 Decrement
         seed_slot (mkWidgetSpec KNumber None None) (Some (VNumber (Fin 5)))
       = (Some (Fin down), 0%nat)
    /\ (down <= 5 <= up)%Q.
Proof.
  apply (number_control_moves_in_its_direction (H := sample_host None)
           (fun _ => 0%Q) 0 seed_slot (mkWidgetSpec KNumber None None)
           (Some (VNumber (Fin 5))) 0 1 0 10 5).
  - reflexivity.
  - reflexivity.
  - reflexivity.
  - reflexivity.
  - split; by vm_compute.
Defined.

(** ** Control-field engine: round trip and randomize *)

Section NumberRoundTrip.
Context `{Host}.
Variable random : nat -> Q.

Lemma clamp_inside lo hi x : (lo <= x <= hi)%Q -> clamp lo hi x = x.
Proof.
  intros [Hlo Hhi]. unfold clamp.
  rewrite (proj2 (Qltb_ge x lo)) by done.
  by rewrite (proj2 (Qltb_ge hi x)) by done.
Qed.

(** In exact arithmetic [increment] followed by [decrement] returns to
    the start, when the step up stays within the bounds. *)
Lemma increment_then_decrement (cursor : nat) (slot : InputSlot)
    (widgetSpec : WidgetSpec) (raw : option WidgetValue) (d s lo hi c : Q) :
  default_number widgetSpec = Fin d ->
  resolveNumberStep slot = Fin s ->
  resolveNumberBounds slot (Fin d) (Fin s) = (Fin lo, Fin hi) ->
  resolveNumericValue raw (Fin d) (bool_decide (valueType slot = Some "INT"))
  = Fin c ->
  (lo <= c)%Q ->
  (c + s <= hi)%Q ->
  (valueType slot = Some "INT" -> exists z : Z, (s == inject_Z z)%Q) ->
  exists up back,
    applyNumberControl random cursor Increment slot widgetSpec raw
    = (Some (Fin up), cursor)
    /\ applyNumberControl random cursor Decrement slot widgetSpec
         (Some (VNumber (Fin up)))
       = (Some (Fin back), cursor)
    /\ (up == c + s)%Q
    /\ (back == c)%Q.
Proof.
  intros Hd Hs Hb Hc Hlo Hhi Hstep.
  destruct (resolveNumberStep_positive slot) as (s' & Hs' & Hpositive).
  assert (s' = s) as -> by congruence.
  set (isInteger := bool_decide (valueType slot = Some "INT")) in *.
  assert (isInteger = true ->
          exists zc zs : Z, c = inject_Z zc /\ (s == inject_Z zs)%Q)
    as Hintegers.
  { intros Hint. destruct Hstep as [zs Hzs].
    { by apply bool_decide_eq_true in Hint. }
    rewrite Hint in Hc. unfold resolveNumericValue in Hc.
    assert (exists zc, c = inject_Z zc) as [zc ->]; [|by eauto].
    destruct raw as [[t|n| |]|]; simpl in Hc;
      try (destruct (Number_of_string t)); try destruct n; simpl in Hc;
      injection Hc as <-; by eexists. }
  assert (lo <= hi)%Q as Hle by lra.
  rewrite <- Hd in Hb, Hc.
  destruct (applyNumberControl_step random cursor slot widgetSpec raw
              s lo hi c Hs Hb Hle Hc) as [Hup _].
  fold isInteger in Hup. rewrite clamp_inside in Hup by lra.
  set (up := truncate_if isInteger (c + s)) in *.
  assert (up == c + s)%Q as Hup_eq.
  { unfold up. destruct isInteger eqn:Hint; [|reflexivity].
    destruct (Hintegers eq_refl) as (zc & zs & -> & Hzs).
    apply (truncate_if_integer true _ (zc + zs)).
    rewrite inject_Z_plus, Hzs. reflexivity. }
  set (c2 := truncate_if isInteger up).
  assert (c2 == up)%Q as Hc2_eq.
  { unfold c2. destruct isInteger eqn:Hint; [|reflexivity].
    destruct (Hintegers eq_refl) as (zc & zs & -> & Hzs).
    apply (truncate_if_integer true _ (zc + zs)).
    rewrite Hup_eq, inject_Z_plus, Hzs. reflexivity. }
  assert (resolveNumericValue (Some (VNumber (Fin up)))
            (default_number widgetSpec) isInteger = Fin c2) as Hc2.
  { unfold resolveNumericValue, c2, truncate_if. simpl.
    by destruct isInteger. }
  destruct (applyNumberControl_step random cursor slot widgetSpec
              (Some (VNumber (Fin up))) s lo hi c2 Hs Hb Hle Hc2)
    as [_ Hdown].
  fold isInteger in Hdown. rewrite clamp_inside in Hdown by lra.
  exists up, (truncate_if isInteger (c2 - s)).
  split; [done|]. split; [done|]. split; [done|].
  destruct isInteger eqn:Hint; [|simpl; lra].
  destruct (Hintegers eq_refl) as (zc & zs & -> & Hzs).
  rewrite (truncate_if_integer true _ zc); lra.
Qed.

Lemma resolveNumberBounds_capped slot d s lo hi :
  resolveNumberBounds slot (Fin d) (Fin s) = (Fin lo, Fin hi) ->
  (- 1125899906842624 <= lo)%Q /\ ((hi <= 1125899906842624)%Q \/ hi = lo).
Proof.
  unfold resolveNumberBounds, MAX_RANDOM_RANGE.
  destruct (finite_number (slot_config slot ≫= cfg_min)) as [n|] eqn:Hmin;
    [apply finite_number_Fin in Hmin as [a' ->]|];
    (destruct (finite_number (slot_config slot ≫= cfg_max)) as [m|] eqn:Hmax;
     [apply finite_number_Fin in Hmax as [b' ->]|]);
    simpl; unfold Js.max, Js.min, Js.lt;
    repeat (match goal with
            | |- context [Js.Qltb ?x ?y] => destruct (Js.Qltb x y) eqn:?
            end; simpl);
    intros [= <- <-]; qltb;
    (split; [lra|]); (by right) || (left; lra).
Qed.

(** X22: On an INT field with an integer step, [increment] followed by
    [decrement] brings the field back to the value it started from,
    provided the start is not below the lower bound and the step up does
    not pass the upper one. The values involved are integers between -2^50
    and 2^50. *)
Theorem number_increment_then_decrement (cursor : nat) (slot : InputSlot)
    (widgetSpec : WidgetSpec) (raw : option WidgetValue) (d s lo hi c : Q)
    (z : Z) :
  default_number widgetSpec = Fin d ->
  valueType slot = Some "INT" ->
  resolveNumberStep slot = Fin s ->
  (s == inject_Z z)%Q ->
  resolveNumberBounds slot (Fin d) (Fin s) = (Fin lo, Fin hi) ->
  resolveNumericValue raw (Fin d) true = Fin c ->
  (lo <= c)%Q ->
  (c + s <= hi)%Q ->
  exists up back,
    applyNumberControl random cursor Increment slot widgetSpec raw
    = (Some (Fin up), cursor)
    /\ applyNumberControl random cursor Decrement slot widgetSpec
         (Some (VNumber (Fin up)))
       = (Some (Fin back), cursor)
    /\ (up == c + s)%Q
    /\ (back == c)%Q
    /\ (- 1125899906842624 <= c)%Q
    /\ (up <= 1125899906842624)%Q.
Proof.
  intros Hd Hint Hs Hz Hb Hc Hlo Hhi.
  destruct (resolveNumberStep_positive slot) as (s' & Hs' & Hpositive).
  assert (s' = s) as -> by congruence.
  destruct (resolveNumberBounds_capped slot d s lo hi Hb) as [Hlow Hhigh].
  destruct (increment_then_decrement cursor slot widgetSpec raw d s lo hi c)
    as (up & back & Hup & Hback & Hup_eq & Hback_eq); try done.
  - by rewrite bool_decide_eq_true_2.
  - intros _. by exists z.
  - exists up, back. repeat split; try done; [lra|].
    destruct Hhigh as [Hhigh| ->]; lra.
Qed.

(** X23: [randomize] does not look at the value a field holds: the
    outcome for a numeric field depends on the slot, the default and the
    draw only, and so does the outcome for a select field. *)
Theorem randomize_ignores_current_value (cursor : nat) (slot : InputSlot)
    (widgetSpec : WidgetSpec) (raw raw' : option WidgetValue) :
  applyNumberControl random cursor Randomize slot widgetSpec raw
  = applyNumberControl random cursor Randomize slot widgetSpec raw'
  /\ applySelectControl random cursor Randomize widgetSpec raw
     = applySelectControl random cursor Randomize widgetSpec raw'.
Proof.
  split.
  - unfold applyNumberControl.
    by destruct (resolveNumberBounds slot _ (resolveNumberStep slot)).
  - unfold applySelectControl.
    by destruct (default [] (widget_options widgetSpec)).
Qed.

End NumberRoundTrip.

(** X22, witness: an INT seed goes from 5 to 6 and back to 5. *)
Lemma number_increment_then_decrement_witness :
  exists up back,
    applyNumberControl (H := sample_host None) (fun _ => 0%Q) 0 Increment
      seed_slot (mkWidgetSpec KNumber None None) (Some (VNumber (Fin 5)))
    = (Some (Fin up), 0%nat)
    /\ applyNumberControl (H := sample_host None) (fun _ => 0%Q) 0 Decrement
         seed_slot (mkWidgetSpec KNumber None None) (Some (VNumber (Fin up)))
       = (Some (Fin back), 0%nat)
    /\ (up == 5 + 1)%Q
    /\ (back == 5)%Q
    /\ (- 1125899906842624 <= 5)%Q
    /\ (up <= 1125899906842624)%Q.
Proof.
  apply (number_increment_then_decrement (H := sample_host None)
           (fun _ => 0%Q) 0 seed_slot (mkWidgetSpec KNumber None None)
           (Some (VNumber (Fin 5))) 0 1 0 10 5 1).
  - reflexivity.
  - reflexivity.
  - reflexivity.
  - reflexivity.
  - reflexivity.
  - reflexivity.
  - by vm_compute.
  - by vm_compute.
Defined.

(** ** Control-field engine: fixed fields and the role of the set *)

Section EngineExtras.
Context `{Host}.
Variable random : nat -> Q.
Variable nodeSchemas : gmap string NodeSchema.

Lemma mutate_slot_pinned node values controlValues st slot :
  isControlAfterGenerateEnabled slot = true ->
  negb (controlled slot)
  || is_fixed (normalizeControlValue (controlValues !! slot_name slot)) = true ->
  mutate_slot random node values controlValues st slot = st.
Proof.
  intros Henabled Hpinned. unfold controlled in Hpinned.
  rewrite Henabled in Hpinned. unfold mutate_slot.
  destruct (getWidgetSpec slot) as [spec|]; [|done].
  destruct (isSupportedControlWidget spec); [|done]. simpl in *.
  destruct (normalizeControlValue _); try done.
  destruct (widget_kind spec); simpl; by destruct st.
Qed.

Lemma control_slot_pinned mode node values controlValues st slot :
  negb (controlled slot)
  || is_fixed (normalizeControlValue (controlValues !! slot_name slot)) = true ->
  nextWidgetValues (control_slot random mode node values controlValues st slot)
  = nextWidgetValues st
  /\ sl_cursor (control_slot random mode node values controlValues st slot)
     = sl_cursor st.
Proof.
  intros Hpinned. unfold control_slot.
  destruct (isControlAfterGenerateEnabled slot) eqn:Henabled; [|done]. simpl.
  destruct mode, (sl_executed st); try case_decide;
    try (by rewrite mutate_slot_pinned); done.
Qed.

Lemma control_slots_pinned mode node values controlValues slots st :
  forallb
    (fun slot =>
       negb (controlled slot)
       || is_fixed (normalizeControlValue (controlValues !! slot_name slot)))
    slots = true ->
  nextWidgetValues
    (foldl (control_slot random mode node values controlValues) st slots)
  = nextWidgetValues st
  /\ sl_cursor
       (foldl (control_slot random mode node values controlValues) st slots)
     = sl_cursor st.
Proof.
  revert st. induction slots as [|slot slots IH]; intros st; [done|].
  simpl. intros [Hslot Hslots]%andb_true_iff.
  destruct (IH (control_slot random mode node values controlValues st slot)
              Hslots) as [-> ->].
  by apply control_slot_pinned.
Qed.

Lemma control_node_pinned mode nodes st index ref :
  from_option (pinned nodeSchemas) true (heap_nodes (es_heap st) !! ref) = true ->
  es_heap (control_node random nodeSchemas mode nodes st index ref) = es_heap st
  /\ nextNodes (control_node random nodeSchemas mode nodes st index ref)
     = nextNodes st
  /\ es_cursor (control_node random nodeSchemas mode nodes st index ref)
     = es_cursor st.
Proof.
  unfold control_node, pinned.
  destruct (heap_nodes (es_heap st) !! ref) as [node|]; [|done]. simpl.
  destruct (node_type_of node) as [type|]; [|done].
  destruct (nodeSchemas !! type) as [schema|]; [|done].
  intros Hpinned.
  destruct (control_slots_pinned mode node (widget_values_of node)
              (default ∅ (node_data node ≫= widgetControlValues))
              (schema_inputs schema)
              (mkSlotLoop None (es_executed st) (es_cursor st)) Hpinned)
    as [Hvalues Hcursor].
  simpl in Hvalues, Hcursor. by rewrite Hvalues, Hcursor.
Qed.

Lemma forEach_pinned mode nodes rest st index :
  Forall (fun ref =>
            from_option (pinned nodeSchemas) true (heap_nodes (es_heap st) !! ref)
            = true) rest ->
  es_heap (forEach (control_node random nodeSchemas mode nodes) st index rest)
  = es_heap st
  /\ nextNodes (forEach (control_node random nodeSchemas mode nodes) st index rest)
     = nextNodes st
  /\ es_cursor (forEach (control_node random nodeSchemas mode nodes) st index rest)
     = es_cursor st.
Proof.
  revert st index. induction rest as [|ref rest IH]; intros st index Hrest;
    [done|].
  apply Forall_cons in Hrest as [Href Hrest]. simpl.
  destruct (control_node_pinned mode nodes st index ref Href)
    as (Hheap & Hnext & Hcursor).
  destruct (IH (control_node random nodeSchemas mode nodes st index ref)
              (S index)) as (-> & -> & ->); [by rewrite Hheap|done].
Qed.

(** X24: When every field the engine acts on is under [fixed], in every
    node of the array, a call changes nothing: it reports no mutation,
    returns the array it was given, leaves the store as it is and makes no
    random draw - in either mode. *)
Theorem fixed_fields_are_never_modified (mode : ControlAfterGenerateMode)
    (h : Heap) (cursor nodes : nat) (executed : option (gset string)) :
  Forall (fun ref =>
            from_option (pinned nodeSchemas) true (heap_nodes h !! ref) = true)
    (default [] (heap_arrays h !! nodes)) ->
  let r := applyControlAfterGenerate random nodeSchemas mode h cursor nodes
             executed in
  didMutate r = false /\ res_nodes r = nodes /\ res_heap r = h
  /\ res_cursor r = cursor.
Proof.
  intros Hpinned r. unfold r, applyControlAfterGenerate.
  destruct (forEach_pinned mode nodes (default [] (heap_arrays h !! nodes))
              (mkEngineState h None executed cursor) 0 Hpinned)
    as (Hheap & Hnext & Hcursor).
  cbn [didMutate res_nodes res_heap res_cursor].
  by rewrite Hheap, Hnext, Hcursor.
Qed.

Lemma control_slot_no_set node values controlValues st slot :
  sl_executed st = None ->
  control_slot random Before node values controlValues st slot
  = control_slot random After node values controlValues st slot.
Proof. intros Hnone. unfold control_slot. by rewrite Hnone. Qed.

Lemma control_slots_no_set node values controlValues slots st :
  sl_executed st = None ->
  foldl (control_slot random Before node values controlValues) st slots
  = foldl (control_slot random After node values controlValues) st slots.
Proof.
  revert st. induction slots as [|slot slots IH]; intros st Hnone; [done|].
  simpl. rewrite control_slot_no_set by done. apply IH.
  by rewrite <- (control_slots_after random node values controlValues [slot] st)
    in Hnone.
Qed.

Lemma control_node_no_set nodes st index ref :
  es_executed st = None ->
  control_node random nodeSchemas Before nodes st index ref
  = control_node random nodeSchemas After nodes st index ref.
Proof.
  intros Hnone. unfold control_node.
  destruct (heap_nodes (es_heap st) !! ref) as [node|]; [|done].
  destruct (node_type_of node) as [type|]; [|done].
  destruct (nodeSchemas !! type) as [schema|]; [|done].
  by rewrite control_slots_no_set.
Qed.

Lemma forEach_no_set nodes rest st index :
  es_executed st = None ->
  forEach (control_node random nodeSchemas Before nodes) st index rest
  = forEach (control_node random nodeSchemas After nodes) st index rest.
Proof.
  revert st index. induction rest as [|ref rest IH]; intros st index Hnone;
    [done|].
  simpl. rewrite control_node_no_set by done. apply IH.
  by rewrite control_node_after.
Qed.

(** X25: Without a set of executed controls, [before] mode has no first
    run to skip: the call does exactly what it does in [after] mode. *)
Theorem before_mode_without_set_is_after_mode (h : Heap) (cursor nodes : nat) :
  applyControlAfterGenerate random nodeSchemas Before h cursor nodes None
  = applyControlAfterGenerate random nodeSchemas After h cursor nodes None.
Proof.
  unfold applyControlAfterGenerate. by rewrite forEach_no_set.
Qed.

Lemma mutate_slot_set node values controlValues slot w e c :
  mutate_slot random node values controlValues (mkSlotLoop w e c) slot
  = let l := mutate_slot random node values controlValues
               (mkSlotLoop w None c) slot in
    mkSlotLoop (nextWidgetValues l) e (sl_cursor l).
Proof.
  unfold mutate_slot. simpl.
  destruct (getWidgetSpec slot) as [spec|]; [|done].
  destruct (negb (isSupportedControlWidget spec)); [done|].
  destruct (match widget_kind spec with
            | KNumber => _ | KSelect => _ | _ => _ end) as [nextValue cursor].
  destruct nextValue as [value|]; [|done].
  by destruct (negb (object_is value (values !! slot_name slot))).
Qed.

Lemma control_slot_set node values controlValues slot w e c :
  control_slot random After node values controlValues (mkSlotLoop w e c) slot
  = let l := control_slot random After node values controlValues
               (mkSlotLoop w None c) slot in
    mkSlotLoop (nextWidgetValues l) e (sl_cursor l).
Proof.
  unfold control_slot. simpl.
  destruct (negb (isControlAfterGenerateEnabled slot)); [done|].
  apply mutate_slot_set.
Qed.

Lemma control_slots_set node values controlValues slots w e c :
  foldl (control_slot random After node values controlValues)
    (mkSlotLoop w e c) slots
  = let l := foldl (control_slot random After node values controlValues)
               (mkSlotLoop w None c) slots in
    mkSlotLoop (nextWidgetValues l) e (sl_cursor l).
Proof.
  revert w c. induction slots as [|slot slots IH]; intros w c; [done|].
  cbn [foldl]. rewrite (control_slot_set _ _ _ _ w e c). cbv zeta.
  destruct (control_slot random After node values controlValues
              (mkSlotLoop w None c) slot) as [w' e' c'] eqn:Hrun.
  assert (e' = None) as ->.
  { pose proof (control_slots_after random node values controlValues [slot]
                  (mkSlotLoop w None c)) as Hsame.
    simpl in Hsame. by rewrite Hrun in Hsame. }
  apply IH.
Qed.

Lemma control_node_set nodes index ref heap array e c :
  control_node random nodeSchemas After nodes (mkEngineState heap array e c)
    index ref
  = let st := control_node random nodeSchemas After nodes
                (mkEngineState heap array None c) index ref in
    mkEngineState (es_heap st) (nextNodes st) e (es_cursor st).
Proof.
  unfold control_node. simpl.
  destruct (heap_nodes heap !! ref) as [node|]; [|done].
  destruct (node_type_of node) as [type|]; [|done].
  destruct (nodeSchemas !! type) as [schema|]; [|done].
  rewrite control_slots_set. simpl.
  destruct (nextWidgetValues _) as [values'|]; [|done].
  by destruct array.
Qed.

Lemma forEach_set nodes rest index heap array e c :
  forEach (control_node random nodeSchemas After nodes)
    (mkEngineState heap array e c) index rest
  = let st := forEach (control_node random nodeSchemas After nodes)
                (mkEngineState heap array None c) index rest in
    mkEngineState (es_heap st) (nextNodes st) e (es_cursor st).
Proof.
  revert index heap array c.
  induction rest as [|ref rest IH]; intros index heap array c; [done|].
  cbn [forEach]. rewrite (control_node_set _ _ _ heap array e c). cbv zeta.
  destruct (control_node random nodeSchemas After nodes
              (mkEngineState heap array None c) index ref)
    as [heap' array' e' c'] eqn:Hrun.
  assert (e' = None) as ->.
  { pose proof (control_node_after random nodeSchemas nodes
                  (mkEngineState heap array None c) index ref) as Hsame.
    by rewrite Hrun in Hsame. }
  apply IH.
Qed.

(** X26: In [after] mode the set of executed controls plays no part: the
    call returns it as it was, and the nodes, the mutation flag, the store
    and the draws made are those of the call without a set. *)
Theorem after_mode_ignores_the_set (h : Heap) (cursor nodes : nat)
    (executed : option (gset string)) :
  applyControlAfterGenerate random nodeSchemas After h cursor nodes executed
  = let r := applyControlAfterGenerate random nodeSchemas After h cursor nodes
               None in
    mkApplyResult (res_nodes r) (didMutate r) (res_heap r) executed
      (res_cursor r).
Proof.
  unfold applyControlAfterGenerate. by rewrite forEach_set.
Qed.

End EngineExtras.

(** X24, witness: with both seeds under [fixed] the example's array comes
    back as it is. *)
Lemma fixed_fields_are_never_modified_witness :
  let heap :=
    mkHeap {[ 0%nat := sampler_node "n0" 5 "fixed";
              1%nat := sampler_node "n1" 7 "fixed" ]}
      {[ 2%nat := [0%nat; 1%nat] ]} 3 in
  let r := applyControlAfterGenerate (H := sample_host None) (fun _ => 0%Q)
             sampler_schemas After heap 0 2 None in
  didMutate r = false /\ res_nodes r = 2%nat /\ res_heap r = heap
  /\ res_cursor r = 0%nat.
Proof.
  intros heap.
  apply (fixed_fields_are_never_modified (H := sample_host None) (fun _ => 0%Q)
           sampler_schemas After heap 0 2 None).
  apply (bool_decide_unpack _). by vm_compute.
Defined.

(** ** Control-field engine: which fields a call may change *)

Section DefaultsExtras.
Context `{Host}.

Lemma default_controls_lookup slots values name :
  foldl default_control values slots !! name
  = if existsb (fun slot => bool_decide (slot_name slot = name) && controlled slot)
         slots
    then Some DEFAULT_CONTROL_VALUE
    else values !! name.
Proof.
  revert values. induction slots as [|slot slots IH]; intros values; [done|].
  simpl. rewrite IH.
  destruct (existsb _ slots); [by rewrite orb_true_r|]. rewrite orb_false_r.
  unfold default_control, controlled.
  destruct (isControlAfterGenerateEnabled slot); simpl;
    [|by rewrite andb_false_r].
  destruct (getWidgetSpec slot) as [spec|]; [|by rewrite andb_false_r].
  destruct (isSupportedControlWidget spec); simpl; [|by rewrite andb_false_r].
  rewrite andb_true_r. case_bool_decide as Hname.
  - by rewrite Hname, lookup_insert_eq.
  - by rewrite lookup_insert_ne.
Qed.

(** X27: The control defaults of a schema have an entry exactly for the
    names of the slots the engine acts on (control enabled, number or
    select widget), every entry is [randomize], and without a schema there
    is no entry at all. *)
Theorem control_defaults_cover_controlled_slots (schema : NodeSchema)
    (name : string) :
  buildControlDefaults None = ∅
  /\ (is_Some (buildControlDefaults (Some schema) !! name)
      <-> exists slot,
            slot ∈ schema_inputs schema /\ slot_name slot = name
            /\ controlled slot = true)
  /\ (forall value,
        buildControlDefaults (Some schema) !! name = Some value ->
        value = Randomize).
Proof.
  split; [done|]. unfold buildControlDefaults.
  rewrite default_controls_lookup, lookup_empty.
  destruct (existsb _ (schema_inputs schema)) eqn:Hexists.
  - split; [|by intros value [= <-]]. split; [|by eauto].
    intros _. apply existsb_exists in Hexists as (slot & Hin & Hslot).
    apply andb_true_iff in Hslot as [Hname Hcontrolled].
    apply bool_decide_eq_true in Hname. apply list_elem_of_In in Hin.
    eauto.
  - split; [|done]. split; [by intros [? ?]|].
    intros (slot & Hin & Hname & Hcontrolled).
    assert (existsb
              (fun slot => bool_decide (slot_name slot = name) && controlled slot)
              (schema_inputs schema) = true) as Htrue; [|congruence].
    apply existsb_exists. exists slot. split; [by apply list_elem_of_In|].
    by rewrite bool_decide_eq_true_2, Hcontrolled.
Qed.

End DefaultsExtras.

Section TouchedFields.
Context `{Host}.
Variable random : nat -> Q.
Variable nodeSchemas : gmap string NodeSchema.
Variable mode : ControlAfterGenerateMode.

Lemma mutate_slot_changes node values controlValues st slot
    (ok : string -> Prop) :
  isControlAfterGenerateEnabled slot = true ->
  (controlled slot = true ->
   is_fixed (normalizeControlValue (controlValues !! slot_name slot)) = false ->
   ok (slot_name slot)) ->
  (forall m0, nextWidgetValues st = Some m0 ->
     forall name, m0 !! name ≠ values !! name -> ok name) ->
  forall m,
    nextWidgetValues (mutate_slot random node values controlValues st slot)
    = Some m ->
    forall name, m !! name ≠ values !! name -> ok name.
Proof.
  intros Henabled Hslot Hst. unfold mutate_slot, controlled in *.
  rewrite Henabled in Hslot.
  destruct (getWidgetSpec slot) as [spec|]; [|exact Hst].
  destruct (isSupportedControlWidget spec); simpl; [|exact Hst].
  destruct (is_fixed (normalizeControlValue (controlValues !! slot_name slot)))
    eqn:Hfixed.
  { destruct (normalizeControlValue _); try done.
    destruct (widget_kind spec); exact Hst. }
  destruct (match widget_kind spec with
            | KNumber => _ | KSelect => _ | _ => _ end) as [nextValue cursor].
  destruct nextValue as [value|]; [|exact Hst].
  destruct (object_is value (values !! slot_name slot)); simpl; [exact Hst|].
  intros m [= <-] name Hname.
  destruct (decide (name = slot_name slot)) as [->|Hother]; [by apply Hslot|].
  rewrite lookup_insert_ne in Hname by done.
  destruct (nextWidgetValues st) as [m0|]; simpl in Hname; [|done].
  by apply (Hst m0).
Qed.

Lemma control_slot_changes node values controlValues st slot
    (ok : string -> Prop) :
  (controlled slot = true ->
   is_fixed (normalizeControlValue (controlValues !! slot_name slot)) = false ->
   ok (slot_name slot)) ->
  (forall m0, nextWidgetValues st = Some m0 ->
     forall name, m0 !! name ≠ values !! name -> ok name) ->
  forall m,
    nextWidgetValues (control_slot random mode node values controlValues st slot)
    = Some m ->
    forall name, m !! name ≠ values !! name -> ok name.
Proof.
  intros Hslot Hst. unfold control_slot.
  destruct (isControlAfterGenerateEnabled slot) eqn:Henabled; [|exact Hst].
  simpl.
  destruct mode, (sl_executed st); try case_decide;
    try (by apply mutate_slot_changes); exact Hst.
Qed.

Lemma control_slots_changes node values controlValues slots st
    (ok : string -> Prop) :
  (forall slot, slot ∈ slots -> controlled slot = true ->
     is_fixed (normalizeControlValue (controlValues !! slot_name slot)) = false ->
     ok (slot_name slot)) ->
  (forall m0, nextWidgetValues st = Some m0 ->
     forall name, m0 !! name ≠ values !! name -> ok name) ->
  forall m,
    nextWidgetValues
      (foldl (control_slot random mode node values controlValues) st slots)
    = Some m ->
    forall name, m !! name ≠ values !! name -> ok name.
Proof.
  revert st. induction slots as [|slot slots IH]; intros st Hslots Hst;
    [exact Hst|].
  simpl. apply IH.
  - intros slot' Hin. apply Hslots. by apply list_elem_of_further.
  - apply control_slot_changes; [|exact Hst].
    apply Hslots, list_elem_of_here.
Qed.

(** One turn of [forEach], with what the copy may differ in. *)
Lemma control_node_touch nodes st index ref :
  let st' := control_node random nodeSchemas mode nodes st index ref in
  (es_heap st' = es_heap st /\ nextNodes st' = nextNodes st)
  \/ exists node values',
       heap_nodes (es_heap st) !! ref = Some node
       /\ changes_only nodeSchemas node values'
       /\ let fresh := heap_next (es_heap st) in
          let h1 :=
            snd (alloc_node (es_heap st) (with_widget_values node values')) in
          match nextNodes st with
          | Some array =>
              es_heap st' = array_write h1 array index fresh
              /\ nextNodes st' = Some array
          | None =>
              es_heap st'
              = array_write
                  (snd (alloc_array h1 (default [] (heap_arrays h1 !! nodes))))
                  (S fresh) index fresh
              /\ nextNodes st' = Some (S fresh)
          end.
Proof.
  cbv zeta. unfold control_node.
  destruct (heap_nodes (es_heap st) !! ref) as [node|] eqn:Hnode; [|by left].
  destruct (node_type_of node) as [type|] eqn:Htype; [|by left].
  destruct (nodeSchemas !! type) as [schema|] eqn:Hschema; [|by left].
  set (loop := foldl _ _ _).
  destruct (nextWidgetValues loop) as [values'|] eqn:Hloop; [|by left].
  right. exists node, values'. split; [done|]. split.
  - unfold loop in Hloop. intros name.
    eapply control_slots_changes; [| |exact Hloop]; [|done].
    intros slot Hin Hcontrolled Hfixed.
    exists type, schema, slot. by repeat split.
  - by destruct (nextNodes st).
Qed.

End TouchedFields.

Section TouchInvariant.
Context `{Host}.
Variable random : nat -> Q.
Variable nodeSchemas : gmap string NodeSchema.
Variable mode : ControlAfterGenerateMode.
Variable h : Heap.
Variable nodes : nat.
Variable elems : list nat.
Hypothesis Hnodes : heap_arrays h !! nodes = Some elems.
Hypothesis Hnodes_old : (nodes < heap_next h)%nat.
Hypothesis Helems_old : forall ref, ref ∈ elems -> (ref < heap_next h)%nat.

Lemma touch_inv_step k st ref :
  copy_inv h elems k st ->
  touch_inv nodeSchemas h elems st ->
  elems !! k = Some ref ->
  touch_inv nodeSchemas h elems
    (control_node random nodeSchemas mode nodes st k ref).
Proof.
  intros (Hnext & Hframe & Harray) Htouch Hk.
  assert (Href : (ref < heap_next h)%nat).
  { apply Helems_old. by apply list_elem_of_lookup_2 in Hk. }
  assert (Hklen : (k < length elems)%nat) by (by apply lookup_lt_Some in Hk).
  destruct (control_node_touch random nodeSchemas mode nodes st k ref)
    as [[Hheap Hnn]|(node & values' & Hnode & Hchange & Hcase)].
  - unfold touch_inv. by rewrite Hheap, Hnn.
  - cbv zeta in Hcase.
    assert (Hnode_h : heap_nodes h !! ref = Some node).
    { by rewrite <- (proj1 (Hframe ref Href)). }
    unfold touch_inv in *.
    destruct (nextNodes st) as [array|] eqn:Hnn.
    + destruct Hcase as [Hheap Hnn'].
      destruct Harray as (Hbound & cur & Hcur & Hlen & Hrest & Hrep & Hsome).
      rewrite Hheap, Hnn'. simpl.
      intros cur' i ref0 ref' Hcur' He Hc.
      rewrite lookup_alter_eq, Hcur in Hcur'. simpl in Hcur'.
      injection Hcur' as <-.
      destruct (decide (i = k)) as [->|Hik].
      * rewrite list_lookup_insert_eq in Hc by lia.
        injection Hc as <-. rewrite Hk in He. injection He as <-.
        right. exists node, values'.
        repeat split; try done. by rewrite lookup_insert_eq.
      * rewrite list_lookup_insert_ne in Hc by done.
        destruct (Hrep i ref0 ref' He Hc) as [->|[Hb _]]; [by left|].
        destruct (Htouch cur i ref0 ref' Hcur He Hc)
          as [->|(node0 & values0 & Hn0 & Hn0' & Hchange0)]; [by left|].
        right. exists node0, values0. repeat split; try done.
        rewrite lookup_insert_ne by lia. done.
    + destruct Hcase as [Hheap Hnn']. rewrite Harray in *.
      rewrite Hheap, Hnn'. simpl. rewrite Hnodes. simpl.
      intros cur' i ref0 ref' Hcur' He Hc.
      rewrite lookup_alter_eq, lookup_insert_eq in Hcur'. simpl in Hcur'.
      injection Hcur' as <-.
      destruct (decide (i = k)) as [->|Hik].
      * rewrite list_lookup_insert_eq in Hc by lia.
        injection Hc as <-. rewrite Hk in He. injection He as <-.
        right. exists node, values'.
        repeat split; try done. by rewrite lookup_insert_eq.
      * rewrite list_lookup_insert_ne in Hc by done.
        left. congruence.
Qed.

Lemma touch_inv_forEach rest k st :
  copy_inv h elems k st ->
  touch_inv nodeSchemas h elems st ->
  (forall i, rest !! i = elems !! (k + i)%nat) ->
  touch_inv nodeSchemas h elems
    (forEach (control_node random nodeSchemas mode nodes) st k rest).
Proof.
  revert k st. induction rest as [|ref rest IH]; intros k st Hcopy Htouch Hrest;
    [done|].
  assert (elems !! k = Some ref) as Hk.
  { specialize (Hrest 0%nat). by rewrite Nat.add_0_r in Hrest. }
  simpl. apply IH.
  - by apply copy_inv_step.
  - by apply touch_inv_step.
  - intros i. specialize (Hrest (S i)). simpl in Hrest.
    by replace (S k + i)%nat with (k + S i)%nat by lia.
Qed.

End TouchInvariant.

(** X28: Whatever the mode, the node found at a position of the array
    returned has the id, the type and the control settings of the input's
    node at that position, and its widget values differ from the input's
    only under names of slots the engine acts on and whose control is not
    [fixed]: no other field is ever changed. *)
Theorem engine_changes_controlled_fields_only `{Host} (random : nat -> Q)
    (nodeSchemas : gmap string NodeSchema) (mode : ControlAfterGenerateMode)
    (h : Heap) (cursor nodes : nat) (executed : option (gset string))
    (elems : list nat) :
  heap_wf h ->
  heap_arrays h !! nodes = Some elems ->
  Forall (fun ref => is_Some (heap_nodes h !! ref)) elems ->
  let r := applyControlAfterGenerate random nodeSchemas mode h cursor nodes
             executed in
  forall elems' i ref ref' node node',
    heap_arrays (res_heap r) !! res_nodes r = Some elems' ->
    elems !! i = Some ref ->
    elems' !! i = Some ref' ->
    heap_nodes h !! ref = Some node ->
    heap_nodes (res_heap r) !! ref' = Some node' ->
    node_id node' = node_id node
    /\ node_data node' ≫= nodeType = node_data node ≫= nodeType
    /\ node_data node' ≫= widgetControlValues
       = node_data node ≫= widgetControlValues
    /\ forall name,
         widget_values_of node' !! name ≠ widget_values_of node !! name ->
         writable nodeSchemas node name.
Proof.
  intros [Hwf_nodes0 Hwf_arrays0] Hnodes Helems0. cbv zeta.
  assert (Hwf_nodes : forall r, is_Some (heap_nodes h !! r) ->
                                (r < heap_next h)%nat).
  { intros r [x Hx]. exact (Hwf_nodes0 r x Hx). }
  assert (Hwf_arrays : forall r, is_Some (heap_arrays h !! r) ->
                                 (r < heap_next h)%nat).
  { intros r [x Hx]. exact (Hwf_arrays0 r x Hx). }
  assert (Hnodes_old : (nodes < heap_next h)%nat).
  { apply Hwf_arrays. by rewrite Hnodes. }
  assert (Helems_old : forall ref, ref ∈ elems -> (ref < heap_next h)%nat).
  { intros ref Href. apply Hwf_nodes.
    by apply (proj1 (Forall_forall _ _) Helems0). }
  unfold applyControlAfterGenerate. rewrite Hnodes. simpl.
  set (st := forEach _ _ _ _).
  assert (Hstart : copy_inv h elems 0 (mkEngineState h None executed cursor)).
  { by repeat split. }
  assert (Hcopy : copy_inv h elems (0 + length elems) st).
  { by apply copy_inv_forEach. }
  assert (Htouch : touch_inv nodeSchemas h elems st).
  { by apply (touch_inv_forEach random nodeSchemas mode h nodes elems). }
  destruct Hcopy as (Hnext & Hframe & Harray).
  unfold touch_inv in Htouch.
  intros elems' i ref ref' node node' Helems' He Hc Hn Hn'.
  assert (Hold : (ref < heap_next h)%nat) by (apply Hwf_nodes; eauto).
  assert (ref' = ref -> node' = node) as Hsame.
  { intros ->. rewrite (proj1 (Hframe ref Hold)), Hn in Hn'. congruence. }
  destruct (nextNodes st) as [array|]; simpl in Helems'.
  - destruct (Htouch elems' i ref ref' Helems' He Hc)
      as [Heq|(node0 & values' & Hn0 & Hn0' & Hchange)].
    + rewrite (Hsame Heq). by repeat split.
    + rewrite Hn in Hn0. injection Hn0 as <-.
      rewrite Hn0' in Hn'. injection Hn' as <-.
      by repeat split.
  - rewrite Harray, Hnodes in Helems'. injection Helems' as <-.
    rewrite He in Hc. injection Hc as <-.
    rewrite (Hsame eq_refl). by repeat split.
Qed.

(** X28, witness: in the example the copy of [n0] keeps the id, and the
    field it differs in, [seed], is one the engine may write. *)
Lemma engine_changes_controlled_fields_only_witness :
  let r := applyControlAfterGenerate (H := sample_host None) (fun _ => 0%Q)
             sampler_schemas After sample_heap 0 2 None in
  exists node',
    heap_nodes (res_heap r) !! 3%nat = Some node'
    /\ node_id node' = "n0"
    /\ writable (H := sample_host None) sampler_schemas
         (sampler_node "n0" 5 "increment") "seed".
Proof.
  intros r.
  assert (heap_nodes (res_heap r) !! 3%nat
          = Some (with_widget_values (sampler_node "n0" 5 "increment")
                    {[ "seed" := VNumber (Fin 6) ]})) as Hcopy
    by by vm_compute.
  eexists. split; [exact Hcopy|].
  destruct (engine_changes_controlled_fields_only (H := sample_host None)
              (fun _ => 0%Q) sampler_schemas After sample_heap 0 2 None
              [0%nat; 1%nat])
    with (elems' := [3%nat; 1%nat]) (i := 0%nat) (ref := 0%nat) (ref' := 3%nat)
         (node := sampler_node "n0" 5 "increment")
         (node' := with_widget_values (sampler_node "n0" 5 "increment")
                     {[ "seed" := VNumber (Fin 6) ]})
    as (Hid & _ & _ & Hfields).
  - split; apply (bool_decide_unpack _); by vm_compute.
  - reflexivity.
  - apply (bool_decide_unpack _). by vm_compute.
  - by vm_compute.
  - reflexivity.
  - reflexivity.
  - reflexivity.
  - exact Hcopy.
  - split; [exact Hid|]. apply Hfields. by vm_compute.
Defined.

(** ** Control-field engine and request compiler together *)



(** ** Control-field engine: the keys of the set *)

Lemma append_colon_inj a a' b b' :
  has_colon a = false -> has_colon a' = false ->
  (a ++ ":" ++ b)%string = (a' ++ ":" ++ b')%string ->
  a = a' /\ b = b'.
Proof.
  revert a'. induction a as [|c a IH]; intros [|c' a'];
    unfold String.append; simpl; fold String.append.
  - intros _ _ Heq. split; [done|]. by injection Heq.
  - intros _ Hcolon Heq. injection Heq as <- _.
    by rewrite Ascii.eqb_refl in Hcolon.
  - intros Hcolon _ Heq. injection Heq as -> _.
    by rewrite Ascii.eqb_refl in Hcolon.
  - intros [_ Ha]%orb_false_iff [_ Ha']%orb_false_iff Heq.
    injection Heq as -> Hrest.
    destruct (IH a' Ha Ha' Hrest) as [-> ->]. done.
Qed.

(** X30: The key under which a control is recorded identifies the field:
    for node ids without a colon, two fields have the same key only if
    they have the same node id and the same slot name. *)
Theorem control_keys_identify_fields (node node' : GraphNode)
    (slot slot' : InputSlot) :
  has_colon (node_id node) = false ->
  has_colon (node_id node') = false ->
  controlKey node slot = controlKey node' slot' ->
  node_id node = node_id node' /\ slot_name slot = slot_name slot'.
Proof. unfold controlKey. apply append_colon_inj. Qed.

(** Node ids with a colon can make the keys of two fields coincide. *)
Example control_keys_collide :
  controlKey (sample_node "a:b" "A") (widget_slot "c" "INT" [] None)
  = controlKey (sample_node "a" "A") (widget_slot "b:c" "INT" [] None).
Proof. reflexivity. Qed.

(** X30, witness: two nodes recorded under the key [n0:seed] have the
    same id. *)
Lemma control_keys_identify_fields_witness :
  node_id (sampler_node "n0" 5 "fixed")
  = node_id (sampler_node "n0" 7 "increment")
  /\ slot_name seed_slot = slot_name seed_slot.
Proof.
  apply (control_keys_identify_fields (sampler_node "n0" 5 "fixed")
           (sampler_node "n0" 7 "increment") seed_slot seed_slot);
    reflexivity.
Defined.
